(** * The client-side cache of the stablecoin dashboard

    A shallow embedding of the caching and data-retrieval layer of
    [src/app_old.js] (lines 24-108: [mem], [inflight], [LKG_GRACE_MS],
    [keyFrom], [getLKG], [setLKG], [fetchWithCache], [swrRefresh]) and
    the properties the specification states about it.

    The layer is asynchronous JavaScript running on one event loop.  It is
    embedded as a deterministic transition function over an explicit state
    (the two module-level maps, the browser's localStorage, and the
    suspended coroutines waiting on the network), driven by events: a
    consumer calling [fetchWithCache], a [fetch] promise settling, a
    [res.json()] promise settling. *)

From Stdlib Require Import ZArith Lia Ascii String Sorted.
From stdpp Require Import gmap strings list fin_maps.

Local Open Scope string_scope.
Local Open Scope nat_scope.

(** ** Exceptions and completions

    Synchronous JavaScript code either completes normally or throws.  The
    exceptions are the ones the cache layer can meet. *)

Inductive Exn :=
| TypeError (msg : string)   (* [new URL] on a malformed URL, [fetch] transport failure *)
| SyntaxError                (* [JSON.parse], [res.json()] on malformed text *)
| SecurityError              (* access to localStorage denied *)
| QuotaExceededError         (* [localStorage.setItem] over quota *)
| HttpError (status : Z).    (* [new Error(`HTTP ${res.status}`)] *)

Inductive Completion (A : Type) :=
| Normal (a : A)
| Throw (e : Exn).

Arguments Normal {A} a.
Arguments Throw {A} e.

#[export] Instance completion_ret : MRet Completion := fun A a => Normal a.

#[export] Instance completion_bind : MBind Completion := fun A B k c =>
  match c with
  | Normal a => k a
  | Throw e => Throw e
  end.

(** [try { body } catch (e) { handler }] *)
Definition try_catch {A} (body : Completion A) (handler : Exn -> Completion A) : Completion A :=
  match body with
  | Normal a => Normal a
  | Throw e => handler e
  end.

(** ** Platform: URL and URLSearchParams

    The browser's URL parser is not code of the repository.  It is modelled
    as far as [keyFrom] observes it: a URL string is cut into the text before
    the query, the query and the fragment; construction throws when the
    string has no scheme (the parser's first failure, and the one relative
    or empty strings hit).  The canonicalisation of host and path that the
    parser also performs is not modelled: the text before the query is kept
    as written; nor are the parser's other failures, nor its trimming of
    white space.  Names and values are strings of bytes: the decoding of
    UTF-8, with its replacement of invalid bytes, is not modelled.  Where
    a property of [keyFrom] takes the parsed URL and its parameters from a
    hypothesis, it does not depend on how the parser is modelled. *)

Record URL := mkURL {
  prefix : string;            (* scheme, authority and path *)
  query : option string;      (* without the leading "?" *)
  fragment : option string    (* without the leading "#" *)
}.

Definition is_alpha (c : ascii) : bool :=
  let n := nat_of_ascii c in
  ((65 <=? n) && (n <=? 90)) || ((97 <=? n) && (n <=? 122)).

Definition is_digit (c : ascii) : bool :=
  let n := nat_of_ascii c in (48 <=? n) && (n <=? 57).

Definition is_scheme_char (c : ascii) : bool :=
  is_alpha c || is_digit c
  || Ascii.eqb c "+" || Ascii.eqb c "-" || Ascii.eqb c ".".

(** the rest of a scheme: scheme characters up to a colon *)
Fixpoint scheme_tail (s : string) : bool :=
  match s with
  | EmptyString => false
  | String c r => if Ascii.eqb c ":" then true
                  else if is_scheme_char c then scheme_tail r else false
  end.

Definition has_scheme (s : string) : bool :=
  match s with
  | EmptyString => false
  | String c r => is_alpha c && scheme_tail r
  end.

(** cut a string at the first occurrence of [c] *)
Fixpoint cut (c : ascii) (s : string) : option (string * string) :=
  match s with
  | EmptyString => None
  | String a r =>
      if Ascii.eqb a c then Some (EmptyString, r)
      else match cut c r with
           | Some (l, t) => Some (String a l, t)
           | None => None
           end
  end.

(** [new URL(url)] *)
Definition new_URL (url : string) : Completion URL :=
  if has_scheme url then
    let '(rest, frag) :=
      match cut "#" url with
      | Some (a, b) => (a, Some b)
      | None => (url, None)
      end in
    let '(pre, q) :=
      match cut "?" rest with
      | Some (a, b) => (a, Some b)
      | None => (rest, None)
      end in
    Normal (mkURL pre q frag)
  else Throw (TypeError "Invalid URL").

(** the [search] getter: empty for a missing or empty query *)
Definition search (u : URL) : string :=
  match query u with
  | None => ""
  | Some "" => ""
  | Some q => "?" +:+ q
  end.

Definition strip_question (s : string) : string :=
  match s with
  | String "?" r => r
  | _ => s
  end.

(** the [search] setter: the empty string removes the query *)
Definition set_search (u : URL) (s : string) : URL :=
  match s with
  | "" => mkURL (prefix u) None (fragment u)
  | _ => mkURL (prefix u) (Some (strip_question s)) (fragment u)
  end.

(** [u.toString()], the serialised URL *)
Definition URL_toString (u : URL) : string :=
  prefix u
  +:+ match query u with None => "" | Some q => "?" +:+ q end
  +:+ match fragment u with None => "" | Some f => "#" +:+ f end.

(** *** application/x-www-form-urlencoded *)

Definition hex_value (c : ascii) : option nat :=
  let n := nat_of_ascii c in
  if is_digit c then Some (n - 48)
  else if (65 <=? n) && (n <=? 70) then Some (n - 55)
  else if (97 <=? n) && (n <=? 102) then Some (n - 87)
  else None.

Definition hex_digit (n : nat) : ascii :=
  if n <? 10 then ascii_of_nat (48 + n) else ascii_of_nat (55 + n).

(** percent-decoding, after "+" has been read as a space *)
Fixpoint percent_decode (s : string) : string :=
  match s with
  | EmptyString => EmptyString
  | String c r =>
      if Ascii.eqb c "%" then
        match r with
        | String h (String l r') =>
            match hex_value h, hex_value l with
            | Some a, Some b => String (ascii_of_nat (16 * a + b)) (percent_decode r')
            | _, _ => String c (percent_decode r)
            end
        | _ => String c (percent_decode r)
        end
      else if Ascii.eqb c "+" then String " " (percent_decode r)
      else String c (percent_decode r)
  end.

Definition urlencoded_safe (c : ascii) : bool :=
  is_alpha c || is_digit c
  || Ascii.eqb c "*" || Ascii.eqb c "-" || Ascii.eqb c "." || Ascii.eqb c "_".

(** the serialisation of one byte *)
Definition urlencode_byte (c : ascii) : string :=
  if urlencoded_safe c then String c ""
  else if Ascii.eqb c " " then "+"
  else let n := nat_of_ascii c in
       String "%" (String (hex_digit (n / 16)) (String (hex_digit (n mod 16)) "")).

Fixpoint urlencode (s : string) : string :=
  match s with
  | EmptyString => EmptyString
  | String c r => urlencode_byte c +:+ urlencode r
  end.

(** split on every "&" *)
Fixpoint split_amp (s : string) : list string :=
  match s with
  | EmptyString => [EmptyString]
  | String c r =>
      if Ascii.eqb c "&" then EmptyString :: split_amp r
      else match split_amp r with
           | p :: ps => String c p :: ps
           | [] => [String c EmptyString]
           end
  end.

Definition parse_pair (p : string) : string * string :=
  match cut "=" p with
  | Some (n, v) => (percent_decode n, percent_decode v)
  | None => (percent_decode p, "")
  end.

Definition nonempty (s : string) : bool :=
  match s with EmptyString => false | _ => true end.

(** [new URLSearchParams(init)] followed by [[...sp.entries()]] *)
Definition URLSearchParams_entries (init : string) : list (string * string) :=
  map parse_pair (filter (fun p => nonempty p = true) (split_amp (strip_question init))).

Fixpoint join_amp (l : list string) : string :=
  match l with
  | [] => ""
  | [p] => p
  | p :: ps => p +:+ "&" +:+ join_amp ps
  end.

Definition serialize_pair (e : string * string) : string :=
  urlencode e.1 +:+ "=" +:+ urlencode e.2.

(** [new URLSearchParams(entries).toString()] *)
Definition URLSearchParams_toString (l : list (string * string)) : string :=
  join_amp (map serialize_pair l).

(** *** Collation

    [String.prototype.localeCompare] depends on the host's locale data.  It
    is an interface here: any comparison that is antisymmetric and whose
    "not after" is transitive, that is, any total preorder.  Distinct strings
    may compare equal, as they do under a real collation. *)

Class Collator := {
  localeCompare : string -> string -> comparison;
  localeCompare_antisym : forall a b, localeCompare b a = CompOpp (localeCompare a b);
  localeCompare_trans : forall a b c,
    localeCompare a b <> Gt -> localeCompare b c <> Gt -> localeCompare a c <> Gt
}.

(** [Array.prototype.sort] is stable.  [insert_sorted cmp x l] places [x],
    which preceded every element of [l] in the input, behind exactly the
    elements that compare strictly below it. *)

Section Sort.
Context {A : Type} (cmp : A -> A -> comparison).

Fixpoint insert_sorted (x : A) (l : list A) : list A :=
  match l with
  | [] => [x]
  | y :: l' =>
      match cmp x y with
      | Gt => y :: insert_sorted x l'
      | _ => x :: l
      end
  end.

Fixpoint array_sort (l : list A) : list A :=
  match l with
  | [] => []
  | x :: l' => insert_sorted x (array_sort l')
  end.

End Sort.

(** ** [keyFrom] *)

Section KeyFrom.
Context `{Collator}.

Definition by_name (a b : string * string) : comparison := localeCompare a.1 b.1.

(** no two parameters carry names that the collation takes for equal *)
Fixpoint distinct_names (l : list (string * string)) : Prop :=
  match l with
  | [] => True
  | a :: l' => Forall (fun b => by_name a b <> Eq) l' /\ distinct_names l'
  end.

Definition keyFrom (url v : string) : Completion string :=
  try_catch
    (u ← new_URL url;
     let sp := URLSearchParams_entries (search u) in
     let sorted := array_sort by_name sp in
     let u' := set_search u (URLSearchParams_toString sorted) in
     Normal (URL_toString u' +:+ "|v=" +:+ v))
    (fun _ => Normal (url +:+ "|v=" +:+ v)).

End KeyFrom.

(** The collation of a host that orders strings by code unit. *)

#[export] Instance codeunit_collator : Collator.
Proof.
  refine {| localeCompare := String.compare |}.
  - intros a b. apply String.compare_antisym.
  - intros a. induction a as [|x a IH]; intros [|y b] [|z c]; simpl; try congruence.
    unfold Ascii.compare.
    destruct (N.compare_spec (N_of_ascii x) (N_of_ascii y)) as [Exy|Exy|Exy]; try congruence;
    destruct (N.compare_spec (N_of_ascii y) (N_of_ascii z)) as [Eyz|Eyz|Eyz]; try congruence;
    destruct (N.compare_spec (N_of_ascii x) (N_of_ascii z)) as [Exz|Exz|Exz];
    try congruence; try lia; eauto.
Defined.

(** ** Data model *)

#[local] Set Warnings "-register-all".

(** A parsed JSON document: what [res.json()] yields.  The cache stores and
    returns it without looking inside. *)
Inductive Json :=
| JNull
| JBool (b : bool)
| JNumber (n : Z)
| JString (s : string)
| JArray (l : list Json)
| JObject (fields : list (string * Json)).

(** [{ data, fetchedAt, ttlSec }]: timestamps are milliseconds since the
    epoch, as [Date.now()] returns them. *)
Record CacheRecord := mkRecord {
  data : Json;
  fetchedAt : Z;
  ttlSec : Z
}.

(** [{ data, source, fetchedAt }], the value [fetchWithCache] resolves to *)
Record Result := mkResult {
  res_data : Json;
  source : string;
  res_fetchedAt : Z
}.

(** the second argument of [fetchWithCache], defaults filled in *)
Record Options := mkOptions {
  opt_ttlSec : Z;
  opt_retries : Z;
  opt_version : string
}.

Definition default_options : Options := mkOptions 300 1 "1".

(** ** Platform: localStorage and JSON

    A stored string is represented by how [JSON.parse] reads it: the text of
    a record (what [JSON.stringify] wrote), the text [null], or text that is
    not JSON, the empty string among it.  Other JSON values are left out:
    under a cache key only [setLKG] writes.  The numbers of a document are
    integers here; what [JSON.stringify] does not write back as it was (a
    negative zero, an infinity) is outside the model, and no property below
    is about the text itself. *)

Inductive StoredText :=
| JSON_text (v : option CacheRecord)
| Other_text (s : string).

Definition JSON_stringify (payload : CacheRecord) : StoredText := JSON_text (Some payload).

Definition JSON_parse (raw : StoredText) : Completion (option CacheRecord) :=
  match raw with
  | JSON_text v => Normal v
  | Other_text _ => Throw SyntaxError
  end.

(** [!raw] on a string: true for the empty string only *)
Definition is_empty_text (raw : StoredText) : bool :=
  match raw with
  | Other_text "" => true
  | _ => false
  end.

(** The store of the page's origin.  [denied]: the browser refuses access
    (every operation throws).  [full]: the quota is used up (writes throw). *)
Record LocalStorage := mkStorage {
  items : gmap string StoredText;
  denied : bool;
  full : bool
}.

Definition getItem (k : string) (ls : LocalStorage) : Completion (option StoredText) :=
  if denied ls then Throw SecurityError else Normal (items ls !! k).

Definition setItem (k : string) (v : StoredText) (ls : LocalStorage) : Completion LocalStorage :=
  if denied ls then Throw SecurityError
  else if full ls then Throw QuotaExceededError
  else Normal (mkStorage (<[k := v]> (items ls)) (denied ls) (full ls)).

(** ** The durable store adapter *)

Definition getLKG (k : string) (ls : LocalStorage) : Completion (option CacheRecord) :=
  try_catch
    (raw ← getItem k ls;
     match raw with
     | None => Normal None
     | Some t => if is_empty_text t then Normal None else JSON_parse t
     end)
    (fun _ => Normal None).

Definition setLKG (k : string) (payload : CacheRecord) (ls : LocalStorage) : Completion LocalStorage :=
  try_catch
    (setItem k (JSON_stringify payload) ls)
    (fun _ => Normal ls).

(** what [setLKG] leaves behind, whether or not the write went through *)
Definition after_setLKG (k : string) (rec : CacheRecord) (ls : LocalStorage) : LocalStorage :=
  if denied ls || full ls then ls
  else mkStorage (<[k := JSON_stringify rec]> (items ls)) (denied ls) (full ls).

(** ** The event loop state *)

Definition LKG_GRACE_MS : Z := 60 * 60 * 1000.

(** the suspension points of the two coroutines *)
Inductive Stage := AwaitFetch | AwaitJson.

(** A suspended coroutine with the variables its continuation reads.
    [Foreground]: the async arrow function inside [fetchWithCache], with
    [k], [now], [ttlSec] and [lkg] of the call that started it.
    [Background]: [swrRefresh], with [k] and [ttlSec]. *)
Inductive Task :=
| Foreground (st : Stage) (k : string) (now : Z) (ttl : Z) (lkg : option CacheRecord)
| Background (st : Stage) (k : string) (ttl : Z).

(** how a promise settled *)
Inductive Outcome :=
| Fulfilled (r : Result)
| Rejected (cause : Exn).

(** Promises are named by the number of the coroutine they belong to.
    [requests] logs every [fetch(url, ...)] issued, oldest first. *)
Record State := mkState {
  mem : gmap string CacheRecord;
  storage : LocalStorage;
  inflight : gmap string nat;
  tasks : gmap nat Task;
  settled : gmap nat Outcome;
  requests : list (nat * string);
  next : nat
}.

(** a page load: empty maps over whatever the browser kept *)
Definition init (ls : LocalStorage) : State := mkState ∅ ls ∅ ∅ ∅ [] 0.

Definition set_mem (k : string) (r : CacheRecord) (s : State) : State :=
  mkState (<[k := r]> (mem s)) (storage s) (inflight s) (tasks s) (settled s) (requests s) (next s).

Definition set_storage (ls : LocalStorage) (s : State) : State :=
  mkState (mem s) ls (inflight s) (tasks s) (settled s) (requests s) (next s).

Definition set_inflight (k : string) (p : nat) (s : State) : State :=
  mkState (mem s) (storage s) (<[k := p]> (inflight s)) (tasks s) (settled s) (requests s) (next s).

Definition delete_inflight (k : string) (s : State) : State :=
  mkState (mem s) (storage s) (delete k (inflight s)) (tasks s) (settled s) (requests s) (next s).

(** a coroutine calls [fetch(url, { cache: 'no-store' })] and suspends *)
Definition spawn (t : Task) (url : string) (s : State) : State :=
  mkState (mem s) (storage s) (inflight s) (<[next s := t]> (tasks s)) (settled s)
          (requests s ++ [(next s, url)]) (S (next s)).

(** a suspended coroutine moves to its next suspension point *)
Definition suspend (tid : nat) (t : Task) (s : State) : State :=
  mkState (mem s) (storage s) (inflight s) (<[tid := t]> (tasks s)) (settled s) (requests s) (next s).

(** a coroutine runs to its end *)
Definition finish (tid : nat) (s : State) : State :=
  mkState (mem s) (storage s) (inflight s) (delete tid (tasks s)) (settled s) (requests s) (next s).

Definition settle (tid : nat) (o : Outcome) (s : State) : State :=
  mkState (mem s) (storage s) (inflight s) (tasks s) (<[tid := o]> (settled s)) (requests s) (next s).

(** what the promise returned by a call of [fetchWithCache] is bound to *)
Inductive CallReturn :=
| Resolved (r : Result)     (* the function returned a value *)
| Awaits (p : nat)          (* the function returned the promise [p] *)
| Rejects (e : Exn).        (* the function threw before its first await *)

(** [(now - r.fetchedAt) < ttlSec*1000] *)
Definition is_fresh (now : Z) (r : CacheRecord) (ttl : Z) : bool :=
  (now - fetchedAt r <? ttl * 1000)%Z.

(** [c && (now - c.fetchedAt) < ttlSec*1000]: the copy, when there is one
    and it passes the test *)
Definition fresh_copy (c : option CacheRecord) (now ttl : Z) : option CacheRecord :=
  match c with
  | Some r => if is_fresh now r ttl then Some r else None
  | None => None
  end.

(** [lkg && (now - lkg.fetchedAt) < (ttlSec*1000 + LKG_GRACE_MS)] *)
Definition within_grace (c : option CacheRecord) (now ttl : Z) : option CacheRecord :=
  match c with
  | Some r => if (now - fetchedAt r <? ttl * 1000 + LKG_GRACE_MS)%Z then Some r else None
  | None => None
  end.

(** ** The orchestrator *)

Section Cache.
Context `{Collator}.

(** [swrRefresh(url, { ttlSec, version, key })] up to its first await: the
    key is [key || keyFrom(url, version)], the request is issued, the
    coroutine suspends.  Its promise is dropped by the caller. *)
Definition swrRefresh (url : string) (ttl : Z) (version : string) (key : option string)
    (s : State) : Completion State :=
  k ← match key with
      | Some k' => if nonempty k' then Normal k' else keyFrom url version
      | None => keyFrom url version
      end;
  Normal (spawn (Background AwaitFetch k ttl) url s).

(** [fetchWithCache(url, { ttlSec, retries, version })] up to the point
    where it returns its promise; [now] is what [Date.now()] reads. *)
Definition fetchWithCache (url : string) (o : Options) (now : Z) (s : State) : State * CallReturn :=
  let ttl := opt_ttlSec o in
  match keyFrom url (opt_version o) with
  | Throw e => (s, Rejects e)
  | Normal k =>
    match fresh_copy (mem s !! k) now ttl with
    | Some inMem => (s, Resolved (mkResult (data inMem) "mem" (fetchedAt inMem)))
    | None =>
      match getLKG k (storage s) with
      | Throw e => (s, Rejects e)
      | Normal lkg =>
        match fresh_copy lkg now ttl with
        | Some l =>
            match swrRefresh url ttl (opt_version o) (Some k) s with
            | Throw e => (s, Rejects e)
            | Normal s1 => (set_mem k l s1, Resolved (mkResult (data l) "lkg" (fetchedAt l)))
            end
        | None =>
            match inflight s !! k with
            | Some p => (s, Awaits p)
            | None =>
                let p := next s in
                (set_inflight k p (spawn (Foreground AwaitFetch k now ttl lkg) url s), Awaits p)
            end
        end
      end
    end
  end.

(** the [catch (err)] block of the foreground coroutine: what its promise
    settles to *)
Definition failure_outcome (lkg : option CacheRecord) (now ttl : Z) (err : Exn) : Outcome :=
  match within_grace lkg now ttl with
  | Some l => Fulfilled (mkResult (data l) "stale" (fetchedAt l))
  | None => Rejected err
  end.

(** the [catch (err)] and [finally] blocks of the foreground coroutine *)
Definition foreground_catch (tid : nat) (k : string) (now ttl : Z) (lkg : option CacheRecord)
    (err : Exn) (s : State) : State :=
  settle tid (failure_outcome lkg now ttl err) (delete_inflight k (finish tid s)).

(** the foreground coroutine after [await res.json()] produced [d] *)
Definition foreground_store (tid : nat) (k : string) (now ttl : Z) (lkg : option CacheRecord)
    (d : Json) (s : State) : State :=
  let rec := mkRecord d now ttl in
  let s1 := set_mem k rec s in
  match setLKG k rec (storage s1) with
  | Throw e => foreground_catch tid k now ttl lkg e s1
  | Normal ls =>
      settle tid (Fulfilled (mkResult d "net" now))
        (delete_inflight k (finish tid (set_storage ls s1)))
  end.

(** the background coroutine after [await res.json()] produced [d];
    [now] is what [Date.now()] reads at that moment *)
Definition background_store (tid : nat) (k : string) (ttl : Z) (d : Json) (now : Z)
    (s : State) : State :=
  let rec := mkRecord d now ttl in
  let s1 := set_mem k rec s in
  match setLKG k rec (storage s1) with
  | Throw _ => finish tid s1
  | Normal ls => finish tid (set_storage ls s1)
  end.

(** ** Events *)

(** how the promise of [fetch] settles: rejected, or a response with a status *)
Inductive FetchOutcome :=
| NetworkError (e : Exn)
| Response (status : Z).

(** [res.ok] *)
Definition ok (status : Z) : bool := ((200 <=? status) && (status <=? 299))%Z.

(** how the promise of [res.json()] settles *)
Inductive BodyOutcome :=
| Parsed (d : Json)
| BodyError (e : Exn).

Inductive Event :=
| Call (url : string) (o : Options) (now : Z)
| FetchSettled (tid : nat) (r : FetchOutcome)
| BodySettled (tid : nat) (r : BodyOutcome) (now : Z).

(** the continuation after [await fetch(...)] *)
Definition on_fetch_settled (tid : nat) (r : FetchOutcome) (s : State) : State :=
  match tasks s !! tid with
  | Some (Foreground AwaitFetch k now ttl lkg) =>
      match r with
      | NetworkError e => foreground_catch tid k now ttl lkg e s
      | Response status =>
          if ok status then suspend tid (Foreground AwaitJson k now ttl lkg) s
          else foreground_catch tid k now ttl lkg (HttpError status) s
      end
  | Some (Background AwaitFetch k ttl) =>
      match r with
      | NetworkError _ => finish tid s
      | Response status =>
          if ok status then suspend tid (Background AwaitJson k ttl) s
          else finish tid s
      end
  | _ => s
  end.

(** the continuation after [await res.json()] *)
Definition on_body_settled (tid : nat) (r : BodyOutcome) (clock : Z) (s : State) : State :=
  match tasks s !! tid with
  | Some (Foreground AwaitJson k now ttl lkg) =>
      match r with
      | Parsed d => foreground_store tid k now ttl lkg d s
      | BodyError e => foreground_catch tid k now ttl lkg e s
      end
  | Some (Background AwaitJson k ttl) =>
      match r with
      | Parsed d => background_store tid k ttl d clock s
      | BodyError _ => finish tid s
      end
  | _ => s
  end.

(** One turn of the event loop.  An event for a coroutine that is not
    waiting for it changes nothing. *)
Definition step (s : State) (ev : Event) : State * option CallReturn :=
  match ev with
  | Call url o now => let '(s', r) := fetchWithCache url o now s in (s', Some r)
  | FetchSettled tid r => (on_fetch_settled tid r s, None)
  | BodySettled tid r now => (on_body_settled tid r now s, None)
  end.

Definition run (s : State) (evs : list Event) : State :=
  fold_left (fun s ev => (step s ev).1) evs s.

Definition reachable (s : State) : Prop :=
  exists ls evs, s = run (init ls) evs.

(** what a caller holding the promise of a call has observed so far *)
Definition observed (s : State) (c : CallReturn) : option Outcome :=
  match c with
  | Resolved r => Some (Fulfilled r)
  | Awaits p => settled s !! p
  | Rejects e => Some (Rejected e)
  end.

(** The four ways a call can go, with the throwing paths of the model
    shown dead: the key and the durable read always complete normally. *)
Definition fetchWithCache_branches (k : string) (lkg : option CacheRecord)
    (url : string) (o : Options) (now : Z) (s : State) : State * CallReturn :=
  let ttl := opt_ttlSec o in
  match fresh_copy (mem s !! k) now ttl with
  | Some inMem => (s, Resolved (mkResult (data inMem) "mem" (fetchedAt inMem)))
  | None =>
    match fresh_copy lkg now ttl with
    | Some l => (set_mem k l (spawn (Background AwaitFetch k ttl) url s),
                 Resolved (mkResult (data l) "lkg" (fetchedAt l)))
    | None =>
      match inflight s !! k with
      | Some p => (s, Awaits p)
      | None => (set_inflight k (next s) (spawn (Foreground AwaitFetch k now ttl lkg) url s),
                 Awaits (next s))
      end
    end
  end.

(** several consumers call one after the other, nothing else in between *)
Fixpoint call_all (s : State) (calls : list (string * Options * Z)) : State * list CallReturn :=
  match calls with
  | [] => (s, [])
  | (url, o, now) :: rest =>
      let '(s1, r) := fetchWithCache url o now s in
      let '(s2, rs) := call_all s1 rest in
      (s2, r :: rs)
  end.

(** neither layer holds a copy for [k] that is fresh at [now] under [ttl] *)
Definition no_fresh_copy (k : string) (now ttl : Z) (s : State) : Prop :=
  fresh_copy (mem s !! k) now ttl = None
  /\ forall lkg, getLKG k (storage s) = Normal lkg -> fresh_copy lkg now ttl = None.

(** a call [(url, options, now)] for key [k] that finds no fresh copy in [s] *)
Definition stale_call (k : string) (s : State) (c : string * Options * Z) : Prop :=
  keyFrom c.1.1 (opt_version c.1.2) = Normal k
  /\ no_fresh_copy k c.2 (opt_ttlSec c.1.2) s.

(** a coroutine with its suspension point forgotten: the variables it holds *)
Definition forget_stage (t : Task) : Task :=
  match t with
  | Foreground _ k now ttl lkg => Foreground AwaitFetch k now ttl lkg
  | Background _ k ttl => Background AwaitFetch k ttl
  end.

(** The error with which event [ev] makes the network attempt of coroutine
    [p], suspended at [st], fail: a rejected [fetch], a response that is not
    [ok], a body that does not parse. *)
Definition failure_of (ev : Event) (st : Stage) (p : nat) : option Exn :=
  match ev, st with
  | FetchSettled tid (NetworkError e), AwaitFetch =>
      if decide (tid = p) then Some e else None
  | FetchSettled tid (Response status), AwaitFetch =>
      if decide (tid = p) then (if ok status then None else Some (HttpError status)) else None
  | BodySettled tid (BodyError e) _, AwaitJson =>
      if decide (tid = p) then Some e else None
  | _, _ => None
  end.

(** the document with which event [ev] completes the attempt of [p] *)
Definition success_of (ev : Event) (st : Stage) (p : nat) : option (Json * Z) :=
  match ev, st with
  | BodySettled tid (Parsed d) clock, AwaitJson =>
      if decide (tid = p) then Some (d, clock) else None
  | _, _ => None
  end.

(** the same event with the [retries] option of a call replaced *)
Definition with_retries (f : Z -> Z) (ev : Event) : Event :=
  match ev with
  | Call url o now => Call url (mkOptions (opt_ttlSec o) (f (opt_retries o)) (opt_version o)) now
  | _ => ev
  end.

(** the key a suspended coroutine works for *)
Definition task_key (t : Task) : string :=
  match t with
  | Foreground _ k _ _ _ => k
  | Background _ k _ => k
  end.

Definition is_foreground (t : Task) : bool :=
  match t with
  | Foreground _ _ _ _ _ => true
  | Background _ _ _ => false
  end.

(** the coroutines waiting on the network for key [k] *)
Definition in_flight_for (k : string) (s : State) : gmap nat Task :=
  filter (fun e => task_key e.2 = k) (tasks s).

Definition foreground_in_flight_for (k : string) (s : State) : gmap nat Task :=
  filter (fun e => is_foreground e.2 = true /\ task_key e.2 = k) (tasks s).

(** The in-flight map holds exactly the suspended foreground coroutines,
    each under its own key, and coroutine numbers are never reused. *)
Definition inflight_registers_foreground (s : State) : Prop :=
  forall k p, inflight s !! k = Some p <->
    exists st now ttl lkg, tasks s !! p = Some (Foreground st k now ttl lkg).

Definition ids_below_next (s : State) : Prop :=
  forall tid, is_Some (tasks s !! tid) -> tid < next s.

Definition inv (s : State) : Prop :=
  inflight_registers_foreground s /\ ids_below_next s.

(** a promise that has settled belongs to a coroutine that was started *)
Definition settled_below_next (s : State) : Prop :=
  forall p, is_Some (settled s !! p) -> p < next s.

End Cache.

(** ** Scenarios

    The inputs at which the properties below are exercised. *)

Definition page_url : string := "https://x/y".

(** [keyFrom page_url "1"] under the code-unit collation *)
Definition page_key : string := "https://x/y|v=1".

(** [{ ttlSec: 300, version: '1' }], [retries] at its default *)
Definition ttl300 : Options := mkOptions 300 1 "1".

Definition old_record : CacheRecord := mkRecord (JString "old") 0 300.

(** localStorage after a reload: the record of an earlier visit is there *)
Definition reloaded_page : LocalStorage :=
  mkStorage {[ page_key := JSON_text (Some old_record) ]} false false.

(** the same with the quota used up: every write throws *)
Definition reloaded_page_full : LocalStorage :=
  mkStorage {[ page_key := JSON_text (Some old_record) ]} false true.

(** localStorage on a first visit *)
Definition first_visit : LocalStorage := mkStorage ∅ false false.

(** [{ ttlSec: 0, version: '1' }] *)
Definition ttl0 : Options := mkOptions 0 1 "1".

(** ** Counting what a run does *)

Definition is_call (ev : Event) : bool :=
  match ev with
  | Call _ _ _ => true
  | _ => false
  end.

(** the URLs that consumers asked for in a run *)
Definition called_urls (evs : list Event) : list string :=
  omap (fun ev => match ev with Call url _ _ => Some url | _ => None end) evs.

(** what a page whose localStorage is out of reach never holds: a durable
    record captured by a coroutine, a result that did not come from the
    network *)
Definition memory_and_network_only (ls : LocalStorage) (s : State) : Prop :=
  storage s = ls
  /\ (forall p st k now ttl lkg,
        tasks s !! p = Some (Foreground st k now ttl lkg) -> lkg = None)
  /\ (forall p r, settled s !! p = Some (Fulfilled r) -> source r = "net").

(** ** Project names and the partner list

    [slugifyProjectName] and [augmentEcosystemWithTopYieldProjects].
    [String.prototype.toLowerCase] is the host's; it is an interface here,
    with the one fact the code relies on: text made of lower-case ASCII
    letters, digits and hyphens is left as it is. *)

Definition is_lower_alnum (c : ascii) : bool :=
  let n := nat_of_ascii c in
  ((97 <=? n) && (n <=? 122)) || is_digit c.

Definition is_hyphen (c : ascii) : bool := Ascii.eqb c "-".

Fixpoint all_chars (P : ascii -> bool) (s : string) : bool :=
  match s with
  | EmptyString => true
  | String c r => P c && all_chars P r
  end.

Definition slug_char (c : ascii) : bool := is_lower_alnum c || is_hyphen c.

Class CaseMapping := {
  toLowerCase : string -> string;
  toLowerCase_slug : forall s, all_chars slug_char s = true -> toLowerCase s = s
}.

(** [.replace(/[^a-z0-9]+/g, '-')]: every maximal run of characters outside
    [a-z0-9] becomes one hyphen; [in_run] tells that the run has begun *)
Fixpoint replace_runs (in_run : bool) (s : string) : string :=
  match s with
  | EmptyString => EmptyString
  | String c r =>
      if is_lower_alnum c then String c (replace_runs false r)
      else if in_run then replace_runs true r
      else String "-" (replace_runs true r)
  end.

(** [.replace(/(^-|-$)/g, '')]: a hyphen in first place goes, and a hyphen
    in last place goes *)
Definition strip_leading_hyphen (s : string) : string :=
  match s with
  | String c r => if is_hyphen c then r else s
  | EmptyString => EmptyString
  end.

Fixpoint strip_trailing_hyphen (s : string) : string :=
  match s with
  | EmptyString => EmptyString
  | String c EmptyString => if is_hyphen c then EmptyString else s
  | String c r => String c (strip_trailing_hyphen r)
  end.

(** the text does not end in a hyphen *)
Fixpoint ends_with_hyphen (s : string) : bool :=
  match s with
  | EmptyString => false
  | String c EmptyString => is_hyphen c
  | String c r => ends_with_hyphen r
  end.

(** no hyphen follows a hyphen; [after_hyphen] stands for the character
    before the text *)
Fixpoint hyphens_apart (after_hyphen : bool) (s : string) : bool :=
  match s with
  | EmptyString => true
  | String c r =>
      if is_hyphen c then negb after_hyphen && hyphens_apart true r
      else hyphens_apart false r
  end.

(** lower-case letters, digits and single hyphens between them *)
Definition clean_slug (s : string) : bool :=
  all_chars slug_char s && hyphens_apart true s && negb (ends_with_hyphen s).

(** a partner of [window.ecosystemPartners] *)
Record Partner := mkPartner {
  partner_name : string;
  partner_logo : string;
  partner_url : string;
  partner_categories : list string;
  partner_description : string
}.

Section ProjectNames.
Context `{CaseMapping}.

(** [name] is [None] for a missing name *)
Definition slugifyProjectName (name : option string) : string :=
  strip_trailing_hyphen
    (strip_leading_hyphen
       (replace_runs false (toLowerCase (default "" name)))).

(** the entry pushed for a project *)
Definition yield_partner (project : string) : Partner :=
  mkPartner project
    ("logos/" +:+ slugifyProjectName (Some project) +:+ ".svg")
    "https://defillama.com/yields/stablecoins"
    ["yield"]
    (project +:+ " appears among the top projects by stablecoin TVL (auto‑added).").

(** the loop over [topProjects]; [existing] is the set of lower-cased names *)
Fixpoint augment_loop (existing : list string) (ecosystemData : list Partner)
    (topProjects : list string) : list Partner :=
  match topProjects with
  | [] => ecosystemData
  | project :: rest =>
      let key := toLowerCase project in
      if negb (nonempty key) || bool_decide (key ∈ existing)
      then augment_loop existing ecosystemData rest
      else augment_loop (existing ++ [key]) (ecosystemData ++ [yield_partner project]) rest
  end.

Definition augmentEcosystemWithTopYieldProjects (ecosystemData : list Partner)
    (topProjects : list string) : list Partner :=
  augment_loop (map (fun p => toLowerCase (partner_name p)) ecosystemData)
    ecosystemData topProjects.

End ProjectNames.

(** the mapping of a host on ASCII text *)
Definition ascii_lower (c : ascii) : ascii :=
  let n := nat_of_ascii c in
  if (65 <=? n) && (n <=? 90) then ascii_of_nat (n + 32) else c.

Fixpoint string_map (f : ascii -> ascii) (s : string) : string :=
  match s with
  | EmptyString => EmptyString
  | String c r => String (f c) (string_map f r)
  end.

#[export] Instance ascii_case_mapping : CaseMapping.
Proof.
  refine {| toLowerCase := string_map ascii_lower |}.
  induction s as [|c s IH]; simpl; [reflexivity|].
  intros E. apply andb_true_iff in E as [Hc Hs]. rewrite (IH Hs). f_equal.
  revert Hc. destruct c as [[] [] [] [] [] [] [] []]; vm_compute; congruence.
Defined.

(** ** [debounce]

    The closure returned by [debounce(func, wait)] with the host's timers.
    A timer fires no earlier than its delay; a fired timer is off the host's
    list before its callback runs; [func] does not call the closure. *)

Section Debounce.
Context {A : Type}.

Record Debounced := mkDebounced {
  timeout : option nat;            (* the variable [timeout]; [None] is undefined *)
  timers : gmap nat (Z * A);       (* pending timers: deadline, arguments of [later] *)
  next_timer : nat;
  invocations : list (Z * A)       (* the calls [func(...args)] so far: clock, arguments *)
}.

Definition debounce : Debounced := mkDebounced None ∅ 0 [].

(** [clearTimeout(id)]: nothing for undefined or for a timer that is gone *)
Definition clearTimeout (id : option nat) (ts : gmap nat (Z * A)) : gmap nat (Z * A) :=
  match id with
  | Some i => delete i ts
  | None => ts
  end.

(** [executedFunction(...args)] at clock reading [now] *)
Definition executedFunction (wait now : Z) (args : A) (d : Debounced) : Debounced :=
  let ts := clearTimeout (timeout d) (timers d) in
  let id := next_timer d in
  mkDebounced (Some id) (<[id := ((now + Z.max 0 wait)%Z, args)]> ts) (S id) (invocations d).

(** the host fires timer [id] at clock reading [now]: [later] runs *)
Definition later (id : nat) (now : Z) (d : Debounced) : Debounced :=
  match timers d !! id with
  | Some (deadline, args) =>
      if (deadline <=? now)%Z then
        mkDebounced (timeout d) (clearTimeout (timeout d) (delete id (timers d)))
                    (next_timer d) (invocations d ++ [(now, args)])
      else d
  | None => d
  end.

Inductive DebounceEvent :=
| Invoke (now : Z) (args : A)
| Fire (id : nat) (now : Z).

Definition debounce_step (wait : Z) (d : Debounced) (ev : DebounceEvent) : Debounced :=
  match ev with
  | Invoke now args => executedFunction wait now args d
  | Fire id now => later id now d
  end.

Definition debounce_run (wait : Z) (evs : list DebounceEvent) : Debounced :=
  fold_left (debounce_step wait) evs debounce.

(** the calls of the closure in a history, oldest first *)
Definition invokes (evs : list DebounceEvent) : list (Z * A) :=
  omap (fun ev => match ev with Invoke now args => Some (now, args) | Fire _ _ => None end) evs.

End Debounce.

Arguments Debounced : clear implicits.
Arguments DebounceEvent : clear implicits.

(** ** The list of stablecoins, page by page

    [rebuildStablecoinList] from the line that takes the slice on; [rows] is
    the array it has built from the snapshot, a list row is the element it
    makes of a row. *)

Definition PAGE_SIZE : nat := 20.

(** [array.slice(start, end)] for indices that are natural numbers *)
Definition slice {R : Type} (start stop : nat) (l : list R) : list R :=
  take (stop - start) (drop start l).

Inductive ListItem (R : Type) :=
| RowOf (r : R)
| NoDataRow.
Arguments RowOf {R} r.
Arguments NoDataRow {R}.

Record LoadButton := mkLoadButton { disabled : bool; textContent : string }.

Record ListState (R : Type) := mkListState {
  listEl : list (ListItem R);
  listCursor : nat;
  loadBtn : LoadButton
}.
Arguments mkListState {R}.
Arguments listEl {R}.
Arguments listCursor {R}.
Arguments loadBtn {R}.

Definition rebuildStablecoinList {R : Type} (reset : bool) (rows : list R)
    (st : ListState R) : ListState R :=
  let el := if reset then [] else listEl st in
  let cursor := if reset then 0 else listCursor st in
  let filteredRows := rows in
  let sl := slice cursor (cursor + PAGE_SIZE) filteredRows in
  if length sl =? 0 then
    mkListState (el ++ [NoDataRow]) cursor (mkLoadButton true "No data")
  else
    let cursor' := cursor + length sl in
    mkListState (el ++ map RowOf sl) cursor'
      (if length filteredRows <=? cursor'
       then mkLoadButton true "All loaded"
       else mkLoadButton false "Load more").

(** a click on the button: a disabled button gives no click *)
Definition click_loadMore {R : Type} (rows : list R) (st : ListState R) : ListState R :=
  if disabled (loadBtn st) then st else rebuildStablecoinList false rows st.

(** ** Historical series

    The numbers of a parsed JSON document, never NaN: [nzero] is [0],
    [truthy] is false on [0] and [-0] only, [nminus a b] is the sign of
    [a - b].  Dates are whole seconds, times whole milliseconds. *)

Class JsonNumber (V : Type) := {
  nzero : V;
  truthy : V -> bool;
  nminus : V -> V -> comparison;
  nminus_antisym : forall a b, nminus b a = CompOpp (nminus a b);
  nminus_trans : forall a b c, nminus a b <> Gt -> nminus b c <> Gt -> nminus a c <> Gt
}.

(** a member of [tokens]; a missing member is [None], and so is a
    [peggedUSD] that is not a number *)
Record Circulating (V : Type) := mkCirculating { peggedUSD : option V }.
Arguments mkCirculating {V}.
Arguments peggedUSD {V}.

Record TokenPoint (V : Type) := mkTokenPoint {
  date : option Z;
  circulating : option (Circulating V)
}.
Arguments mkTokenPoint {V}.
Arguments date {V}.
Arguments circulating {V}.

(** [chainBalances]: the chains in key order, each with its [tokens];
    [None] where the chain has no object or no [tokens].  A point of a
    series is the pair of its [t] and [v]. *)
Definition ChainBalances (V : Type) : Type := list (string * option (list (option (TokenPoint V)))).

Record TimeIndex (V : Type) := mkTimeIndex {
  chains : list string;
  allDates : list Z;
  chainToUnified : list (string * list (Z * V))
}.
Arguments mkTimeIndex {V}.
Arguments chains {V}.
Arguments allDates {V}.
Arguments chainToUnified {V}.

Record TopChains := mkTopChains { top : list string; others : list string }.

(** [allDatesSet.add(x)]: a set keeps the order of first insertion *)
Definition Set_add (x : Z) (s : list Z) : list Z :=
  if bool_decide (x ∈ s) then s else s ++ [x].

Section Historical.
Context {V : Type} `{JsonNumber V}.

(** the filter and the map of a series: the point survives when it is
    there, its date is truthy, and its [circulating.peggedUSD] is a number *)
Definition valid_point (p : option (TokenPoint V)) : option (Z * V) :=
  p ← p;
  d ← date p;
  if (d =? 0)%Z then None
  else c ← circulating p; v ← peggedUSD c; Some ((d * 1000)%Z, v).

Definition by_time (a b : Z * V) : comparison := (a.1 ?= b.1)%Z.

Definition series_points (tokens : option (list (option (TokenPoint V)))) : list (Z * V) :=
  omap valid_point (default [] tokens).

Definition chain_series (tokens : option (list (option (TokenPoint V)))) : list (Z * V) :=
  array_sort by_time (series_points tokens).

(** the inner [while]: [src] is what lies at and behind [idx] *)
Fixpoint advance (src : list (Z * V)) (t : Z) (last : V) : list (Z * V) * V :=
  match src with
  | p :: rest => if (p.1 <=? t)%Z then advance rest t p.2 else (src, last)
  | [] => ([], last)
  end.

(** the loop over [allDates] *)
Fixpoint unify (dates : list Z) (src : list (Z * V)) (last : V) : list (Z * V) :=
  match dates with
  | [] => []
  | t :: dates' =>
      let r := advance src t last in
      (t, r.2) :: unify dates' r.1 r.2
  end.

Definition histBuildTimeIndex (chainBalances : ChainBalances V) : TimeIndex V :=
  let chainSeries := map (fun e => (e.1, chain_series e.2)) chainBalances in
  let allDatesSet :=
    fold_left (fun s e => fold_left (fun s p => Set_add p.1 s) e.2 s) chainSeries [] in
  let allDates := array_sort Z.compare allDatesSet in
  let chainToUnified := map (fun e => (e.1, unify allDates e.2 nzero)) chainSeries in
  mkTimeIndex (map fst chainToUnified) allDates chainToUnified.

(** [series[latestIdx]?.v || 0] *)
Definition or_zero (v : option V) : V :=
  match v with
  | Some x => if truthy x then x else nzero
  | None => nzero
  end.

Definition latest (allDates : list Z) (series : list (Z * V)) : V :=
  match length allDates with
  | 0 => nzero
  | S latestIdx => or_zero (snd <$> (series !! latestIdx))
  end.

Definition by_latest_desc (a b : string * V) : comparison := nminus b.2 a.2.

Definition histComputeTopChains (chainToUnified : list (string * list (Z * V)))
    (allDates : list Z) (topN : nat) : TopChains :=
  let entries :=
    array_sort by_latest_desc (map (fun e => (e.1, latest allDates e.2)) chainToUnified) in
  mkTopChains (map fst (slice 0 topN entries)) (map fst (drop topN entries)).

(** the last point of a series in time order that is not after [t] *)
Definition value_at (src : list (Z * V)) (t : Z) : V :=
  from_option snd nzero (last (filter (fun p => (p.1 <= t)%Z) src)).

End Historical.

#[export] Instance Z_json_number : JsonNumber Z.
Proof.
  refine {| nzero := 0%Z;
            truthy := fun x => negb (x =? 0)%Z;
            nminus := Z.compare |}.
  - intros a b. apply Z.compare_antisym.
  - intros a b c Hab Hbc.
    change (a <= b)%Z in Hab. change (b <= c)%Z in Hbc. change (a <= c)%Z. lia.
Defined.

(** the invariant of the debounced closure: every pending timer is the one
    [timeout] names, and timer ids are fresh *)
Definition debounce_inv {A : Type} (d : Debounced A) : Prop :=
  (forall id e, timers d !! id = Some e -> timeout d = Some id)
  /\ (forall id, is_Some (timers d !! id) -> id < next_timer d).

(** ** The stacked chart *)

Module Chart.

Record Dataset (V : Type) := mkDataset {
  label : string;
  data : list (Z * V);                  (* the points, [x] and [y] *)
  borderColor : option string;          (* [None] is undefined *)
  backgroundColor : string
}.
Arguments mkDataset {V}.
Arguments label {V}.
Arguments data {V}.
Arguments borderColor {V}.
Arguments backgroundColor {V}.

End Chart.

Definition base : list string :=
  ["#3ea6ff"; "#8b5cf6"; "#22c55e"; "#ef4444"; "#f59e0b"; "#14b8a6"; "#e879f9";
   "#60a5fa"; "#f97316"; "#a3e635"; "#f43f5e"; "#2dd4bf"; "#fb7185"; "#34d399"].

Definition histPrepareColors (n : nat) : list string :=
  map (fun i => nth (i mod length base) base "") (seq 0 n).

(** [o[k]] on an object given by its entries *)
Fixpoint object_get {B : Type} (k : string) (o : list (string * B)) : option B :=
  match o with
  | [] => None
  | e :: o' => if String.eqb e.1 k then Some e.2 else object_get k o'
  end.

(** [colors[colorIdx] + '33'] *)
Definition with_alpha (c : option string) : string :=
  match c with
  | Some c => c +:+ "33"
  | None => "undefined33"
  end.

Section StackedChart.
Context {V : Type} `{JsonNumber V} (nplus : V -> V -> V).

Definition histBuildDatasets (chainToUnified : list (string * list (Z * V)))
    (allDates : list Z) (topChains : TopChains) : list (Chart.Dataset V) :=
  let colors :=
    histPrepareColors (length (top topChains)
                       + (if length (others topChains) =? 0 then 0 else 1)) in
  let datasets :=
    imap (fun colorIdx chain =>
            let series := default [] (object_get chain chainToUnified) in
            Chart.mkDataset chain (map (fun p => (p.1, p.2)) series)
                      (colors !! colorIdx) (with_alpha (colors !! colorIdx)))
         (top topChains) in
  let colorIdx := length (top topChains) in
  if length (others topChains) =? 0 then datasets
  else
    let summed :=
      imap (fun i t =>
              (t, fold_left
                    (fun v chain =>
                       let s := object_get chain chainToUnified in
                       nplus v (or_zero (snd <$> (s ≫= (fun s => s !! i)))))
                    (others topChains) nzero))
           allDates in
    datasets ++ [Chart.mkDataset "Other" summed (colors !! colorIdx) (with_alpha (colors !! colorIdx))].

(** The datasets of the stacked chart when [histSelectAsset] is through,
    the asset's document having arrived and the chart being there:
    [chainBalances] is [data.chainBalances], [None] when the document has
    none.  Without a date the function clears the chart and returns. *)
Definition stackedDatasets (chainBalances : option (ChainBalances V))
    : list (Chart.Dataset V) :=
  let r := histBuildTimeIndex (default [] chainBalances) in
  if length (allDates r) =? 0 then []
  else
    let topChains := histComputeTopChains (chainToUnified r) (allDates r) 8 in
    histBuildDatasets (chainToUnified r) (allDates r) topChains.

End StackedChart.

(** ** Parameters that share a name

    [with_name n l]: the parameters of [l] whose name the collation takes
    for equal to [n], in their order in [l]. *)

Definition same_name `{Collator} (n : string) (e : string * string) : bool :=
  match localeCompare e.1 n with
  | Eq => true
  | _ => false
  end.

Definition with_name `{Collator} (n : string) (l : list (string * string))
    : list (string * string) :=
  List.filter (same_name n) l.

(** * Properties *)

(** ** Sanity checks of the platform model *)

Example keyFrom_sorts :
  keyFrom "https://x/y?b=2&a=1" "1" = Normal "https://x/y?a=1&b=2|v=1".
Proof. vm_compute. reflexivity. Qed.

Example keyFrom_malformed :
  keyFrom "not a url" "1" = Normal "not a url|v=1".
Proof. vm_compute. reflexivity. Qed.

Example keyFrom_decodes :
  keyFrom "https://x/y?b=%7e+c&a#top" "2" = Normal "https://x/y?a=&b=%7E+c#top|v=2".
Proof. vm_compute. reflexivity. Qed.


(** ** The platform model: a serialised URL parses back *)

Lemma append_cons x (a b : string) : String x a +:+ b = String x (a +:+ b).
Proof. reflexivity. Qed.

Lemma append_nil_l (b : string) : "" +:+ b = b.
Proof. reflexivity. Qed.

Ltac unfold_append := rewrite ?append_cons, ?append_nil_l.

Lemma append_nil_r (a : string) : a +:+ "" = a.
Proof. induction a as [|x a IH]; unfold_append; [reflexivity|]. now rewrite IH. Qed.

Lemma append_assoc (a b c : string) : (a +:+ b) +:+ c = a +:+ b +:+ c.
Proof. induction a as [|x a IH]; unfold_append; [reflexivity|]. now rewrite IH. Qed.

Lemma cut_cons_None c x r :
  cut c (String x r) = None -> Ascii.eqb x c = false /\ cut c r = None.
Proof.
  simpl. destruct (Ascii.eqb x c); [discriminate|].
  destruct (cut c r) as [[l t]|]; [discriminate|]. auto.
Qed.

Lemma cut_app_hit c a b : cut c a = None -> cut c (a +:+ String c b) = Some (a, b).
Proof.
  induction a as [|x a IH]; unfold_append.
  - intros _. simpl. now rewrite Ascii.eqb_refl.
  - intros E. apply cut_cons_None in E as [Hx Ha]. simpl. rewrite Hx, (IH Ha). reflexivity.
Qed.

Lemma cut_app_clean c a b : cut c a = None -> cut c b = None -> cut c (a +:+ b) = None.
Proof.
  induction a as [|x a IH]; unfold_append; [auto|].
  intros E Hb. apply cut_cons_None in E as [Hx Ha]. simpl. rewrite Hx, (IH Ha Hb). reflexivity.
Qed.

Lemma cut_Some c s : forall a b,
  cut c s = Some (a, b) -> s = a +:+ String c b /\ cut c a = None.
Proof.
  induction s as [|x r IH]; simpl; intros a b E; [discriminate|].
  destruct (Ascii.eqb x c) eqn:Hx.
  - apply Ascii.eqb_eq in Hx. injection E as <- <-. subst x. auto.
  - destruct (cut c r) as [[l t]|] eqn:Hr; [|discriminate].
    injection E as <- <-. destruct (IH l t eq_refl) as [-> Hl].
    split; [reflexivity|]. simpl. now rewrite Hx, Hl.
Qed.

Lemma cut_app_None_l c a t : cut c (a +:+ t) = None -> cut c a = None.
Proof.
  induction a as [|x a IH]; unfold_append; simpl; [reflexivity|].
  destruct (Ascii.eqb x c); [discriminate|].
  destruct (cut c (a +:+ t)) as [[l r]|] eqn:E; [discriminate|].
  intros _. now rewrite IH.
Qed.

Lemma scheme_tail_app a t : scheme_tail a = true -> scheme_tail (a +:+ t) = true.
Proof.
  induction a as [|x a IH]; unfold_append; simpl; [discriminate|].
  destruct (Ascii.eqb x ":"); [reflexivity|]. destruct (is_scheme_char x); [exact IH|discriminate].
Qed.

Lemma has_scheme_app a t : has_scheme a = true -> has_scheme (a +:+ t) = true.
Proof.
  destruct a as [|x a]; unfold_append; simpl; [discriminate|].
  intros E. apply andb_true_iff in E as [-> E]. simpl. now apply scheme_tail_app.
Qed.

Lemma scheme_tail_cut c s : forall a b,
  is_scheme_char c = false -> Ascii.eqb c ":" = false ->
  scheme_tail s = true -> cut c s = Some (a, b) -> scheme_tail a = true.
Proof.
  induction s as [|x r IH]; simpl; intros a b Hc Hcolon Hs E; [discriminate|].
  destruct (Ascii.eqb x c) eqn:Hx.
  - apply Ascii.eqb_eq in Hx. subst x. rewrite Hcolon, Hc in Hs. discriminate.
  - destruct (cut c r) as [[l t]|] eqn:Hr; [|discriminate].
    injection E as <- <-. simpl.
    destruct (Ascii.eqb x ":"); [reflexivity|].
    destruct (is_scheme_char x); [|discriminate]. eapply IH; eauto.
Qed.

Lemma has_scheme_cut c s a b :
  is_scheme_char c = false -> Ascii.eqb c ":" = false ->
  has_scheme s = true -> cut c s = Some (a, b) -> has_scheme a = true.
Proof.
  destruct s as [|x r]; simpl; intros Hc Hcolon Hs E; [discriminate|].
  apply andb_true_iff in Hs as [Hx Hr].
  destruct (Ascii.eqb x c) eqn:Hxc.
  - apply Ascii.eqb_eq in Hxc. subst x. unfold is_scheme_char in Hc. rewrite Hx in Hc.
    discriminate.
  - destruct (cut c r) as [[l t]|] eqn:Hcut; [|discriminate].
    injection E as <- <-. simpl. rewrite Hx. simpl. eapply scheme_tail_cut; eauto.
Qed.

(** what construction leaves in [prefix] *)
Lemma new_URL_prefix url u :
  new_URL url = Normal u ->
  has_scheme (prefix u) = true /\ cut "#" (prefix u) = None /\ cut "?" (prefix u) = None.
Proof.
  unfold new_URL. destruct (has_scheme url) eqn:Hs; [|discriminate].
  assert (exists rest frag,
            match cut "#" url with Some (a, b) => (a, Some b) | None => (url, None) end
            = (rest, frag)
            /\ has_scheme rest = true /\ cut "#" rest = None) as (rest & frag & -> & Hrs & Hrc).
  { destruct (cut "#" url) as [[a b]|] eqn:E.
    - exists a, (Some b). split; [reflexivity|]. split.
      + eapply (has_scheme_cut "#"); eauto.
      + now apply cut_Some in E.
    - exists url, None. auto. }
  destruct (cut "?" rest) as [[a b]|] eqn:E; intros [= <-]; simpl.
  - split; [eapply (has_scheme_cut "?"); eauto|].
    apply cut_Some in E as [-> Ha]. split; [|exact Ha].
    eapply cut_app_None_l; eassumption.
  - auto.
Qed.

Lemma new_URL_toString pre q f :
  has_scheme pre = true -> cut "#" pre = None -> cut "?" pre = None ->
  match q with Some q' => cut "#" q' = None | None => True end ->
  new_URL (URL_toString (mkURL pre q f)) = Normal (mkURL pre q f).
Proof.
  intros Hs Hh Hq Hclean. unfold new_URL, URL_toString. simpl.
  rewrite (has_scheme_app pre _ Hs).
  set (Q := match q with Some q' => "?" +:+ q' | None => "" end).
  assert (cut "#" (pre +:+ Q) = None) as HQ.
  { apply cut_app_clean; [exact Hh|]. subst Q. destruct q as [q'|]; [|reflexivity].
    change ("?" +:+ q') with (String "?" q'). simpl. now rewrite Hclean. }
  assert (match cut "?" (pre +:+ Q) with
          | Some (a, b) => (a, Some b)
          | None => (pre +:+ Q, None)
          end = (pre, q)) as Hcut.
  { subst Q. destruct q as [q'|].
    - change ("?" +:+ q') with (String "?" q'). now rewrite cut_app_hit.
    - rewrite append_nil_r, Hq. reflexivity. }
  destruct f as [f'|].
  - change ("#" +:+ f') with (String "#" f'). rewrite <- append_assoc.
    rewrite (cut_app_hit "#" _ f' HQ), Hcut. reflexivity.
  - rewrite append_nil_r, HQ, Hcut. reflexivity.
Qed.

Lemma percent_decode_byte a r :
  percent_decode (urlencode_byte a +:+ r) = String a (percent_decode r).
Proof. destruct a as [[] [] [] [] [] [] [] []]; reflexivity. Qed.

Lemma percent_decode_urlencode s : percent_decode (urlencode s) = s.
Proof.
  induction s as [|a s IH]; simpl; [reflexivity|].
  now rewrite percent_decode_byte, IH.
Qed.

(** the serialiser escapes every delimiter of a URL and of a query *)
Lemma cut_urlencode_byte c a :
  In c ["="; "&"; "#"; "?"]%char -> cut c (urlencode_byte a) = None.
Proof.
  intros [<-|[<-|[<-|[<-|[]]]]]; destruct a as [[] [] [] [] [] [] [] []]; reflexivity.
Qed.

Lemma cut_urlencode c s : In c ["="; "&"; "#"; "?"]%char -> cut c (urlencode s) = None.
Proof.
  intros Hc. induction s as [|a s IH]; simpl; [reflexivity|].
  apply cut_app_clean; [now apply cut_urlencode_byte|exact IH].
Qed.

Lemma parse_serialize_pair e : parse_pair (serialize_pair e) = e.
Proof.
  destruct e as [n v]. unfold parse_pair, serialize_pair. simpl.
  change ("=" +:+ urlencode v) with (String "=" (urlencode v)).
  rewrite cut_app_hit by (apply cut_urlencode; simpl; auto).
  now rewrite !percent_decode_urlencode.
Qed.

Lemma cut_serialize_pair c e : In c ["&"; "#"; "?"]%char -> cut c (serialize_pair e) = None.
Proof.
  intros Hc. unfold serialize_pair.
  apply cut_app_clean; [apply cut_urlencode; simpl in *; intuition|].
  change ("=" +:+ urlencode e.2) with (String "=" (urlencode e.2)).
  assert (cut c (urlencode e.2) = None) as Hv by (apply cut_urlencode; simpl in *; intuition).
  destruct Hc as [<-|[<-|[<-|[]]]]; simpl; rewrite Hv; reflexivity.
Qed.

Lemma nonempty_serialize_pair e : nonempty (serialize_pair e) = true.
Proof. unfold serialize_pair. destruct (urlencode e.1); reflexivity. Qed.

Lemma split_amp_clean x : cut "&" x = None -> split_amp x = [x].
Proof.
  induction x as [|c x IH]; simpl; [reflexivity|].
  intros E. apply cut_cons_None in E as [Hc Hx]. rewrite Hc, (IH Hx). reflexivity.
Qed.

Lemma split_amp_app x y : cut "&" x = None -> split_amp (x +:+ String "&" y) = x :: split_amp y.
Proof.
  induction x as [|c x IH]; unfold_append; simpl; [reflexivity|].
  intros E. apply cut_cons_None in E as [Hc Hx]. rewrite Hc, (IH Hx). reflexivity.
Qed.

Lemma join_amp_cons p ps :
  ps <> [] -> join_amp (p :: ps) = p +:+ String "&" (join_amp ps).
Proof. destruct ps; [congruence|reflexivity]. Qed.

Lemma split_join_amp xs :
  xs <> [] -> Forall (fun x => cut "&" x = None) xs -> split_amp (join_amp xs) = xs.
Proof.
  induction xs as [|x xs IH]; [congruence|]. intros _ Hall.
  apply Forall_cons in Hall as [Hx Hall]. destruct xs as [|y xs].
  - simpl. now apply split_amp_clean.
  - rewrite join_amp_cons by discriminate. rewrite split_amp_app by exact Hx.
    now rewrite IH.
Qed.

Lemma cut_join_amp c xs :
  Ascii.eqb "&" c = false -> Forall (fun x => cut c x = None) xs -> cut c (join_amp xs) = None.
Proof.
  intros Hc. induction xs as [|x xs IH]; [reflexivity|]. intros Hall.
  apply Forall_cons in Hall as [Hx Hall]. destruct xs as [|y xs]; [exact Hx|].
  rewrite join_amp_cons by discriminate. apply cut_app_clean; [exact Hx|].
  change (cut c (String "&" (join_amp (y :: xs))))
    with (if Ascii.eqb "&" c then Some ("", join_amp (y :: xs))
          else match cut c (join_amp (y :: xs)) with
               | Some (l, t) => Some (String "&" l, t)
               | None => None
               end).
  rewrite Hc. now rewrite IH.
Qed.

Lemma nonempty_join_amp xs :
  xs <> [] -> Forall (fun x => nonempty x = true) xs -> nonempty (join_amp xs) = true.
Proof.
  destruct xs as [|x xs]; [congruence|]. intros _ Hall.
  apply Forall_cons in Hall as [Hx _]. destruct xs as [|y xs]; [exact Hx|].
  rewrite join_amp_cons by discriminate. destruct x; [discriminate|reflexivity].
Qed.

Lemma strip_question_clean s : cut "?" s = None -> strip_question s = s.
Proof.
  destruct s as [|c s]; [reflexivity|]. intros E. apply cut_cons_None in E as [Hc _].
  unfold strip_question. destruct (Ascii.eqb_spec c "?") as [->|Hne]; [discriminate|].
  destruct c as [[] [] [] [] [] [] [] []]; try reflexivity. congruence.
Qed.

Lemma filter_all {A} (P : A -> Prop) `{forall x, Decision (P x)} (l : list A) :
  Forall P l -> filter P l = l.
Proof.
  induction 1 as [|x l Hx _ IH]; [reflexivity|]. rewrite filter_cons_True by exact Hx.
  now rewrite IH.
Qed.

Lemma URLSearchParams_toString_clean c l :
  In c ["#"; "?"]%char -> cut c (URLSearchParams_toString l) = None.
Proof.
  intros Hc. unfold URLSearchParams_toString. apply cut_join_amp.
  - destruct Hc as [<-|[<-|[]]]; reflexivity.
  - apply Forall_map, Forall_forall. intros e _. apply cut_serialize_pair.
    simpl in *. intuition.
Qed.

(** parsing what the serialiser wrote gives the entries back *)
Lemma entries_of_serialised u l :
  URLSearchParams_entries (search (set_search u (URLSearchParams_toString l))) = l.
Proof.
  destruct l as [|e l]; [reflexivity|].
  assert (nonempty (URLSearchParams_toString (e :: l)) = true) as Hne.
  { unfold URLSearchParams_toString. apply nonempty_join_amp; [discriminate|].
    apply Forall_map, Forall_forall. intros x _. apply nonempty_serialize_pair. }
  assert (cut "?" (URLSearchParams_toString (e :: l)) = None) as Hq
    by (apply URLSearchParams_toString_clean; simpl; auto).
  unfold set_search, search.
  destruct (URLSearchParams_toString (e :: l)) as [|c s'] eqn:Es; [discriminate|].
  rewrite (strip_question_clean _ Hq). cbv beta iota delta [query].
  unfold URLSearchParams_entries.
  change (strip_question ("?" +:+ String c s')) with (String c s').
  rewrite <- Es. unfold URLSearchParams_toString.
  rewrite split_join_amp.
  - rewrite filter_all.
    + rewrite map_map. rewrite <- (map_id (e :: l)) at 2.
      apply map_ext. intros x. apply parse_serialize_pair.
    + apply Forall_map, Forall_forall. intros x _. apply nonempty_serialize_pair.
  - discriminate.
  - apply Forall_map, Forall_forall. intros x _. apply cut_serialize_pair. simpl. auto.
Qed.

(** ** Key normalisation *)

Section KeyFromProperties.
Context `{Collator}.

Lemma by_name_antisym a b : by_name b a = CompOpp (by_name a b).
Proof. apply localeCompare_antisym. Qed.

Lemma by_name_le_trans a b c : by_name a b <> Gt -> by_name b c <> Gt -> by_name a c <> Gt.
Proof. apply localeCompare_trans. Qed.

Lemma by_name_trans a b c : by_name a b = Lt -> by_name b c = Lt -> by_name a c = Lt.
Proof.
  intros Hab Hbc. destruct (by_name a c) eqn:Hac; [|reflexivity|].
  - exfalso. apply (by_name_le_trans c a b).
    + rewrite by_name_antisym, Hac. discriminate.
    + rewrite Hab. discriminate.
    + rewrite by_name_antisym, Hbc. reflexivity.
  - exfalso. apply (by_name_le_trans a b c); [rewrite Hab|rewrite Hbc|]; congruence.
Qed.

Lemma by_name_Gt_Lt a b : by_name a b = Gt -> by_name b a = Lt.
Proof. intros E. rewrite by_name_antisym, E. reflexivity. Qed.

Lemma by_name_Lt_Gt a b : by_name a b = Lt -> by_name b a = Gt.
Proof. intros E. rewrite by_name_antisym, E. reflexivity. Qed.

Lemma by_name_neq_sym a b : by_name a b <> Eq -> by_name b a <> Eq.
Proof.
  intros N E. apply N. rewrite by_name_antisym, E. reflexivity.
Qed.

(** Two insertions commute when the inserted elements are strictly ordered. *)
Lemma insert_sorted_swap x y l :
  by_name x y = Lt ->
  insert_sorted by_name x (insert_sorted by_name y l)
  = insert_sorted by_name y (insert_sorted by_name x l).
Proof.
  intros Hxy. pose proof (by_name_Lt_Gt _ _ Hxy) as Hyx.
  induction l as [|z l IH]; simpl.
  - rewrite Hxy, Hyx. reflexivity.
  - destruct (by_name y z) eqn:Eyz; destruct (by_name x z) eqn:Exz; simpl;
      rewrite ?Hxy, ?Hyx, ?Eyz, ?Exz; try reflexivity.
    + (* y ~ z, z < x: then z < x < y, so z < y *)
      exfalso. pose proof (by_name_trans _ _ _ (by_name_Gt_Lt _ _ Exz) Hxy) as Hzy.
      rewrite by_name_antisym, Hzy in Eyz. discriminate.
    + exfalso. pose proof (by_name_trans _ _ _ (by_name_Gt_Lt _ _ Exz) Hxy) as Hzy.
      rewrite by_name_antisym, Hzy in Eyz. discriminate.
    + f_equal. exact IH.
Qed.

Lemma insert_sorted_swap_neq x y l :
  by_name x y <> Eq ->
  insert_sorted by_name x (insert_sorted by_name y l)
  = insert_sorted by_name y (insert_sorted by_name x l).
Proof.
  intros N. destruct (by_name x y) eqn:E.
  - congruence.
  - now apply insert_sorted_swap.
  - symmetry. apply insert_sorted_swap. now apply by_name_Gt_Lt.
Qed.

Lemma distinct_names_perm l1 l2 :
  l1 ≡ₚ l2 -> distinct_names l1 -> distinct_names l2.
Proof.
  induction 1 as [|x l1 l2 HP IH|x y l|l1 l2 l3 _ IH1 _ IH2]; simpl; auto.
  - intros [HF HD]. split; [|auto]. now rewrite <- HP.
  - intros [HFy [HFx HD]].
    apply Forall_cons in HFy as [Hyx HFy].
    split; [|split; assumption].
    apply Forall_cons. split; [now apply by_name_neq_sym | assumption].
Qed.

(** Sorting forgets the order of the input when names are distinct. *)
Lemma array_sort_perm l1 l2 :
  l1 ≡ₚ l2 -> distinct_names l1 -> array_sort by_name l1 = array_sort by_name l2.
Proof.
  induction 1 as [|x l1 l2 HP IH|x y l|l1 l2 l3 HP1 IH1 HP2 IH2]; simpl.
  - reflexivity.
  - intros [_ HD]. now rewrite IH.
  - intros [HFy _]. apply Forall_cons in HFy as [Hyx _].
    now apply insert_sorted_swap_neq.
  - intros HD. rewrite IH1 by assumption. apply IH2.
    eapply distinct_names_perm; eassumption.
Qed.

Lemma keyFrom_parsed url v u :
  new_URL url = Normal u ->
  keyFrom url v
  = Normal (URL_toString
              (set_search u (URLSearchParams_toString
                               (array_sort by_name (URLSearchParams_entries (search u)))))
            +:+ "|v=" +:+ v).
Proof. unfold keyFrom. intros ->. reflexivity. Qed.

Lemma keyFrom_fallback url v e :
  new_URL url = Throw e -> keyFrom url v = Normal (url +:+ "|v=" +:+ v).
Proof. unfold keyFrom. intros ->. reflexivity. Qed.

(** [keyFrom] completes normally on every input; the key is a text that
    does not depend on the version, followed by the version tag. *)
Lemma keyFrom_total url :
  exists body, forall v, keyFrom url v = Normal (body +:+ "|v=" +:+ v).
Proof.
  destruct (new_URL url) as [u|e] eqn:E.
  - exists (URL_toString
              (set_search u (URLSearchParams_toString
                               (array_sort by_name (URLSearchParams_entries (search u)))))).
    intros v. apply keyFrom_parsed. exact E.
  - exists url. intros v. apply (keyFrom_fallback url v e). exact E.
Qed.

(** *** Normalising twice *)

Lemma Forall_insert_sorted (P : string * string -> Prop) x l :
  P x -> Forall P l -> Forall P (insert_sorted by_name x l).
Proof.
  intros Hx. induction 1 as [|y l Hy Hl IH]; simpl.
  - auto.
  - destruct (by_name x y); auto.
Qed.

Lemma insert_sorted_sorted x l :
  StronglySorted (fun a b => by_name a b <> Gt) l ->
  StronglySorted (fun a b => by_name a b <> Gt) (insert_sorted by_name x l).
Proof.
  induction 1 as [|y l Hl IH Hy]; simpl.
  - repeat constructor.
  - assert (by_name x y <> Gt ->
            StronglySorted (fun a b => by_name a b <> Gt) (x :: y :: l)) as Hfront.
    { intros Hxy. constructor; [now constructor|]. constructor; [exact Hxy|].
      eapply Forall_impl; [exact Hy|]. intros w Hw. now apply (by_name_le_trans x y w). }
    destruct (by_name x y) eqn:E.
    + apply Hfront. discriminate.
    + apply Hfront. discriminate.
    + constructor; [exact IH|]. apply Forall_insert_sorted; [|exact Hy].
      rewrite by_name_antisym, E. discriminate.
Qed.

Lemma array_sort_sorted l :
  StronglySorted (fun a b => by_name a b <> Gt) (array_sort by_name l).
Proof.
  induction l as [|x l IH]; simpl; [constructor|]. now apply insert_sorted_sorted.
Qed.

Lemma array_sort_of_sorted l :
  StronglySorted (fun a b => by_name a b <> Gt) l -> array_sort by_name l = l.
Proof.
  induction 1 as [|x l Hl IH Hx]; simpl; [reflexivity|]. rewrite IH.
  destruct Hx as [|y l Hxy _]; simpl; [reflexivity|].
  destruct (by_name x y); [reflexivity|reflexivity|congruence].
Qed.

Lemma array_sort_idempotent l :
  array_sort by_name (array_sort by_name l) = array_sort by_name l.
Proof. apply array_sort_of_sorted, array_sort_sorted. Qed.

Lemma set_search_set_search u s1 s2 : set_search (set_search u s1) s2 = set_search u s2.
Proof. unfold set_search. destruct s1, s2; reflexivity. Qed.

(** The URL part of a key is a fixed point of the normalisation. *)
Lemma keyFrom_renormalise url :
  exists body,
    (forall v, keyFrom url v = Normal (body +:+ "|v=" +:+ v))
    /\ (forall v, keyFrom body v = Normal (body +:+ "|v=" +:+ v)).
Proof.
  destruct (new_URL url) as [u|e] eqn:E.
  - set (sorted := array_sort by_name (URLSearchParams_entries (search u))).
    set (u' := set_search u (URLSearchParams_toString sorted)).
    exists (URL_toString u'). split; [intros v; now apply keyFrom_parsed|].
    assert (new_URL (URL_toString u') = Normal u') as E'.
    { destruct (new_URL_prefix url u E) as (Hs & Hh & Hq).
      assert (u' = mkURL (prefix u) (query u') (fragment u)) as ->.
      { subst u'. unfold set_search. destruct (URLSearchParams_toString sorted); reflexivity. }
      apply new_URL_toString; try assumption.
      subst u'. unfold set_search.
      pose proof (URLSearchParams_toString_clean "#" sorted) as Hc.
      pose proof (URLSearchParams_toString_clean "?" sorted) as Hc'.
      destruct (URLSearchParams_toString sorted) eqn:Es; cbv beta iota delta [query]; [exact I|].
      rewrite strip_question_clean by (apply Hc'; simpl; auto).
      apply Hc. simpl. auto. }
    intros v. rewrite (keyFrom_parsed _ v u' E').
    subst u'. rewrite entries_of_serialised. subst sorted.
    rewrite array_sort_idempotent, set_search_set_search. reflexivity.
  - exists url. split; intros v; apply (keyFrom_fallback url v e E).
Qed.

Lemma string_app_inj_r (p a b : string) : p +:+ a = p +:+ b -> a = b.
Proof. induction p as [|c p IH]; simpl; intros E; [assumption|]. injection E. auto. Qed.

End KeyFromProperties.

(** C6, as stated, fails.  Two URLs that differ only in the order of their
    query parameters get different keys when a parameter name is repeated:
    the comparison looks at names only and the sort is stable, so the two
    values of [a] stay in the order they were written.  And a URL without a
    scheme is not normalised at all: [new URL] throws and the key is the
    text as written. *)
Lemma keyFrom_repeated_name_keeps_order :
  new_URL "https://x/y?a=1&a=2" = Normal (mkURL "https://x/y" (Some "a=1&a=2") None)
  /\ new_URL "https://x/y?a=2&a=1" = Normal (mkURL "https://x/y" (Some "a=2&a=1") None)
  /\ URLSearchParams_entries "?a=1&a=2" ≡ₚ URLSearchParams_entries "?a=2&a=1"
  /\ keyFrom "https://x/y?a=1&a=2" "1" = Normal "https://x/y?a=1&a=2|v=1"
  /\ keyFrom "https://x/y?a=2&a=1" "1" = Normal "https://x/y?a=2&a=1|v=1"
  /\ keyFrom "https://x/y?a=1&a=2" "1" <> keyFrom "https://x/y?a=2&a=1" "1"
  /\ keyFrom "/y?a=1&b=2" "1" = Normal "/y?a=1&b=2|v=1"
  /\ keyFrom "/y?b=2&a=1" "1" = Normal "/y?b=2&a=1|v=1"
  /\ keyFrom "/y?a=1&b=2" "1" <> keyFrom "/y?b=2&a=1" "1".
Proof.
  split; [vm_compute; reflexivity|].
  split; [vm_compute; reflexivity|].
  split; [vm_compute; apply perm_swap|].
  split; [vm_compute; reflexivity|].
  split; [vm_compute; reflexivity|].
  split; [vm_compute; discriminate|].
  split; [vm_compute; reflexivity|].
  split; [vm_compute; reflexivity|].
  vm_compute. discriminate.
Qed.

(** C6, amended.  Key normalisation is idempotent: the URL part of a key,
    normalised again, gives the same key.  It is order-independent for
    parameters with distinct names: two URLs that parse, agree outside the
    query and whose query parameters are permutations of each other get the
    same key, provided no two parameters have names that [localeCompare]
    takes for equal.  For a fixed URL, two different versions give two
    different keys. *)
Theorem keyFrom_order_independent `{Collator} :
  (forall url, exists body,
     (forall v, keyFrom url v = Normal (body +:+ "|v=" +:+ v))
     /\ (forall v, keyFrom body v = Normal (body +:+ "|v=" +:+ v)))
  /\ (forall url1 url2 u1 u2 v,
        new_URL url1 = Normal u1 ->
        new_URL url2 = Normal u2 ->
        prefix u1 = prefix u2 ->
        fragment u1 = fragment u2 ->
        URLSearchParams_entries (search u1) ≡ₚ URLSearchParams_entries (search u2) ->
        distinct_names (URLSearchParams_entries (search u1)) ->
        keyFrom url1 v = keyFrom url2 v)
  /\ (forall url v1 v2, v1 <> v2 -> keyFrom url v1 <> keyFrom url v2).
Proof.
  split; [|split].
  - apply keyFrom_renormalise.
  - intros url1 url2 u1 u2 v P1 P2 Hp Hf HP HD.
    rewrite (keyFrom_parsed url1 v u1 P1), (keyFrom_parsed url2 v u2 P2).
    rewrite (array_sort_perm _ _ HP HD).
    unfold set_search. rewrite Hp, Hf. reflexivity.
  - intros url v1 v2 Hv E.
    destruct (keyFrom_total url) as [body Hb].
    rewrite !Hb in E. injection E as E.
    apply string_app_inj_r in E. apply (string_app_inj_r "|v=") in E. contradiction.
Qed.

Lemma keyFrom_order_independent_witness :
  keyFrom "https://x/y?a=1&b=2" "1" = keyFrom "https://x/y?b=2&a=1" "1"
  /\ keyFrom "https://x/y?a=1&b=2" "1" <> keyFrom "https://x/y?a=1&b=2" "2".
Proof.
  destruct (@keyFrom_order_independent codeunit_collator) as (_ & Horder & Hversion).
  split.
  - apply (Horder "https://x/y?a=1&b=2" "https://x/y?b=2&a=1"
                  (mkURL "https://x/y" (Some "a=1&b=2") None)
                  (mkURL "https://x/y" (Some "b=2&a=1") None) "1").
    + reflexivity.
    + reflexivity.
    + reflexivity.
    + reflexivity.
    + vm_compute. apply perm_swap.
    + vm_compute. repeat constructor. discriminate.
  - apply Hversion. discriminate.
Defined.

(** ** The durable store adapter *)

Lemma getLKG_total k ls : exists r, getLKG k ls = Normal r.
Proof.
  unfold getLKG, getItem. destruct (denied ls); simpl; [eauto|].
  destruct (items ls !! k) as [t|]; simpl; [|eauto].
  destruct (is_empty_text t); simpl; [eauto|].
  destruct t; simpl; eauto.
Qed.

Lemma setLKG_total k rec ls : exists ls', setLKG k rec ls = Normal ls'.
Proof.
  unfold setLKG, setItem. destruct (denied ls); simpl; [eauto|].
  destruct (full ls); simpl; eauto.
Qed.

Lemma setLKG_failed k rec ls e :
  setItem k (JSON_stringify rec) ls = Throw e -> setLKG k rec ls = Normal ls.
Proof. unfold setLKG. intros ->. reflexivity. Qed.

Lemma setLKG_written k rec ls ls' :
  setItem k (JSON_stringify rec) ls = Normal ls' -> setLKG k rec ls = Normal ls'.
Proof. unfold setLKG. intros ->. reflexivity. Qed.

Lemma setLKG_eq k rec ls : setLKG k rec ls = Normal (after_setLKG k rec ls).
Proof.
  unfold setLKG, setItem, after_setLKG.
  destruct (denied ls); simpl; [reflexivity|]. destruct (full ls); reflexivity.
Qed.

(** ** The invariant of the event loop *)

Section Invariant.
Context `{Collator}.

Lemma inv_frame s s' :
  inflight s' = inflight s -> tasks s' = tasks s -> next s' = next s ->
  inv s -> inv s'.
Proof.
  unfold inv, inflight_registers_foreground, ids_below_next.
  intros -> -> ->. auto.
Qed.

Lemma inv_init ls : inv (init ls).
Proof.
  split.
  - intros k p. simpl. rewrite lookup_empty. split; [discriminate|].
    intros (st & now & ttl & lkg & E). rewrite lookup_empty in E. discriminate.
  - intros tid [t E]. simpl in E. rewrite lookup_empty in E. discriminate.
Qed.

Lemma inv_inflight_bound s k p : inv s -> inflight s !! k = Some p -> p < next s.
Proof.
  intros [HR HB] E. apply HB. apply HR in E as (st & now & ttl & lkg & E). eauto.
Qed.

Lemma inv_spawn_background s st k ttl url :
  inv s -> inv (spawn (Background st k ttl) url s).
Proof.
  intros Hinv. pose proof Hinv as [HR HB]. split.
  - intros k' p. simpl. split.
    + intros E. pose proof (inv_inflight_bound _ _ _ Hinv E) as Hlt.
      apply HR in E as (st' & now & ttl' & lkg & E).
      exists st', now, ttl', lkg. rewrite lookup_insert_ne by lia. exact E.
    + intros (st' & now & ttl' & lkg & E).
      destruct (decide (next s = p)) as [<-|Hne].
      * rewrite lookup_insert_eq in E. discriminate.
      * rewrite lookup_insert_ne in E by exact Hne. apply HR. eauto.
  - intros tid [t E]. simpl in *.
    destruct (decide (next s = tid)) as [<-|Hne]; [lia|].
    rewrite lookup_insert_ne in E by exact Hne.
    assert (tid < next s) by (apply HB; eauto). lia.
Qed.

Lemma inv_spawn_foreground s st k now ttl lkg url :
  inv s -> inflight s !! k = None ->
  inv (set_inflight k (next s) (spawn (Foreground st k now ttl lkg) url s)).
Proof.
  intros Hinv Hfree. pose proof Hinv as [HR HB]. split.
  - intros k' p. simpl. destruct (decide (k = k')) as [<-|Hk].
    + rewrite lookup_insert_eq. split.
      * intros [= <-]. rewrite lookup_insert_eq. eauto.
      * intros (st' & now' & ttl' & lkg' & E).
        destruct (decide (next s = p)) as [<-|Hne]; [reflexivity|].
        rewrite lookup_insert_ne in E by exact Hne.
        assert (inflight s !! k = Some p) as E' by (apply HR; eauto).
        congruence.
    + rewrite lookup_insert_ne by exact Hk. split.
      * intros E. pose proof (inv_inflight_bound _ _ _ Hinv E) as Hlt.
        apply HR in E as (st' & now' & ttl' & lkg' & E).
        exists st', now', ttl', lkg'. rewrite lookup_insert_ne by lia. exact E.
      * intros (st' & now' & ttl' & lkg' & E).
        destruct (decide (next s = p)) as [<-|Hne].
        -- rewrite lookup_insert_eq in E. congruence.
        -- rewrite lookup_insert_ne in E by exact Hne. apply HR. eauto.
  - intros tid [t E]. simpl in *.
    destruct (decide (next s = tid)) as [<-|Hne]; [lia|].
    rewrite lookup_insert_ne in E by exact Hne.
    assert (tid < next s) by (apply HB; eauto). lia.
Qed.

Lemma inv_finish_foreground s tid st k now ttl lkg :
  inv s -> tasks s !! tid = Some (Foreground st k now ttl lkg) ->
  inv (delete_inflight k (finish tid s)).
Proof.
  intros [HR HB] Ht.
  assert (inflight s !! k = Some tid) as Hk by (apply HR; eauto).
  split.
  - intros k' p. simpl. split.
    + intros E. apply lookup_delete_Some in E as [Hne E].
      apply HR in E as (st' & now' & ttl' & lkg' & E).
      exists st', now', ttl', lkg'. rewrite lookup_delete_ne; [exact E|].
      intros ->. congruence.
    + intros (st' & now' & ttl' & lkg' & E).
      apply lookup_delete_Some in E as [Hne E].
      assert (inflight s !! k' = Some p) as E' by (apply HR; eauto).
      apply lookup_delete_Some. split; [|exact E'].
      intros ->. congruence.
  - intros tid' [t E]. simpl in *. apply lookup_delete_Some in E as [_ E].
    apply HB. eauto.
Qed.

Lemma inv_suspend_foreground s tid st st' k now ttl lkg :
  inv s -> tasks s !! tid = Some (Foreground st k now ttl lkg) ->
  inv (suspend tid (Foreground st' k now ttl lkg) s).
Proof.
  intros [HR HB] Ht. split.
  - intros k' p. simpl. split.
    + intros E. destruct (decide (tid = p)) as [<-|Hne].
      * apply HR in E as (? & ? & ? & ? & E). rewrite Ht in E. injection E as <- <- <- <- <-.
        rewrite lookup_insert_eq. eauto.
      * rewrite lookup_insert_ne by exact Hne. apply HR. exact E.
    + intros (? & ? & ? & ? & E). destruct (decide (tid = p)) as [<-|Hne].
      * rewrite lookup_insert_eq in E. injection E as <- <- <- <- <-. apply HR. eauto.
      * rewrite lookup_insert_ne in E by exact Hne. apply HR. eauto.
  - intros tid' [t E]. simpl in *. destruct (decide (tid = tid')) as [<-|Hne].
    + apply HB. eauto.
    + rewrite lookup_insert_ne in E by exact Hne. apply HB. eauto.
Qed.

Lemma inv_finish_background s tid st k ttl :
  inv s -> tasks s !! tid = Some (Background st k ttl) -> inv (finish tid s).
Proof.
  intros [HR HB] Ht. split.
  - intros k' p. simpl. split.
    + intros E. apply HR in E as (st' & now' & ttl' & lkg' & E).
      exists st', now', ttl', lkg'. rewrite lookup_delete_ne; [exact E|].
      intros ->. congruence.
    + intros (? & ? & ? & ? & E). apply lookup_delete_Some in E as [_ E].
      apply HR. eauto.
  - intros tid' [t E]. simpl in *. apply lookup_delete_Some in E as [_ E].
    apply HB. eauto.
Qed.

Lemma inv_suspend_background s tid st st' k ttl :
  inv s -> tasks s !! tid = Some (Background st k ttl) ->
  inv (suspend tid (Background st' k ttl) s).
Proof.
  intros [HR HB] Ht. split.
  - intros k' p. simpl. split.
    + intros E. apply HR in E as (st1 & now' & ttl' & lkg' & E).
      exists st1, now', ttl', lkg'. rewrite lookup_insert_ne; [exact E|].
      intros ->. congruence.
    + intros (? & ? & ? & ? & E). destruct (decide (tid = p)) as [<-|Hne].
      * rewrite lookup_insert_eq in E. discriminate.
      * rewrite lookup_insert_ne in E by exact Hne. apply HR. eauto.
  - intros tid' [t E]. simpl in *. destruct (decide (tid = tid')) as [<-|Hne].
    + apply HB. eauto.
    + rewrite lookup_insert_ne in E by exact Hne. apply HB. eauto.
Qed.

End Invariant.

(** ** The orchestrator, branch by branch *)

Section Orchestrator.
Context `{Collator}.

Lemma keyFrom_nonempty url v k : keyFrom url v = Normal k -> nonempty k = true.
Proof.
  destruct (keyFrom_total url) as [body Hb]. rewrite Hb. intros [= <-].
  destruct body; reflexivity.
Qed.

Lemma swrRefresh_with_key url ttl v k s :
  nonempty k = true ->
  swrRefresh url ttl v (Some k) s = Normal (spawn (Background AwaitFetch k ttl) url s).
Proof. unfold swrRefresh. intros ->. reflexivity. Qed.

Lemma fetchWithCache_unfold url o now s k lkg :
  keyFrom url (opt_version o) = Normal k ->
  getLKG k (storage s) = Normal lkg ->
  fetchWithCache url o now s = fetchWithCache_branches k lkg url o now s.
Proof.
  intros Hk Hl. unfold fetchWithCache, fetchWithCache_branches.
  rewrite Hk, Hl.
  destruct (fresh_copy (mem s !! k) now (opt_ttlSec o)); [reflexivity|].
  destruct (fresh_copy lkg now (opt_ttlSec o)); [|reflexivity].
  rewrite swrRefresh_with_key by (eapply keyFrom_nonempty; eassumption).
  reflexivity.
Qed.

Lemma fetchWithCache_cases url o now s :
  exists k lkg,
    keyFrom url (opt_version o) = Normal k
    /\ getLKG k (storage s) = Normal lkg
    /\ fetchWithCache url o now s = fetchWithCache_branches k lkg url o now s.
Proof.
  destruct (keyFrom_total url) as [body Hb].
  destruct (getLKG_total (body +:+ "|v=" +:+ opt_version o) (storage s)) as [lkg Hl].
  exists (body +:+ "|v=" +:+ opt_version o), lkg.
  split; [apply Hb|]. split; [exact Hl|].
  apply fetchWithCache_unfold; [apply Hb | exact Hl].
Qed.

Lemma inv_fetchWithCache url o now s : inv s -> inv (fetchWithCache url o now s).1.
Proof.
  intros Hinv. destruct (fetchWithCache_cases url o now s) as (k & lkg & _ & _ & ->).
  unfold fetchWithCache_branches.
  destruct (fresh_copy (mem s !! k) now (opt_ttlSec o)); [exact Hinv|].
  destruct (fresh_copy lkg now (opt_ttlSec o)).
  - simpl. eapply inv_frame; [| | |apply (inv_spawn_background s AwaitFetch k (opt_ttlSec o) url Hinv)];
      reflexivity.
  - destruct (inflight s !! k) eqn:Hk; [exact Hinv|].
    simpl. now apply inv_spawn_foreground.
Qed.

Lemma inv_foreground_catch s tid st k now ttl lkg err :
  inv s -> tasks s !! tid = Some (Foreground st k now ttl lkg) ->
  inv (foreground_catch tid k now ttl lkg err s).
Proof.
  intros Hinv Ht. unfold foreground_catch.
  eapply inv_frame; [| | |apply (inv_finish_foreground s tid st k now ttl lkg Hinv Ht)];
    reflexivity.
Qed.

Lemma foreground_store_eq tid k now ttl lkg d s :
  foreground_store tid k now ttl lkg d s
  = settle tid (Fulfilled (mkResult d "net" now))
      (delete_inflight k (finish tid
         (set_storage (after_setLKG k (mkRecord d now ttl) (storage s))
            (set_mem k (mkRecord d now ttl) s)))).
Proof. unfold foreground_store. rewrite setLKG_eq. reflexivity. Qed.

Lemma background_store_eq tid k ttl d clock s :
  background_store tid k ttl d clock s
  = finish tid (set_storage (after_setLKG k (mkRecord d clock ttl) (storage s))
                  (set_mem k (mkRecord d clock ttl) s)).
Proof. unfold background_store. rewrite setLKG_eq. reflexivity. Qed.

Lemma inv_on_fetch_settled tid r s : inv s -> inv (on_fetch_settled tid r s).
Proof.
  intros Hinv. unfold on_fetch_settled.
  destruct (tasks s !! tid) as [[[] k now ttl lkg|[] k ttl]|] eqn:Ht; try exact Hinv.
  - destruct r as [e|status]; [eapply inv_foreground_catch; eassumption|].
    destruct (ok status);
      [eapply inv_suspend_foreground; eassumption|eapply inv_foreground_catch; eassumption].
  - destruct r as [e|status]; [eapply inv_finish_background; eassumption|].
    destruct (ok status);
      [eapply inv_suspend_background; eassumption|eapply inv_finish_background; eassumption].
Qed.

Lemma inv_on_body_settled tid r clock s : inv s -> inv (on_body_settled tid r clock s).
Proof.
  intros Hinv. unfold on_body_settled.
  destruct (tasks s !! tid) as [[[] k now ttl lkg|[] k ttl]|] eqn:Ht; try exact Hinv.
  - destruct r as [d|e]; [|eapply inv_foreground_catch; eassumption].
    rewrite foreground_store_eq.
    eapply inv_frame; [| | |apply (inv_finish_foreground s tid AwaitJson k now ttl lkg Hinv Ht)];
      reflexivity.
  - destruct r as [d|e]; [|eapply inv_finish_background; eassumption].
    rewrite background_store_eq.
    eapply inv_frame; [| | |apply (inv_finish_background s tid AwaitJson k ttl Hinv Ht)];
      reflexivity.
Qed.

Lemma inv_step s ev : inv s -> inv (step s ev).1.
Proof.
  intros Hinv. destruct ev as [url o now|tid r|tid r clock]; simpl.
  - pose proof (inv_fetchWithCache url o now s Hinv).
    destruct (fetchWithCache url o now s). assumption.
  - now apply inv_on_fetch_settled.
  - now apply inv_on_body_settled.
Qed.

Lemma inv_run evs : forall s, inv s -> inv (run s evs).
Proof.
  induction evs as [|ev evs IH]; intros s Hinv; [exact Hinv|].
  apply IH. now apply inv_step.
Qed.

Lemma reachable_inv s : reachable s -> inv s.
Proof. intros (ls & evs & ->). apply inv_run, inv_init. Qed.

Lemma reachable_init ls : reachable (init ls).
Proof. exists ls, []. reflexivity. Qed.

Lemma run_app s evs1 evs2 : run s (evs1 ++ evs2)%list = run (run s evs1) evs2.
Proof. unfold run. apply fold_left_app. Qed.

Lemma reachable_run s evs : reachable s -> reachable (run s evs).
Proof.
  intros (ls & evs0 & ->). exists ls, (evs0 ++ evs)%list. now rewrite run_app.
Qed.

End Orchestrator.

(** ** One turn of the event loop, seen from one coroutine *)

Section Steps.
Context `{Collator}.

Lemma on_fetch_settled_other tid r s p :
  tid <> p ->
  tasks (on_fetch_settled tid r s) !! p = tasks s !! p
  /\ settled (on_fetch_settled tid r s) !! p = settled s !! p.
Proof.
  intros Hne. unfold on_fetch_settled, foreground_catch.
  destruct (tasks s !! tid) as [[[] k now ttl lkg|[] k ttl]|]; try (split; reflexivity);
    destruct r as [e|status]; try destruct (ok status); simpl;
    rewrite ?lookup_insert_ne, ?lookup_delete_ne by exact Hne; split; reflexivity.
Qed.

Lemma on_body_settled_other tid r clock s p :
  tid <> p ->
  tasks (on_body_settled tid r clock s) !! p = tasks s !! p
  /\ settled (on_body_settled tid r clock s) !! p = settled s !! p.
Proof.
  intros Hne. unfold on_body_settled.
  destruct (tasks s !! tid) as [[[] k now ttl lkg|[] k ttl]|]; try (split; reflexivity);
    destruct r as [d|e]; rewrite ?foreground_store_eq, ?background_store_eq;
    unfold foreground_catch; simpl;
    rewrite ?lookup_insert_ne, ?lookup_delete_ne by exact Hne; split; reflexivity.
Qed.

Lemma fetchWithCache_other url o now s p :
  p < next s ->
  tasks (fetchWithCache url o now s).1 !! p = tasks s !! p
  /\ settled (fetchWithCache url o now s).1 = settled s.
Proof.
  intros Hlt. destruct (fetchWithCache_cases url o now s) as (k & lkg & _ & _ & ->).
  unfold fetchWithCache_branches.
  destruct (fresh_copy (mem s !! k) now (opt_ttlSec o)); [split; reflexivity|].
  destruct (fresh_copy lkg now (opt_ttlSec o)).
  - simpl. rewrite lookup_insert_ne by lia. split; reflexivity.
  - destruct (inflight s !! k); [split; reflexivity|].
    simpl. rewrite lookup_insert_ne by lia. split; reflexivity.
Qed.

Lemma step_fst_call url o now s : (step s (Call url o now)).1 = (fetchWithCache url o now s).1.
Proof. simpl. destruct (fetchWithCache url o now s). reflexivity. Qed.

Lemma fetchWithCache_settled url o now s : settled (fetchWithCache url o now s).1 = settled s.
Proof.
  destruct (fetchWithCache_cases url o now s) as (k & lkg & _ & _ & ->).
  unfold fetchWithCache_branches.
  destruct (fresh_copy (mem s !! k) now (opt_ttlSec o)); [reflexivity|].
  destruct (fresh_copy lkg now (opt_ttlSec o)); [reflexivity|].
  destruct (inflight s !! k); reflexivity.
Qed.

Lemma settled_without_task s ev p :
  tasks s !! p = None -> settled (step s ev).1 !! p = settled s !! p.
Proof.
  intros Hnone. destruct ev as [url o clock|tid r|tid r clock].
  - rewrite step_fst_call. now rewrite fetchWithCache_settled.
  - destruct (decide (tid = p)) as [->|Hne].
    + simpl. unfold on_fetch_settled. now rewrite Hnone.
    + simpl. now destruct (on_fetch_settled_other tid r s p Hne) as [_ ->].
  - destruct (decide (tid = p)) as [->|Hne].
    + simpl. unfold on_body_settled. now rewrite Hnone.
    + simpl. now destruct (on_body_settled_other tid r clock s p Hne) as [_ ->].
Qed.

(** A suspended foreground coroutine either fails, succeeds, or stays
    suspended with the same variables. *)
Lemma foreground_step s ev p st k now ttl lkg :
  inv s ->
  tasks s !! p = Some (Foreground st k now ttl lkg) ->
  match failure_of ev st p, success_of ev st p with
  | Some err, _ =>
      (step s ev).1
      = settle p (failure_outcome lkg now ttl err) (delete_inflight k (finish p s))
  | None, Some (d, _) =>
      (step s ev).1
      = settle p (Fulfilled (mkResult d "net" now))
          (delete_inflight k (finish p
             (set_storage (after_setLKG k (mkRecord d now ttl) (storage s))
                (set_mem k (mkRecord d now ttl) s))))
  | None, None =>
      (exists st', tasks (step s ev).1 !! p = Some (Foreground st' k now ttl lkg))
      /\ settled (step s ev).1 !! p = settled s !! p
  end.
Proof.
  intros Hinv Ht.
  assert (p < next s) as Hlt by (apply Hinv; eauto).
  destruct ev as [url o clock|tid r|tid r clock].
  - assert (failure_of (Call url o clock) st p = None) as -> by (destruct st; reflexivity).
    assert (success_of (Call url o clock) st p = None) as -> by (destruct st; reflexivity).
    rewrite step_fst_call.
    destruct (fetchWithCache_other url o clock s p Hlt) as [-> ->]. eauto.
  - assert (success_of (FetchSettled tid r) st p = None) as -> by (destruct st; reflexivity).
    destruct (decide (tid = p)) as [->|Hne].
    + simpl. unfold on_fetch_settled. rewrite Ht.
      destruct st; simpl.
      * destruct r as [e|status]; simpl; rewrite decide_True by reflexivity.
        -- reflexivity.
        -- destruct (ok status); [|reflexivity].
           simpl. rewrite lookup_insert_eq. eauto.
      * destruct r; simpl; eauto.
    + destruct (on_fetch_settled_other tid r s p Hne) as [Ht' Hs'].
      assert (failure_of (FetchSettled tid r) st p = None) as ->.
      { destruct st, r; simpl; rewrite ?decide_False by exact Hne; reflexivity. }
      simpl. rewrite Ht', Hs', Ht. eauto.
  - destruct (decide (tid = p)) as [->|Hne].
    + simpl. unfold on_body_settled. rewrite Ht.
      destruct st; simpl.
      * destruct r; simpl; eauto.
      * destruct r as [d|e]; simpl; rewrite decide_True by reflexivity.
        -- apply foreground_store_eq.
        -- reflexivity.
    + destruct (on_body_settled_other tid r clock s p Hne) as [Ht' Hs'].
      assert (failure_of (BodySettled tid r clock) st p = None) as ->.
      { destruct st, r; simpl; rewrite ?decide_False by exact Hne; reflexivity. }
      assert (success_of (BodySettled tid r clock) st p = None) as ->.
      { destruct st, r; simpl; rewrite ?decide_False by exact Hne; reflexivity. }
      simpl. rewrite Ht', Hs', Ht. eauto.
Qed.

(** A suspended background coroutine either ends without a trace, stores
    the refreshed record, or stays suspended with the same variables. *)
Lemma background_step s ev b st k ttl :
  inv s ->
  tasks s !! b = Some (Background st k ttl) ->
  match failure_of ev st b, success_of ev st b with
  | Some _, _ => (step s ev).1 = finish b s
  | None, Some (d, clock) =>
      (step s ev).1
      = finish b (set_storage (after_setLKG k (mkRecord d clock ttl) (storage s))
                    (set_mem k (mkRecord d clock ttl) s))
  | None, None =>
      (exists st', tasks (step s ev).1 !! b = Some (Background st' k ttl))
      /\ settled (step s ev).1 !! b = settled s !! b
  end.
Proof.
  intros Hinv Ht.
  assert (b < next s) as Hlt by (apply Hinv; eauto).
  destruct ev as [url o clock|tid r|tid r clock].
  - assert (failure_of (Call url o clock) st b = None) as -> by (destruct st; reflexivity).
    assert (success_of (Call url o clock) st b = None) as -> by (destruct st; reflexivity).
    rewrite step_fst_call.
    destruct (fetchWithCache_other url o clock s b Hlt) as [-> ->]. eauto.
  - assert (success_of (FetchSettled tid r) st b = None) as -> by (destruct st; reflexivity).
    destruct (decide (tid = b)) as [->|Hne].
    + simpl. unfold on_fetch_settled. rewrite Ht.
      destruct st; simpl.
      * destruct r as [e|status]; simpl; rewrite decide_True by reflexivity.
        -- reflexivity.
        -- destruct (ok status); [|reflexivity].
           simpl. rewrite lookup_insert_eq. eauto.
      * destruct r; simpl; eauto.
    + destruct (on_fetch_settled_other tid r s b Hne) as [Ht' Hs'].
      assert (failure_of (FetchSettled tid r) st b = None) as ->.
      { destruct st, r; simpl; rewrite ?decide_False by exact Hne; reflexivity. }
      simpl. rewrite Ht', Hs', Ht. eauto.
  - destruct (decide (tid = b)) as [->|Hne].
    + simpl. unfold on_body_settled. rewrite Ht.
      destruct st; simpl.
      * destruct r; simpl; eauto.
      * destruct r as [d|e]; simpl; rewrite decide_True by reflexivity.
        -- apply background_store_eq.
        -- reflexivity.
    + destruct (on_body_settled_other tid r clock s b Hne) as [Ht' Hs'].
      assert (failure_of (BodySettled tid r clock) st b = None) as ->.
      { destruct st, r; simpl; rewrite ?decide_False by exact Hne; reflexivity. }
      assert (success_of (BodySettled tid r clock) st b = None) as ->.
      { destruct st, r; simpl; rewrite ?decide_False by exact Hne; reflexivity. }
      simpl. rewrite Ht', Hs', Ht. eauto.
Qed.

End Steps.

(** ** Coroutines along a run *)

Section Runs.
Context `{Collator}.

Lemma step_no_new_task_below s ev p :
  p < next s -> tasks s !! p = None -> tasks (step s ev).1 !! p = None.
Proof.
  intros Hlt Hnone. destruct ev as [url o clock|tid r|tid r clock].
  - rewrite step_fst_call. now destruct (fetchWithCache_other url o clock s p Hlt) as [-> _].
  - destruct (decide (tid = p)) as [->|Hne].
    + simpl. unfold on_fetch_settled. now rewrite Hnone.
    + simpl. now destruct (on_fetch_settled_other tid r s p Hne) as [-> _].
  - destruct (decide (tid = p)) as [->|Hne].
    + simpl. unfold on_body_settled. now rewrite Hnone.
    + simpl. now destruct (on_body_settled_other tid r clock s p Hne) as [-> _].
Qed.

Lemma next_step s ev : next s <= next (step s ev).1.
Proof.
  destruct ev as [url o clock|tid r|tid r clock].
  - rewrite step_fst_call.
    destruct (fetchWithCache_cases url o clock s) as (k & lkg & _ & _ & ->).
    unfold fetchWithCache_branches.
    destruct (fresh_copy (mem s !! k) clock (opt_ttlSec o)); [reflexivity|].
    destruct (fresh_copy lkg clock (opt_ttlSec o)); [simpl; lia|].
    destruct (inflight s !! k); simpl; lia.
  - simpl. unfold on_fetch_settled, foreground_catch.
    destruct (tasks s !! tid) as [[[] k now ttl lkg|[] k ttl]|]; try reflexivity;
      destruct r as [e|status]; try destruct (ok status); reflexivity.
  - simpl. unfold on_body_settled.
    destruct (tasks s !! tid) as [[[] k now ttl lkg|[] k ttl]|]; try reflexivity;
      destruct r as [d|e]; rewrite ?foreground_store_eq, ?background_store_eq; reflexivity.
Qed.

(** A coroutine found after a step was there before it, with the same
    variables: numbers below [next] are never given out again. *)
Lemma step_task_origin s ev p t' :
  inv s -> p < next s ->
  tasks (step s ev).1 !! p = Some t' ->
  exists t, tasks s !! p = Some t /\ forget_stage t = forget_stage t'.
Proof.
  intros Hinv Hlt Ht'.
  destruct (tasks s !! p) as [[st k now ttl lkg|st k ttl]|] eqn:Ht.
  - pose proof (foreground_step s ev p st k now ttl lkg Hinv Ht) as HS.
    destruct (failure_of ev st p) as [err|].
    { rewrite HS in Ht'. simpl in Ht'. rewrite lookup_delete_eq in Ht'. discriminate. }
    destruct (success_of ev st p) as [[d c]|].
    { rewrite HS in Ht'. simpl in Ht'. rewrite lookup_delete_eq in Ht'. discriminate. }
    destruct HS as [[st' HS] _]. rewrite HS in Ht'. injection Ht' as <-. eauto.
  - pose proof (background_step s ev p st k ttl Hinv Ht) as HS.
    destruct (failure_of ev st p) as [err|].
    { rewrite HS in Ht'. simpl in Ht'. rewrite lookup_delete_eq in Ht'. discriminate. }
    destruct (success_of ev st p) as [[d c]|].
    { rewrite HS in Ht'. simpl in Ht'. rewrite lookup_delete_eq in Ht'. discriminate. }
    destruct HS as [[st' HS] _]. rewrite HS in Ht'. injection Ht' as <-. eauto.
  - rewrite (step_no_new_task_below s ev p Hlt Ht) in Ht'. discriminate.
Qed.

Lemma run_task_origin evs : forall s p t',
  inv s -> p < next s ->
  tasks (run s evs) !! p = Some t' ->
  exists t, tasks s !! p = Some t /\ forget_stage t = forget_stage t'.
Proof.
  induction evs as [|ev evs IH]; intros s p t' Hinv Hlt Ht'.
  - simpl in Ht'. eauto.
  - simpl in Ht'. apply IH in Ht' as (t1 & Ht1 & E1).
    + apply step_task_origin in Ht1 as (t & Ht & E); [|assumption..].
      exists t. split; [assumption|congruence].
    + now apply inv_step.
    + pose proof (next_step s ev). lia.
Qed.

Lemma settled_below_next_step s ev :
  inv s -> settled_below_next s -> settled_below_next (step s ev).1.
Proof.
  intros Hinv Hs p Hp. pose proof (next_step s ev) as Hmono.
  destruct (tasks s !! p) as [t|] eqn:Ht.
  - assert (p < next s) by (apply Hinv; eauto). lia.
  - rewrite (settled_without_task s ev p Ht) in Hp. apply Hs in Hp. lia.
Qed.

Lemma settled_below_next_run evs : forall s,
  inv s -> settled_below_next s -> settled_below_next (run s evs).
Proof.
  induction evs as [|ev evs IH]; intros s Hinv Hs; [exact Hs|].
  simpl. apply IH; [now apply inv_step|now apply settled_below_next_step].
Qed.

Lemma reachable_settled_below_next s : reachable s -> settled_below_next s.
Proof.
  intros (ls & evs & ->). apply settled_below_next_run; [apply inv_init|].
  intros p [o Ho]. simpl in Ho. rewrite lookup_empty in Ho. discriminate.
Qed.

(** The promise of a foreground coroutine stays pending for as long as the
    coroutine is suspended. *)
Lemma pending_while_suspended evs : forall s p st k now ttl lkg,
  inv s ->
  tasks s !! p = Some (Foreground st k now ttl lkg) ->
  settled s !! p = None ->
  is_Some (tasks (run s evs) !! p) ->
  settled (run s evs) !! p = None.
Proof.
  induction evs as [|ev evs IH]; intros s p st k now ttl lkg Hinv Ht Hs Hend; [exact Hs|].
  simpl in Hend |- *.
  assert (p < next s) as Hlt by (apply Hinv; eauto).
  assert (is_Some (tasks (step s ev).1 !! p)) as [t1 Ht1].
  { destruct Hend as [t' Ht'].
    apply run_task_origin in Ht' as (t1 & Ht1 & _);
      [eauto|now apply inv_step|pose proof (next_step s ev); lia]. }
  pose proof (foreground_step s ev p st k now ttl lkg Hinv Ht) as HS.
  destruct (failure_of ev st p) as [err|].
  { rewrite HS in Ht1. simpl in Ht1. rewrite lookup_delete_eq in Ht1. discriminate. }
  destruct (success_of ev st p) as [[d c]|].
  { rewrite HS in Ht1. simpl in Ht1. rewrite lookup_delete_eq in Ht1. discriminate. }
  destruct HS as [[st' Hst'] Hsame].
  eapply IH; [now apply inv_step|exact Hst'|now rewrite Hsame|exact Hend].
Qed.

Lemma forget_stage_foreground t k now ttl lkg :
  forget_stage (Foreground AwaitFetch k now ttl lkg) = forget_stage t ->
  exists st, t = Foreground st k now ttl lkg.
Proof. destruct t; simpl; intros [= <- <- <- <-] || intros [=]; eauto. Qed.

Lemma forget_stage_background t k ttl :
  forget_stage (Background AwaitFetch k ttl) = forget_stage t ->
  exists st, t = Background st k ttl.
Proof. destruct t; simpl; intros [= <- <-] || intros [=]; eauto. Qed.

End Runs.

(** ** Single flight *)

(** C1, as stated, fails.  A page is loaded with a record for the key in
    localStorage, fetched at time 0.  A first call at 299000 ms finds it
    fresh under 300 s, returns it and starts the background refresh
    (coroutine 0).  A second call one second later finds nothing fresh; the
    in-flight map is empty, because [swrRefresh] never registers there; so a
    second request (coroutine 1) goes out while the first is still in
    flight, and the caller awaits the promise of the second. *)
Lemma background_refresh_not_coalesced :
  (step (init reloaded_page) (Call page_url ttl300 299000)).2
  = Some (Resolved (mkResult (JString "old") "lkg" 0))
  /\ reachable (run (init reloaded_page) [Call page_url ttl300 299000; Call page_url ttl300 300000])
  /\ tasks (run (init reloaded_page) [Call page_url ttl300 299000; Call page_url ttl300 300000])
     = {[ 0 := Background AwaitFetch page_key 300;
          1 := Foreground AwaitFetch page_key 300000 300 (Some old_record) ]}
  /\ requests (run (init reloaded_page) [Call page_url ttl300 299000; Call page_url ttl300 300000])
     = [(0, page_url); (1, page_url)]
  /\ size (in_flight_for page_key
             (run (init reloaded_page) [Call page_url ttl300 299000; Call page_url ttl300 300000]))
     = 2
  /\ (step (step (init reloaded_page) (Call page_url ttl300 299000)).1
           (Call page_url ttl300 300000)).2
     = Some (Awaits 1).
Proof.
  split; [vm_compute; reflexivity|].
  split; [eexists _, _; reflexivity|].
  split; [vm_compute; reflexivity|].
  split; [vm_compute; reflexivity|].
  split; vm_compute; reflexivity.
Qed.

Section SingleFlight.
Context `{Collator}.

Lemma map_size_le_1 {A} (m : gmap nat A) :
  (forall i j x y, m !! i = Some x -> m !! j = Some y -> i = j) -> size m <= 1.
Proof.
  intros Huniq. destruct (map_choose_or_empty m) as [(i & x & Hi)| ->].
  - assert (m = {[ i := x ]}) as ->.
    { apply map_eq. intros j. destruct (decide (i = j)) as [<-|Hne].
      - now rewrite lookup_singleton_eq.
      - rewrite lookup_singleton_ne by exact Hne.
        destruct (m !! j) as [y|] eqn:Hj; [|reflexivity].
        exfalso. apply Hne. eapply Huniq; eassumption. }
    now rewrite map_size_singleton.
  - rewrite map_size_empty. lia.
Qed.

Lemma foreground_in_flight_lookup k s p t :
  foreground_in_flight_for k s !! p = Some t <->
  exists st now ttl lkg, t = Foreground st k now ttl lkg /\ tasks s !! p = Some t.
Proof.
  unfold foreground_in_flight_for. rewrite map_lookup_filter_Some. simpl. split.
  - intros (Ht & Hfg & Hk). destruct t as [st k' now ttl lkg|]; [|discriminate].
    simpl in Hk. subst k'. eauto 10.
  - intros (st & now & ttl & lkg & -> & Ht). auto.
Qed.

(** C1, amended.  In every reachable state and for every key, at most one
    foreground network request (one started by [fetchWithCache] itself) is
    in flight, and it is the one the in-flight map registers; a caller that
    finds no fresh copy while such a request is in flight gets the promise
    of that request, and the call changes nothing: no further request goes
    out.  Background refreshes are not counted: they are not registered and
    run alongside. *)
Theorem single_flight_foreground (s : State) :
  reachable s ->
  (forall k, size (foreground_in_flight_for k s) <= 1)
  /\ (forall k p, inflight s !! k = Some p <->
        exists st now ttl lkg, tasks s !! p = Some (Foreground st k now ttl lkg))
  /\ (forall url o now k lkg p,
        keyFrom url (opt_version o) = Normal k ->
        getLKG k (storage s) = Normal lkg ->
        fresh_copy (mem s !! k) now (opt_ttlSec o) = None ->
        fresh_copy lkg now (opt_ttlSec o) = None ->
        inflight s !! k = Some p ->
        fetchWithCache url o now s = (s, Awaits p)).
Proof.
  intros Hr. pose proof (reachable_inv s Hr) as [HR HB]. repeat split.
  - intros k. apply map_size_le_1. intros i j x y Hi Hj.
    apply foreground_in_flight_lookup in Hi as (? & ? & ? & ? & -> & Hi).
    apply foreground_in_flight_lookup in Hj as (? & ? & ? & ? & -> & Hj).
    assert (inflight s !! k = Some i) as Ei by (apply HR; eauto).
    assert (inflight s !! k = Some j) as Ej by (apply HR; eauto).
    congruence.
  - apply HR.
  - apply HR.
  - intros url o now k lkg p Hk Hl Hm Hd Hp.
    rewrite (fetchWithCache_unfold url o now s k lkg Hk Hl).
    unfold fetchWithCache_branches. now rewrite Hm, Hd, Hp.
Qed.

End SingleFlight.

Lemma single_flight_foreground_witness :
  size (foreground_in_flight_for page_key
          (run (init reloaded_page) [Call page_url ttl300 299000; Call page_url ttl300 300000])) <= 1
  /\ fetchWithCache page_url ttl300 300000
       (run (init reloaded_page) [Call page_url ttl300 299000; Call page_url ttl300 300000])
     = (run (init reloaded_page) [Call page_url ttl300 299000; Call page_url ttl300 300000],
        Awaits 1).
Proof.
  assert (reachable (run (init reloaded_page)
                         [Call page_url ttl300 299000; Call page_url ttl300 300000])) as Hr.
  { eexists _, _. reflexivity. }
  destruct (single_flight_foreground _ Hr) as (Hsize & _ & Hjoin).
  split.
  - apply Hsize.
  - apply (Hjoin page_url ttl300 300000%Z page_key (Some old_record) 1).
    + vm_compute. reflexivity.
    + vm_compute. reflexivity.
    + vm_compute. reflexivity.
    + vm_compute. reflexivity.
    + vm_compute. reflexivity.
Defined.

Section Coalescing.
Context `{Collator}.

Lemma stale_call_frame k s s' c :
  mem s' = mem s -> storage s' = storage s -> stale_call k s c -> stale_call k s' c.
Proof. unfold stale_call, no_fresh_copy. intros -> ->. auto. Qed.

(** Calls that find a request in flight and nothing fresh all get its
    promise and leave the state alone. *)
Lemma call_all_joins calls : forall s k p,
  inflight s !! k = Some p ->
  Forall (stale_call k s) calls ->
  call_all s calls = (s, replicate (length calls) (Awaits p)).
Proof.
  induction calls as [|[[url o] now] calls IH]; intros s k p Hp Hall; [reflexivity|].
  apply Forall_cons in Hall as [[Hk [Hm Hd]] Hall]. simpl in Hk, Hm, Hd.
  destruct (getLKG_total k (storage s)) as [lkg Hl].
  simpl. rewrite (fetchWithCache_unfold url o now s k lkg Hk Hl).
  unfold fetchWithCache_branches. rewrite Hm, (Hd lkg Hl), Hp.
  rewrite (IH s k p Hp Hall). reflexivity.
Qed.

(** C4.  From a reachable state with no request in flight for [k], let one
    consumer and then any number of others call for [k], each finding no
    fresh copy.  One request goes out, for the first caller; every call
    returns the promise [p] of that one coroutine.  As long as the coroutine
    is suspended the key stays registered and no caller has observed an
    outcome.  At the step at which the coroutine ends, by success or by
    failure, the key is unregistered and [p] is settled, and every one of
    the callers observes that outcome.  Such a step exists at each
    suspension point. *)
Theorem single_flight_coalescing (s : State) (k url : string) (o : Options) (now : Z)
    (calls : list (string * Options * Z)) :
  reachable s ->
  inflight s !! k = None ->
  Forall (stale_call k s) ((url, o, now) :: calls) ->
  exists lkg,
    getLKG k (storage s) = Normal lkg
    /\ let s1 := (call_all s ((url, o, now) :: calls)).1 in
       let rets := (call_all s ((url, o, now) :: calls)).2 in
       let p := next s in
       rets = replicate (S (length calls)) (Awaits p)
       /\ requests s1 = (requests s ++ [(p, url)])%list
       /\ tasks s1 = <[p := Foreground AwaitFetch k now (opt_ttlSec o) lkg]> (tasks s)
       /\ (forall evs,
             is_Some (tasks (run s1 evs) !! p) ->
             inflight (run s1 evs) !! k = Some p
             /\ Forall (fun r => observed (run s1 evs) r = None) rets)
       /\ (forall evs ev,
             is_Some (tasks (run s1 evs) !! p) ->
             tasks (step (run s1 evs) ev).1 !! p = None ->
             inflight (step (run s1 evs) ev).1 !! k = None
             /\ exists out,
                  settled (step (run s1 evs) ev).1 !! p = Some out
                  /\ Forall (fun r => observed (step (run s1 evs) ev).1 r = Some out) rets)
       /\ (forall evs e d clock,
             is_Some (tasks (run s1 evs) !! p) ->
             tasks (step (run s1 evs) (FetchSettled p (NetworkError e))).1 !! p = None
             \/ (tasks (step (run s1 evs) (BodySettled p (Parsed d) clock)).1 !! p = None
                 /\ tasks (step (run s1 evs) (BodySettled p (BodyError e) clock)).1 !! p = None)).
Proof.
  intros Hr Hfree Hall.
  pose proof (reachable_inv s Hr) as Hinv.
  apply Forall_cons in Hall as [[Hk [Hm Hd]] Hall]. simpl in Hk, Hm, Hd.
  destruct (getLKG_total k (storage s)) as [lkg Hl].
  exists lkg. split; [exact Hl|]. cbv zeta.
  set (s1 := set_inflight k (next s)
               (spawn (Foreground AwaitFetch k now (opt_ttlSec o) lkg) url s)).
  assert (call_all s ((url, o, now) :: calls)
          = (s1, replicate (S (length calls)) (Awaits (next s)))) as ->.
  { simpl. rewrite (fetchWithCache_unfold url o now s k lkg Hk Hl).
    unfold fetchWithCache_branches. rewrite Hm, (Hd lkg Hl), Hfree. fold s1.
    rewrite (call_all_joins calls s1 k (next s)).
    - reflexivity.
    - simpl. apply lookup_insert_eq.
    - eapply Forall_impl; [exact Hall|]. intros c. now apply stale_call_frame. }
  simpl fst. simpl snd.
  assert (inv s1) as Hinv1 by (now apply inv_spawn_foreground).
  assert (forall evs t, tasks (run s1 evs) !! next s = Some t ->
                        exists st, t = Foreground st k now (opt_ttlSec o) lkg) as Horigin.
  { intros evs t Ht. apply run_task_origin in Ht as (t0 & Ht0 & E); [|exact Hinv1|simpl; lia].
    simpl in Ht0. rewrite lookup_insert_eq in Ht0. injection Ht0 as <-.
    now apply forget_stage_foreground. }
  split; [reflexivity|]. split; [reflexivity|]. split; [reflexivity|].
  split; [|split].
  - intros evs [t Ht]. destruct (Horigin evs t Ht) as [st ->]. split.
    + apply (inv_run evs s1 Hinv1). eauto.
    + assert (settled (run s1 evs) !! next s = None) as Hpending.
      { eapply (pending_while_suspended evs s1); [exact Hinv1| | |eauto].
        - simpl. apply lookup_insert_eq.
        - simpl. destruct (settled s !! next s) as [out|] eqn:Hout; [|reflexivity].
          assert (next s < next s) by (apply (reachable_settled_below_next s Hr); eauto). lia. }
      apply Forall_cons. split; [|apply Forall_replicate]; exact Hpending.
  - intros evs ev [t Ht] Hgone. destruct (Horigin evs t Ht) as [st ->].
    pose proof (foreground_step (run s1 evs) ev (next s) st k now (opt_ttlSec o) lkg
                  (inv_run evs s1 Hinv1) Ht) as HS.
    destruct (failure_of ev st (next s)) as [err|].
    { rewrite HS. simpl. split; [apply lookup_delete_eq|].
      eexists. split; [apply lookup_insert_eq|].
      apply Forall_cons. split; [|apply Forall_replicate]; simpl; apply lookup_insert_eq. }
    destruct (success_of ev st (next s)) as [[d c]|].
    { rewrite HS. simpl. split; [apply lookup_delete_eq|].
      eexists. split; [apply lookup_insert_eq|].
      apply Forall_cons. split; [|apply Forall_replicate]; simpl; apply lookup_insert_eq. }
    destruct HS as [[st' HS] _]. rewrite HS in Hgone. discriminate.
  - intros evs e d clock [t Ht]. destruct (Horigin evs t Ht) as [st ->].
    pose proof (inv_run evs s1 Hinv1) as Hinv2.
    destruct st.
    + left.
      pose proof (foreground_step (run s1 evs) (FetchSettled (next s) (NetworkError e))
                    (next s) _ _ _ _ _ Hinv2 Ht) as HS.
      simpl in HS. rewrite decide_True in HS by reflexivity.
      unfold step. rewrite HS. simpl. apply lookup_delete_eq.
    + right. split.
      * pose proof (foreground_step (run s1 evs) (BodySettled (next s) (Parsed d) clock)
                      (next s) _ _ _ _ _ Hinv2 Ht) as HS.
        simpl in HS. rewrite decide_True in HS by reflexivity.
        unfold step. rewrite HS. simpl. apply lookup_delete_eq.
      * pose proof (foreground_step (run s1 evs) (BodySettled (next s) (BodyError e) clock)
                      (next s) _ _ _ _ _ Hinv2 Ht) as HS.
        simpl in HS. rewrite decide_True in HS by reflexivity.
        unfold step. rewrite HS. simpl. apply lookup_delete_eq.
Qed.

End Coalescing.

Lemma single_flight_coalescing_witness :
  (call_all (init first_visit)
     [(page_url, ttl300, 1000%Z); ("https://x/y?", ttl300, 1001%Z); (page_url, mkOptions 60 1 "1", 1002%Z)]).2
  = [Awaits 0; Awaits 0; Awaits 0]
  /\ requests (call_all (init first_visit)
       [(page_url, ttl300, 1000%Z); ("https://x/y?", ttl300, 1001%Z); (page_url, mkOptions 60 1 "1", 1002%Z)]).1
     = [(0, page_url)].
Proof.
  assert (forall now ttl, no_fresh_copy page_key now ttl (init first_visit)) as Hstale.
  { intros now ttl. split; [reflexivity|]. intros lkg E. vm_compute in E.
    injection E as <-. reflexivity. }
  destruct (single_flight_coalescing (init first_visit) page_key page_url ttl300 1000%Z
              [("https://x/y?", ttl300, 1001%Z); (page_url, mkOptions 60 1 "1", 1002%Z)])
    as (lkg & _ & Hrets & Hreqs & _).
  - apply reachable_init.
  - reflexivity.
  - repeat (apply Forall_cons; split; [split; [vm_compute; reflexivity|apply Hstale]|]).
    apply Forall_nil. exact I.
  - split; [exact Hrets|exact Hreqs].
Defined.

(** ** The freshness window *)

(** C8, as stated, fails.  The window the orchestrator applies is the
    [ttlSec] of the call, not the one stored in the record, which is written
    and never read.  A record stored with a window of 300 s and fetched at
    [0] is, at [100000], inside its own window; a call with
    [{ ttlSec: 60 }] still goes past both layers to the network.  And the
    same record, at [400000], is past its own window; a call with
    [{ ttlSec: 600 }] is served from memory all the same. *)
Lemma freshness_ignores_the_record_ttl :
  mem (run (init first_visit)
         [Call page_url ttl300 0; FetchSettled 0 (Response 200);
          BodySettled 0 (Parsed (JString "new")) 5]) !! page_key
  = Some (mkRecord (JString "new") 0 300)
  /\ (0 <= 100000 < 0 + 1000 * 300)%Z
  /\ (fetchWithCache page_url (mkOptions 60 1 "1") 100000
        (run (init first_visit)
           [Call page_url ttl300 0; FetchSettled 0 (Response 200);
            BodySettled 0 (Parsed (JString "new")) 5])).2
     = Awaits 1
  /\ (400000 >= 0 + 1000 * 300)%Z
  /\ (fetchWithCache page_url (mkOptions 600 1 "1") 400000
        (run (init first_visit)
           [Call page_url ttl300 0; FetchSettled 0 (Response 200);
            BodySettled 0 (Parsed (JString "new")) 5])).2
     = Resolved (mkResult (JString "new") "mem" 0).
Proof.
  split; [vm_compute; reflexivity|].
  split; [lia|].
  split; [vm_compute; reflexivity|].
  split; [lia|].
  vm_compute. reflexivity.
Qed.

Section Freshness.
Context `{Collator}.

Lemma is_fresh_inside (r : CacheRecord) (s now : Z) :
  (now < fetchedAt r + 1000 * s)%Z -> is_fresh now r s = true.
Proof. intros Hnow. unfold is_fresh. apply Z.ltb_lt. lia. Qed.

Lemma is_fresh_outside (r : CacheRecord) (s now : Z) :
  (now >= fetchedAt r + 1000 * s)%Z -> is_fresh now r s = false.
Proof. intros Hnow. unfold is_fresh. apply Z.ltb_ge. lia. Qed.

(** C8, amended.  For a record fetched at [t0] that a layer holds under the
    key, and a call with [ttlSec = s], the test the orchestrator applies,
    [(now - fetchedAt) < s*1000], takes [s] from the call.  It holds for
    every [now] in [t0, t0 + 1000 s) and fails for every
    [now >= t0 + 1000 s].  Inside the window the call is served from the
    record: from memory, tagged "mem", with nothing changed; or, when memory
    has no fresh copy, from the durable record, tagged "lkg".  Past the
    window a record in memory is not what the call returns, and with the
    durable record past it too the call goes to the network.  The [ttlSec]
    stored in the record plays no part: another value there leaves what the
    call returns as it is. *)
Theorem freshness_window :
  (forall (r : CacheRecord) (s now : Z),
     ((fetchedAt r <= now < fetchedAt r + 1000 * s)%Z ->
        is_fresh now r s = true /\ fresh_copy (Some r) now s = Some r)
     /\ ((now >= fetchedAt r + 1000 * s)%Z ->
        is_fresh now r s = false /\ fresh_copy (Some r) now s = None))
  /\ (forall st url o now k r,
        keyFrom url (opt_version o) = Normal k ->
        mem st !! k = Some r ->
        ((fetchedAt r <= now < fetchedAt r + 1000 * opt_ttlSec o)%Z ->
           fetchWithCache url o now st
           = (st, Resolved (mkResult (data r) "mem" (fetchedAt r))))
        /\ ((now >= fetchedAt r + 1000 * opt_ttlSec o)%Z ->
           forall res, (fetchWithCache url o now st).2 = Resolved res -> source res <> "mem"))
  /\ (forall st url o now k r,
        keyFrom url (opt_version o) = Normal k ->
        fresh_copy (mem st !! k) now (opt_ttlSec o) = None ->
        getLKG k (storage st) = Normal (Some r) ->
        ((fetchedAt r <= now < fetchedAt r + 1000 * opt_ttlSec o)%Z ->
           (fetchWithCache url o now st).2
           = Resolved (mkResult (data r) "lkg" (fetchedAt r)))
        /\ ((now >= fetchedAt r + 1000 * opt_ttlSec o)%Z ->
           exists p, (fetchWithCache url o now st).2 = Awaits p))
  /\ (forall st url o now k r ttl',
        keyFrom url (opt_version o) = Normal k ->
        mem st !! k = Some r ->
        (fetchWithCache url o now (set_mem k (mkRecord (data r) (fetchedAt r) ttl') st)).2
        = (fetchWithCache url o now st).2).
Proof.
  split; [|split; [|split]].
  - intros r s now. unfold fresh_copy. split; intros Hnow.
    + rewrite is_fresh_inside by lia. split; reflexivity.
    + rewrite is_fresh_outside by lia. split; reflexivity.
  - intros st url o now k r Hk Hm.
    destruct (getLKG_total k (storage st)) as [lkg Hl].
    rewrite (fetchWithCache_unfold url o now st k lkg Hk Hl).
    unfold fetchWithCache_branches. rewrite Hm. unfold fresh_copy at 1 3. split; intros Hnow.
    + rewrite is_fresh_inside by lia. reflexivity.
    + rewrite is_fresh_outside by lia. intros res.
      destruct (fresh_copy lkg now (opt_ttlSec o)) as [l|].
      * intros [= <-]. discriminate.
      * destruct (inflight st !! k); discriminate.
  - intros st url o now k r Hk Hm Hl.
    rewrite (fetchWithCache_unfold url o now st k (Some r) Hk Hl).
    unfold fetchWithCache_branches. rewrite Hm. unfold fresh_copy. split; intros Hnow.
    + rewrite is_fresh_inside by lia. reflexivity.
    + rewrite is_fresh_outside by lia.
      destruct (inflight st !! k) as [p|]; eauto.
  - intros st url o now k r ttl' Hk Hm.
    destruct (getLKG_total k (storage st)) as [lkg Hl].
    rewrite (fetchWithCache_unfold url o now st k lkg Hk Hl).
    rewrite (fetchWithCache_unfold url o now
               (set_mem k (mkRecord (data r) (fetchedAt r) ttl') st) k lkg Hk Hl).
    unfold fetchWithCache_branches, set_mem. cbn [mem inflight next].
    rewrite lookup_insert_eq, Hm. unfold fresh_copy at 1 3, is_fresh. cbn [fetchedAt data].
    destruct (now - fetchedAt r <? opt_ttlSec o * 1000)%Z; [reflexivity|].
    destruct (fresh_copy lkg now (opt_ttlSec o)); [reflexivity|].
    destruct (inflight st !! k); reflexivity.
Qed.

End Freshness.

Lemma freshness_window_witness :
  fetchWithCache page_url ttl300 300999 (set_mem page_key (mkRecord JNull 1000 60) (init first_visit))
  = (set_mem page_key (mkRecord JNull 1000 60) (init first_visit),
     Resolved (mkResult JNull "mem" 1000))
  /\ (exists p, (fetchWithCache page_url ttl300 301000 (init reloaded_page)).2 = Awaits p)
  /\ (fetchWithCache page_url ttl300 299999 (init reloaded_page)).2
     = Resolved (mkResult (JString "old") "lkg" 0).
Proof.
  destruct (@freshness_window codeunit_collator) as (_ & Hmem & Hlkg & _).
  split; [|split].
  - apply (Hmem (set_mem page_key (mkRecord JNull 1000 60) (init first_visit))
                page_url ttl300 300999%Z page_key (mkRecord JNull 1000 60)).
    + vm_compute. reflexivity.
    + vm_compute. reflexivity.
    + simpl. lia.
  - apply (Hlkg (init reloaded_page) page_url ttl300 301000%Z page_key old_record).
    + vm_compute. reflexivity.
    + vm_compute. reflexivity.
    + vm_compute. reflexivity.
    + simpl. lia.
  - apply (Hlkg (init reloaded_page) page_url ttl300 299999%Z page_key old_record).
    + vm_compute. reflexivity.
    + vm_compute. reflexivity.
    + vm_compute. reflexivity.
    + simpl. lia.
Defined.

(** ** Fallback to the last known good record *)

(** C2, as stated, fails for a call that joins an attempt in flight.  The
    durable record was fetched at [0].  A first call with [{ ttlSec: 60 }]
    at [3700000] finds it past its grace window, 3660000 ms, and starts the
    attempt.  A second call with [{ ttlSec: 300 }] comes a millisecond
    later: the record is within its grace window, 3900000 ms, but the call
    is handed the promise of the first.  The response is a 503, and the
    second caller is rejected while the durable record it could have been
    served is still there. *)
Lemma joined_call_is_rejected_within_its_grace :
  (fetchWithCache page_url ttl300 3700001
     (fetchWithCache page_url (mkOptions 60 1 "1") 3700000 (init reloaded_page)).1).2
  = Awaits 0
  /\ getLKG page_key
       (storage (run (init reloaded_page)
                   [Call page_url (mkOptions 60 1 "1") 3700000;
                    Call page_url ttl300 3700001;
                    FetchSettled 0 (Response 503)]))
     = Normal (Some old_record)
  /\ (3700001 - fetchedAt old_record < opt_ttlSec ttl300 * 1000 + LKG_GRACE_MS)%Z
  /\ observed (run (init reloaded_page)
                 [Call page_url (mkOptions 60 1 "1") 3700000;
                  Call page_url ttl300 3700001;
                  FetchSettled 0 (Response 503)])
              (Awaits 0)
     = Some (Rejected (HttpError 503)).
Proof.
  split; [vm_compute; reflexivity|].
  split; [vm_compute; reflexivity|].
  split; [vm_compute; reflexivity|].
  vm_compute. reflexivity.
Qed.

Section Fallback.
Context `{Collator}.

Lemma fetchWithCache_never_rejects url o now s e :
  (fetchWithCache url o now s).2 <> Rejects e.
Proof.
  destruct (fetchWithCache_cases url o now s) as (k & lkg & _ & _ & ->).
  unfold fetchWithCache_branches.
  destruct (fresh_copy (mem s !! k) now (opt_ttlSec o)); [discriminate|].
  destruct (fresh_copy lkg now (opt_ttlSec o)); [discriminate|].
  destruct (inflight s !! k); discriminate.
Qed.

Lemma failure_outcome_stale lkg now ttl err l :
  lkg = Some l ->
  (now - fetchedAt l < ttl * 1000 + 60 * 60 * 1000)%Z ->
  failure_outcome lkg now ttl err = Fulfilled (mkResult (data l) "stale" (fetchedAt l)).
Proof.
  intros -> Hage. unfold failure_outcome, within_grace, LKG_GRACE_MS.
  assert ((now - fetchedAt l <? ttl * 1000 + 60 * 60 * 1000)%Z = true) as ->
    by (apply Z.ltb_lt; lia).
  reflexivity.
Qed.

Lemma failure_outcome_rejected lkg now ttl err :
  lkg = None \/ (exists l, lkg = Some l /\ (now - fetchedAt l >= ttl * 1000 + 60 * 60 * 1000)%Z) ->
  failure_outcome lkg now ttl err = Rejected err.
Proof.
  unfold failure_outcome, within_grace, LKG_GRACE_MS. intros [->|(l & -> & Hage)]; [reflexivity|].
  assert ((now - fetchedAt l <? ttl * 1000 + 60 * 60 * 1000)%Z = false) as ->
    by (apply Z.ltb_ge; lia).
  reflexivity.
Qed.

(** C2, amended.  A call that finds nothing fresh and no request in flight
    starts the network attempt [p] and returns its promise.  When that
    attempt fails (the [fetch] rejects, the response is not 2xx, or the body
    does not parse) with the durable record read at that call aged, at that
    call's clock reading, less than that call's [ttlSec*1000] ms plus 60
    minutes, [p] is fulfilled with that record's data and [fetchedAt],
    tagged "stale".  When it fails with no durable record read, or one past
    that age, [p] is rejected with the error of the attempt.  A call that
    finds nothing fresh and the attempt [p] in flight gets the promise [p]
    and changes nothing: what it receives is decided by the record, the
    clock reading and the [ttlSec] of the call that started [p], not by its
    own.  No call is rejected before its first await, and a promise becomes
    rejected only at the failure of its own attempt with no record within
    the grace window of the call that started it. *)
Theorem stale_fallback_on_failure :
  (forall s url o now k lkg,
     reachable s ->
     keyFrom url (opt_version o) = Normal k ->
     getLKG k (storage s) = Normal lkg ->
     fresh_copy (mem s !! k) now (opt_ttlSec o) = None ->
     fresh_copy lkg now (opt_ttlSec o) = None ->
     inflight s !! k = None ->
     let s1 := (fetchWithCache url o now s).1 in
     let p := next s in
     (fetchWithCache url o now s).2 = Awaits p
     /\ tasks s1 !! p = Some (Foreground AwaitFetch k now (opt_ttlSec o) lkg)
     /\ forall evs ev st err,
          tasks (run s1 evs) !! p = Some (Foreground st k now (opt_ttlSec o) lkg) ->
          failure_of ev st p = Some err ->
          (forall l, lkg = Some l ->
             (now - fetchedAt l < opt_ttlSec o * 1000 + 60 * 60 * 1000)%Z ->
             settled (step (run s1 evs) ev).1 !! p
             = Some (Fulfilled (mkResult (data l) "stale" (fetchedAt l))))
          /\ (lkg = None
              \/ (exists l, lkg = Some l
                   /\ (now - fetchedAt l >= opt_ttlSec o * 1000 + 60 * 60 * 1000)%Z) ->
              settled (step (run s1 evs) ev).1 !! p = Some (Rejected err)))
  /\ (forall s url o now e, (fetchWithCache url o now s).2 <> Rejects e)
  /\ (forall s ev p e,
        reachable s ->
        settled s !! p <> Some (Rejected e) ->
        settled (step s ev).1 !! p = Some (Rejected e) ->
        exists st k now ttl lkg,
          tasks s !! p = Some (Foreground st k now ttl lkg)
          /\ failure_of ev st p = Some e
          /\ within_grace lkg now ttl = None)
  /\ (forall s url o now k p,
        reachable s ->
        keyFrom url (opt_version o) = Normal k ->
        no_fresh_copy k now (opt_ttlSec o) s ->
        inflight s !! k = Some p ->
        fetchWithCache url o now s = (s, Awaits p)
        /\ exists st now0 ttl0 lkg0,
             tasks s !! p = Some (Foreground st k now0 ttl0 lkg0)
             /\ forall evs ev st' err,
                  tasks (run s evs) !! p = Some (Foreground st' k now0 ttl0 lkg0) ->
                  failure_of ev st' p = Some err ->
                  settled (step (run s evs) ev).1 !! p
                  = Some (failure_outcome lkg0 now0 ttl0 err)).
Proof.
  split; [|split; [|split]]; cycle 3.
  { intros s url o now k p Hr Hk [Hm Hd] Hp.
    pose proof (reachable_inv s Hr) as Hinv.
    destruct (getLKG_total k (storage s)) as [lkg Hl].
    split.
    - rewrite (fetchWithCache_unfold url o now s k lkg Hk Hl).
      unfold fetchWithCache_branches. now rewrite Hm, (Hd lkg Hl), Hp.
    - destruct Hinv as [Hreg Hids]. apply Hreg in Hp as (st & now0 & ttl0 & lkg0 & Ht).
      exists st, now0, ttl0, lkg0. split; [exact Ht|].
      intros evs ev st' err Ht' Hfail.
      assert (inv (run s evs)) as Hinv2 by (apply inv_run; now split).
      pose proof (foreground_step _ ev _ _ _ _ _ _ Hinv2 Ht') as HS.
      rewrite Hfail in HS. rewrite HS. simpl. now rewrite lookup_insert_eq. }
  - intros s url o now k lkg Hr Hk Hl Hm Hd Hfree. cbv zeta.
    pose proof (reachable_inv s Hr) as Hinv.
    rewrite (fetchWithCache_unfold url o now s k lkg Hk Hl).
    unfold fetchWithCache_branches. rewrite Hm, Hd, Hfree. simpl fst. simpl snd.
    split; [reflexivity|]. split; [simpl; apply lookup_insert_eq|].
    intros evs ev st err Ht Hfail.
    assert (inv (run (set_inflight k (next s)
                        (spawn (Foreground AwaitFetch k now (opt_ttlSec o) lkg) url s)) evs))
      as Hinv2 by (apply inv_run; now apply inv_spawn_foreground).
    pose proof (foreground_step _ ev _ _ _ _ _ _ Hinv2 Ht) as HS.
    rewrite Hfail in HS. rewrite HS. simpl. rewrite lookup_insert_eq. split.
    + intros l Hsome Hage. f_equal. now apply failure_outcome_stale.
    + intros Hpast. f_equal. now apply failure_outcome_rejected.
  - intros s url o now e. apply fetchWithCache_never_rejects.
  - intros s ev p e Hr Hbefore Hafter.
    pose proof (reachable_inv s Hr) as Hinv.
    destruct (tasks s !! p) as [[st k now ttl lkg|st k ttl]|] eqn:Ht.
    + pose proof (foreground_step s ev p st k now ttl lkg Hinv Ht) as HS.
      destruct (failure_of ev st p) as [err|] eqn:Hf.
      * rewrite HS in Hafter. simpl in Hafter. rewrite lookup_insert_eq in Hafter.
        injection Hafter as Hout. unfold failure_outcome in Hout.
        destruct (within_grace lkg now ttl) eqn:Hg; [discriminate|].
        injection Hout as ->. exists st, k, now, ttl, lkg. repeat split; auto.
      * destruct (success_of ev st p) as [[d c]|].
        -- rewrite HS in Hafter. simpl in Hafter. rewrite lookup_insert_eq in Hafter.
           discriminate.
        -- destruct HS as [_ HS]. rewrite HS in Hafter. contradiction.
    + pose proof (background_step s ev p st k ttl Hinv Ht) as HS.
      destruct (failure_of ev st p) as [err|].
      * rewrite HS in Hafter. simpl in Hafter. contradiction.
      * destruct (success_of ev st p) as [[d c]|].
        -- rewrite HS in Hafter. simpl in Hafter. contradiction.
        -- destruct HS as [_ HS]. rewrite HS in Hafter. contradiction.
    + rewrite (settled_without_task s ev p Ht) in Hafter. contradiction.
Qed.

End Fallback.

Lemma stale_fallback_on_failure_witness :
  settled (run (init reloaded_page)
             [Call page_url ttl300 2100000; FetchSettled 0 (Response 503)]) !! 0
  = Some (Fulfilled (mkResult (JString "old") "stale" 0))
  /\ settled (run (init reloaded_page)
                [Call page_url ttl300 4000000;
                 FetchSettled 0 (NetworkError (TypeError "Failed to fetch"))]) !! 0
     = Some (Rejected (TypeError "Failed to fetch"))
  /\ fetchWithCache page_url ttl300 3700001
       (run (init reloaded_page) [Call page_url (mkOptions 60 1 "1") 3700000])
     = (run (init reloaded_page) [Call page_url (mkOptions 60 1 "1") 3700000], Awaits 0).
Proof.
  destruct (@stale_fallback_on_failure codeunit_collator) as (Hcall & _ & _ & Hjoin).
  split; [|split].
  - destruct (Hcall (init reloaded_page) page_url ttl300 2100000%Z page_key (Some old_record))
      as (_ & _ & Hfail).
    + apply reachable_init.
    + vm_compute. reflexivity.
    + vm_compute. reflexivity.
    + vm_compute. reflexivity.
    + vm_compute. reflexivity.
    + vm_compute. reflexivity.
    + destruct (Hfail [] (FetchSettled 0 (Response 503)) AwaitFetch (HttpError 503))
        as [Hstale _].
      * vm_compute. reflexivity.
      * vm_compute. reflexivity.
      * apply (Hstale old_record).
        -- reflexivity.
        -- simpl. lia.
  - destruct (Hcall (init reloaded_page) page_url ttl300 4000000%Z page_key (Some old_record))
      as (_ & _ & Hfail).
    + apply reachable_init.
    + vm_compute. reflexivity.
    + vm_compute. reflexivity.
    + vm_compute. reflexivity.
    + vm_compute. reflexivity.
    + vm_compute. reflexivity.
    + destruct (Hfail [] (FetchSettled 0 (NetworkError (TypeError "Failed to fetch")))
                  AwaitFetch (TypeError "Failed to fetch"))
        as [_ Hreject].
      * vm_compute. reflexivity.
      * vm_compute. reflexivity.
      * apply Hreject. right. exists old_record. split.
        -- reflexivity.
        -- simpl. lia.
  - apply (Hjoin (run (init reloaded_page) [Call page_url (mkOptions 60 1 "1") 3700000])
                 page_url ttl300 3700001%Z page_key 0).
    + eexists _, _. reflexivity.
    + vm_compute. reflexivity.
    + split.
      * vm_compute. reflexivity.
      * intros lkg E. vm_compute in E. injection E as <-. vm_compute. reflexivity.
    + vm_compute. reflexivity.
Defined.

(** ** Stale while revalidate *)

(** C3, as stated, fails.  On a reloaded page the memory layer is empty and
    localStorage holds a record that is fresh at 299000 ms under 300 s; the
    call returns that record at once, and the tag it carries is the string
    "lkg", not "durable".  And with the quota of localStorage used up, the
    refresh that succeeds writes the new record to the memory layer only:
    the durable store keeps the old one. *)
Lemma durable_hit_is_tagged_lkg :
  mem (init reloaded_page) !! page_key = None
  /\ getLKG page_key (storage (init reloaded_page)) = Normal (Some old_record)
  /\ is_fresh 299000 old_record 300 = true
  /\ (fetchWithCache page_url ttl300 299000 (init reloaded_page)).2
     = Resolved (mkResult (JString "old") "lkg" 0)
  /\ source (mkResult (JString "old") "lkg" 0) <> "durable"
  /\ mem (run (init reloaded_page_full)
            [Call page_url ttl300 299000; FetchSettled 0 (Response 200);
             BodySettled 0 (Parsed (JString "new")) 299500]) !! page_key
     = Some (mkRecord (JString "new") 299500 300)
  /\ getLKG page_key
       (storage (run (init reloaded_page_full)
                   [Call page_url ttl300 299000; FetchSettled 0 (Response 200);
                    BodySettled 0 (Parsed (JString "new")) 299500]))
     = Normal (Some old_record).
Proof.
  split; [vm_compute; reflexivity|].
  split; [vm_compute; reflexivity|].
  split; [vm_compute; reflexivity|].
  split; [vm_compute; reflexivity|].
  split; [simpl; discriminate|].
  split; vm_compute; reflexivity.
Qed.

Section Revalidate.
Context `{Collator}.

Lemma getLKG_after_setLKG k rec ls :
  denied ls = false -> full ls = false ->
  getLKG k (after_setLKG k rec ls) = Normal (Some rec).
Proof.
  intros Hd Hf. unfold after_setLKG, getLKG, getItem. rewrite Hd, Hf. simpl.
  rewrite lookup_insert_eq. reflexivity.
Qed.

(** C3, amended.  When the memory layer has no fresh copy for the key and
    the durable store holds a fresh record, [fetchWithCache] returns that
    record's data and [fetchedAt] before any await, tagged "lkg"; the only
    changes to the state are the record copied into the memory layer and
    one background request issued.  When that request succeeds, a new
    record, stamped with the clock at that moment, is written to the memory
    layer and handed to [setLKG], which stores it unless localStorage
    refuses the write.  When it fails in any way the coroutine ends and
    nothing else changes: no layer is written and no promise is settled. *)
Theorem durable_hit_revalidates (s : State) (url : string) (o : Options) (now : Z)
    (k : string) (l : CacheRecord) :
  reachable s ->
  keyFrom url (opt_version o) = Normal k ->
  fresh_copy (mem s !! k) now (opt_ttlSec o) = None ->
  getLKG k (storage s) = Normal (Some l) ->
  is_fresh now l (opt_ttlSec o) = true ->
  let s1 := (fetchWithCache url o now s).1 in
  let b := next s in
  let ttl := opt_ttlSec o in
  (fetchWithCache url o now s).2 = Resolved (mkResult (data l) "lkg" (fetchedAt l))
  /\ s1 = set_mem k l (spawn (Background AwaitFetch k ttl) url s)
  /\ mem s1 !! k = Some l
  /\ requests s1 = (requests s ++ [(b, url)])%list
  /\ forall evs ev st,
       tasks (run s1 evs) !! b = Some (Background st k ttl) ->
       (forall d clock,
          success_of ev st b = Some (d, clock) ->
          mem (step (run s1 evs) ev).1 !! k = Some (mkRecord d clock ttl)
          /\ storage (step (run s1 evs) ev).1
             = after_setLKG k (mkRecord d clock ttl) (storage (run s1 evs))
          /\ (denied (storage (run s1 evs)) = false ->
              full (storage (run s1 evs)) = false ->
              getLKG k (storage (step (run s1 evs) ev).1)
              = Normal (Some (mkRecord d clock ttl)))
          /\ settled (step (run s1 evs) ev).1 = settled (run s1 evs))
       /\ (forall err,
             failure_of ev st b = Some err ->
             (step (run s1 evs) ev).1 = finish b (run s1 evs)).
Proof.
  intros Hr Hk Hm Hl Hfresh. cbv zeta.
  pose proof (reachable_inv s Hr) as Hinv.
  rewrite (fetchWithCache_unfold url o now s k (Some l) Hk Hl).
  unfold fetchWithCache_branches. rewrite Hm. simpl fresh_copy. rewrite Hfresh.
  simpl fst. simpl snd.
  split; [reflexivity|]. split; [reflexivity|].
  split; [simpl; apply lookup_insert_eq|]. split; [reflexivity|].
  intros evs ev st Ht.
  set (s1 := set_mem k l (spawn (Background AwaitFetch k (opt_ttlSec o)) url s)) in *.
  assert (inv (run s1 evs)) as Hinv2.
  { apply inv_run. eapply inv_frame;
      [| | |apply (inv_spawn_background s AwaitFetch k (opt_ttlSec o) url Hinv)]; reflexivity. }
  pose proof (background_step (run s1 evs) ev (next s) st k (opt_ttlSec o) Hinv2 Ht) as HS.
  split.
  - intros d clock Hok.
    destruct (failure_of ev st (next s)) as [err|] eqn:Hf.
    { destruct ev as [| |tid [] c], st; simpl in Hf, Hok; try discriminate;
        destruct (decide (tid = next s)); discriminate. }
    rewrite Hok in HS. rewrite HS. simpl.
    split; [apply lookup_insert_eq|]. split; [reflexivity|]. split; [|reflexivity].
    apply getLKG_after_setLKG.
  - intros err Hf. rewrite Hf in HS. exact HS.
Qed.

End Revalidate.

Lemma durable_hit_revalidates_witness :
  (fetchWithCache page_url ttl300 299000 (init reloaded_page)).2
  = Resolved (mkResult (JString "old") "lkg" 0)
  /\ mem (run (init reloaded_page)
            [Call page_url ttl300 299000; FetchSettled 0 (Response 200);
             BodySettled 0 (Parsed (JString "new")) 299500]) !! page_key
     = Some (mkRecord (JString "new") 299500 300)
  /\ getLKG page_key
       (storage (run (init reloaded_page)
                   [Call page_url ttl300 299000; FetchSettled 0 (Response 200);
                    BodySettled 0 (Parsed (JString "new")) 299500]))
     = Normal (Some (mkRecord (JString "new") 299500 300))
  /\ run (init reloaded_page) [Call page_url ttl300 299000; FetchSettled 0 (Response 500)]
     = finish 0 (run (init reloaded_page) [Call page_url ttl300 299000]).
Proof.
  destruct (@durable_hit_revalidates codeunit_collator (init reloaded_page) page_url ttl300
              299000%Z page_key old_record)
    as (Hret & _ & _ & _ & Hrefresh).
  - apply reachable_init.
  - vm_compute. reflexivity.
  - vm_compute. reflexivity.
  - vm_compute. reflexivity.
  - vm_compute. reflexivity.
  - split; [exact Hret|].
    destruct (Hrefresh [FetchSettled 0 (Response 200)]
                (BodySettled 0 (Parsed (JString "new")) 299500) AwaitJson) as [Hok _].
    { vm_compute. reflexivity. }
    destruct (Hok (JString "new") 299500%Z) as (Hmem & _ & Hread & _).
    { vm_compute. reflexivity. }
    split; [exact Hmem|]. split.
    + apply Hread; vm_compute; reflexivity.
    + destruct (Hrefresh [] (FetchSettled 0 (Response 500)) AwaitFetch) as [_ Hfail].
      { vm_compute. reflexivity. }
      apply (Hfail (HttpError 500)). vm_compute. reflexivity.
Defined.

(** ** The source tag *)

(** C5, as stated, fails.  On a first visit a call goes to the network and
    succeeds; the same call repeated at the same clock reading is served from
    memory, and the tag it carries is "mem", which is none of "memory",
    "durable", "network", "stale".  The first call's tag is "net".  With
    [ttlSec] at 0 nothing is ever fresh, and the repeated call goes to the
    network again. *)
Lemma second_call_is_tagged_mem :
  settled (run (init first_visit)
             [Call page_url ttl300 1000; FetchSettled 0 (Response 200);
              BodySettled 0 (Parsed (JString "new")) 1200]) !! 0
  = Some (Fulfilled (mkResult (JString "new") "net" 1000))
  /\ (fetchWithCache page_url ttl300 1000
        (run (init first_visit)
           [Call page_url ttl300 1000; FetchSettled 0 (Response 200);
            BodySettled 0 (Parsed (JString "new")) 1200])).2
     = Resolved (mkResult (JString "new") "mem" 1000)
  /\ source (mkResult (JString "new") "mem" 1000) <> "memory"
  /\ ~ In (source (mkResult (JString "new") "mem" 1000)) ["memory"; "durable"; "network"; "stale"]
  /\ ~ In (source (mkResult (JString "new") "net" 1000)) ["memory"; "durable"; "network"; "stale"]
  /\ settled (run (init first_visit)
                [Call page_url ttl0 1000; FetchSettled 0 (Response 200);
                 BodySettled 0 (Parsed (JString "new")) 1200]) !! 0
     = Some (Fulfilled (mkResult (JString "new") "net" 1000))
  /\ (fetchWithCache page_url ttl0 1000
        (run (init first_visit)
           [Call page_url ttl0 1000; FetchSettled 0 (Response 200);
            BodySettled 0 (Parsed (JString "new")) 1200])).2
     = Awaits 1.
Proof.
  split; [vm_compute; reflexivity|].
  split; [vm_compute; reflexivity|].
  split; [simpl; discriminate|].
  split; [simpl; intros [E|[E|[E|[E|[]]]]]; discriminate|].
  split; [simpl; intros [E|[E|[E|[E|[]]]]]; discriminate|].
  split; vm_compute; reflexivity.
Qed.

Section SourceTag.
Context `{Collator}.

(** every settled result comes from the network or from the fallback *)
Lemma settled_sources evs : forall s,
  inv s ->
  (forall p r, settled s !! p = Some (Fulfilled r) -> source r = "net" \/ source r = "stale") ->
  forall p r, settled (run s evs) !! p = Some (Fulfilled r) ->
              source r = "net" \/ source r = "stale".
Proof.
  induction evs as [|ev evs IH]; intros s Hinv Hs; [exact Hs|].
  simpl. apply IH; [now apply inv_step|].
  intros p r Hp.
  destruct (tasks s !! p) as [[st k now ttl lkg|st k ttl]|] eqn:Ht.
  - pose proof (foreground_step s ev p st k now ttl lkg Hinv Ht) as HS.
    destruct (failure_of ev st p) as [err|].
    + rewrite HS in Hp. simpl in Hp. rewrite lookup_insert_eq in Hp.
      injection Hp as Hp. unfold failure_outcome in Hp.
      destruct (within_grace lkg now ttl); [|discriminate].
      injection Hp as <-. now right.
    + destruct (success_of ev st p) as [[d c]|].
      * rewrite HS in Hp. simpl in Hp. rewrite lookup_insert_eq in Hp.
        injection Hp as <-. now left.
      * destruct HS as [_ HS]. rewrite HS in Hp. eauto.
  - pose proof (background_step s ev p st k ttl Hinv Ht) as HS.
    destruct (failure_of ev st p) as [err|].
    + rewrite HS in Hp. simpl in Hp. eauto.
    + destruct (success_of ev st p) as [[d c]|].
      * rewrite HS in Hp. simpl in Hp. eauto.
      * destruct HS as [_ HS]. rewrite HS in Hp. eauto.
  - rewrite (settled_without_task s ev p Ht) in Hp. eauto.
Qed.

(** C5, amended.  Every result carries one of the four tags "mem", "lkg",
    "net", "stale", by the branch that produced it: a call that returns
    before any await returns the fresh memory copy tagged "mem", or else the
    fresh durable copy tagged "lkg"; a promise is fulfilled with "net" or
    "stale".  The same call repeated at the same clock reading, with nothing
    in between, is served from memory: after a first call that returned at
    once, and, when [ttlSec] is positive, right after the step at which the
    first call's own network attempt succeeded. *)
Theorem source_tags :
  (forall s url o now r,
     (fetchWithCache url o now s).2 = Resolved r ->
     exists k,
       keyFrom url (opt_version o) = Normal k
       /\ ((exists inMem, fresh_copy (mem s !! k) now (opt_ttlSec o) = Some inMem
              /\ r = mkResult (data inMem) "mem" (fetchedAt inMem))
           \/ (fresh_copy (mem s !! k) now (opt_ttlSec o) = None
               /\ exists lkg l, getLKG k (storage s) = Normal lkg
                    /\ fresh_copy lkg now (opt_ttlSec o) = Some l
                    /\ r = mkResult (data l) "lkg" (fetchedAt l))))
  /\ (forall s p r,
        reachable s -> settled s !! p = Some (Fulfilled r) ->
        source r = "net" \/ source r = "stale")
  /\ (forall s url o now c r,
        reachable s ->
        (fetchWithCache url o now s).2 = c ->
        observed (fetchWithCache url o now s).1 c = Some (Fulfilled r) ->
        In (source r) ["mem"; "lkg"; "net"; "stale"])
  /\ (forall s url o now r,
        (fetchWithCache url o now s).2 = Resolved r ->
        exists r', (fetchWithCache url o now (fetchWithCache url o now s).1).2 = Resolved r'
                   /\ source r' = "mem" /\ res_data r' = res_data r
                   /\ res_fetchedAt r' = res_fetchedAt r)
  /\ (forall s url o now k p st lkg ev d clock,
        reachable s ->
        keyFrom url (opt_version o) = Normal k ->
        tasks s !! p = Some (Foreground st k now (opt_ttlSec o) lkg) ->
        success_of ev st p = Some (d, clock) ->
        (0 < opt_ttlSec o)%Z ->
        settled (step s ev).1 !! p = Some (Fulfilled (mkResult d "net" now))
        /\ (fetchWithCache url o now (step s ev).1).2 = Resolved (mkResult d "mem" now)).
Proof.
  assert (forall s url o now r,
     (fetchWithCache url o now s).2 = Resolved r ->
     exists k,
       keyFrom url (opt_version o) = Normal k
       /\ ((exists inMem, fresh_copy (mem s !! k) now (opt_ttlSec o) = Some inMem
              /\ r = mkResult (data inMem) "mem" (fetchedAt inMem))
           \/ (fresh_copy (mem s !! k) now (opt_ttlSec o) = None
               /\ exists lkg l, getLKG k (storage s) = Normal lkg
                    /\ fresh_copy lkg now (opt_ttlSec o) = Some l
                    /\ r = mkResult (data l) "lkg" (fetchedAt l)))) as Hnow.
  { intros s url o now r.
    destruct (fetchWithCache_cases url o now s) as (k & lkg & Hk & Hl & ->).
    unfold fetchWithCache_branches. intros Hr. exists k. split; [exact Hk|].
    destruct (fresh_copy (mem s !! k) now (opt_ttlSec o)) as [inMem|] eqn:Hm.
    { injection Hr as <-. left. eauto. }
    destruct (fresh_copy lkg now (opt_ttlSec o)) as [l|] eqn:Hd.
    { injection Hr as <-. right. split; [reflexivity|]. eauto 10. }
    destruct (inflight s !! k); discriminate. }
  assert (forall s p r,
        reachable s -> settled s !! p = Some (Fulfilled r) ->
        source r = "net" \/ source r = "stale") as Hlater.
  { intros s p r (ls & evs & ->). apply settled_sources; [apply inv_init|].
    intros p' r' E. simpl in E. rewrite lookup_empty in E. discriminate. }
  split; [exact Hnow|]. split; [exact Hlater|]. split; [|split].
  - intros s url o now c r Hr Hc Hobs. destruct c as [r0|p|e]; simpl in Hobs.
    + injection Hobs as ->. destruct (Hnow s url o now r Hc) as (k & _ & [(m & _ & ->)|(_ & lkg & l & _ & _ & ->)]);
        simpl; auto.
    + assert (reachable (fetchWithCache url o now s).1) as Hr'.
      { rewrite <- step_fst_call. apply (reachable_run s [Call url o now] Hr). }
      destruct (Hlater _ p r Hr' Hobs) as [-> | ->]; simpl; auto.
    + discriminate.
  - intros s url o now r Hr.
    destruct (Hnow s url o now r Hr) as (k & Hk & Hcase).
    destruct (getLKG_total k (storage s)) as [lkg Hl].
    revert Hr. rewrite (fetchWithCache_unfold url o now s k lkg Hk Hl).
    unfold fetchWithCache_branches.
    destruct Hcase as [(m & Hm & ->)|(Hm & lkg' & l & Hl' & Hd & ->)]; rewrite Hm.
    + intros _. simpl fst.
      destruct (getLKG_total k (storage s)) as [lkg2 Hl2].
      rewrite (fetchWithCache_unfold url o now s k lkg2 Hk Hl2).
      unfold fetchWithCache_branches. rewrite Hm. eauto.
    + rewrite Hl in Hl'. injection Hl' as <-. rewrite Hd. intros _. simpl fst.
      set (s1 := set_mem k l (spawn (Background AwaitFetch k (opt_ttlSec o)) url s)).
      destruct (getLKG_total k (storage s1)) as [lkg2 Hl2].
      rewrite (fetchWithCache_unfold url o now s1 k lkg2 Hk Hl2).
      unfold fetchWithCache_branches.
      assert (fresh_copy (mem s1 !! k) now (opt_ttlSec o) = Some l) as ->.
      { simpl. rewrite lookup_insert_eq. destruct lkg as [l0|]; [|discriminate].
        simpl in Hd |- *. destruct (is_fresh now l0 (opt_ttlSec o)) eqn:Hf; [|discriminate].
        injection Hd as <-. now rewrite Hf. }
      eauto.
  - intros s url o now k p st lkg ev d clock Hr Hk Ht Hok Hpos.
    pose proof (reachable_inv s Hr) as Hinv.
    pose proof (foreground_step s ev p st k now (opt_ttlSec o) lkg Hinv Ht) as HS.
    assert (failure_of ev st p = None) as Hf.
    { destruct ev as [| |tid [] c], st; simpl in Hok |- *; try discriminate;
        destruct (decide (tid = p)); try discriminate; reflexivity. }
    rewrite Hf, Hok in HS. rewrite HS.
    split; [simpl; apply lookup_insert_eq|].
    match goal with |- (fetchWithCache _ _ _ ?s3).2 = _ => set (s1 := s3) end.
    destruct (getLKG_total k (storage s1)) as [lkg2 Hl2].
    rewrite (fetchWithCache_unfold url o now s1 k lkg2 Hk Hl2).
    unfold fetchWithCache_branches.
    assert (fresh_copy (mem s1 !! k) now (opt_ttlSec o)
            = Some (mkRecord d now (opt_ttlSec o))) as ->.
    { simpl. rewrite lookup_insert_eq. unfold fresh_copy, is_fresh. simpl.
      assert ((now - now <? opt_ttlSec o * 1000)%Z = true) as -> by (apply Z.ltb_lt; lia).
      reflexivity. }
    reflexivity.
Qed.

End SourceTag.

Lemma source_tags_witness :
  In (source (mkResult (JString "old") "lkg" 0)) ["mem"; "lkg"; "net"; "stale"]
  /\ (exists r', (fetchWithCache page_url ttl300 299000
                    (fetchWithCache page_url ttl300 299000 (init reloaded_page)).1).2
                 = Resolved r'
                 /\ source r' = "mem" /\ res_data r' = JString "old" /\ res_fetchedAt r' = 0%Z)
  /\ settled (step (run (init first_visit) [Call page_url ttl300 1000; FetchSettled 0 (Response 200)])
                   (BodySettled 0 (Parsed (JString "new")) 1200)).1 !! 0
     = Some (Fulfilled (mkResult (JString "new") "net" 1000))
  /\ (fetchWithCache page_url ttl300 1000
        (step (run (init first_visit) [Call page_url ttl300 1000; FetchSettled 0 (Response 200)])
              (BodySettled 0 (Parsed (JString "new")) 1200)).1).2
     = Resolved (mkResult (JString "new") "mem" 1000).
Proof.
  destruct (@source_tags codeunit_collator) as (_ & _ & Htag & Hagain & Hnet).
  split; [|split].
  - apply (Htag (init reloaded_page) page_url ttl300 299000%Z
                (Resolved (mkResult (JString "old") "lkg" 0))).
    + apply reachable_init.
    + vm_compute. reflexivity.
    + vm_compute. reflexivity.
  - apply (Hagain (init reloaded_page) page_url ttl300 299000%Z
                  (mkResult (JString "old") "lkg" 0)).
    vm_compute. reflexivity.
  - apply (Hnet (run (init first_visit) [Call page_url ttl300 1000; FetchSettled 0 (Response 200)])
                page_url ttl300 1000%Z page_key 0 AwaitJson None
                (BodySettled 0 (Parsed (JString "new")) 1200) (JString "new") 1200%Z).
    + eexists _, _. reflexivity.
    + vm_compute. reflexivity.
    + vm_compute. reflexivity.
    + vm_compute. reflexivity.
    + simpl. lia.
Defined.

(** ** The retries option *)

Section Retries.
Context `{Collator}.

Lemma step_with_retries f s ev : step s (with_retries f ev) = step s ev.
Proof. destruct ev as [url [ttl r v] now| |]; reflexivity. Qed.

Lemma requests_on_fetch_settled tid r s : requests (on_fetch_settled tid r s) = requests s.
Proof.
  unfold on_fetch_settled, foreground_catch.
  destruct (tasks s !! tid) as [[[] k now ttl lkg|[] k ttl]|]; try reflexivity;
    destruct r as [e|status]; try destruct (ok status); reflexivity.
Qed.

Lemma requests_on_body_settled tid r clock s :
  requests (on_body_settled tid r clock s) = requests s.
Proof.
  unfold on_body_settled.
  destruct (tasks s !! tid) as [[[] k now ttl lkg|[] k ttl]|]; try reflexivity;
    destruct r as [d|e]; rewrite ?foreground_store_eq, ?background_store_eq; reflexivity.
Qed.

(** C9.  The [retries] option is never read.  Two calls that differ only in
    it do the same thing in every state: the same state follows and the same
    promise is returned; this extends to whole runs, whatever is put in place
    of [retries] call by call.  A call issues at most one request, and the
    continuations issue none: when the attempt fails the coroutine goes
    straight to the fallback. *)
Theorem retries_is_ignored :
  (forall s url ttl v r1 r2 now,
     fetchWithCache url (mkOptions ttl r1 v) now s = fetchWithCache url (mkOptions ttl r2 v) now s)
  /\ (forall s evs f, run s (map (with_retries f) evs) = run s evs)
  /\ (forall s url o now,
        requests (fetchWithCache url o now s).1 = requests s
        \/ requests (fetchWithCache url o now s).1 = (requests s ++ [(next s, url)])%list)
  /\ (forall s tid r, requests (on_fetch_settled tid r s) = requests s)
  /\ (forall s tid r clock, requests (on_body_settled tid r clock s) = requests s).
Proof.
  split; [|split; [|split; [|split]]].
  - reflexivity.
  - intros s evs f. revert s. induction evs as [|ev evs IH]; intros s; [reflexivity|].
    simpl. rewrite step_with_retries. apply IH.
  - intros s url o now. destruct (fetchWithCache_cases url o now s) as (k & lkg & _ & _ & ->).
    unfold fetchWithCache_branches.
    destruct (fresh_copy (mem s !! k) now (opt_ttlSec o)); [now left|].
    destruct (fresh_copy lkg now (opt_ttlSec o)); [now right|].
    destruct (inflight s !! k); [now left|now right].
  - intros. apply requests_on_fetch_settled.
  - intros. apply requests_on_body_settled.
Qed.

End Retries.

(** ** The timestamp of a new record *)

Section Timestamps.
Context `{Collator}.

(** C10.  A record created by the foreground path carries the clock reading
    taken when [fetchWithCache] was entered, which is the call that issued
    the request; the clock reading at the moment the body has been parsed
    plays no part.  A record created by the background refresh carries the
    clock reading at the moment the body has been parsed. *)
Theorem fetchedAt_of_new_records :
  (forall s url o now k lkg,
     reachable s ->
     keyFrom url (opt_version o) = Normal k ->
     getLKG k (storage s) = Normal lkg ->
     fresh_copy (mem s !! k) now (opt_ttlSec o) = None ->
     fresh_copy lkg now (opt_ttlSec o) = None ->
     inflight s !! k = None ->
     let s1 := (fetchWithCache url o now s).1 in
     let p := next s in
     let ttl := opt_ttlSec o in
     requests s1 = (requests s ++ [(p, url)])%list
     /\ forall evs ev st d clock,
          tasks (run s1 evs) !! p = Some (Foreground st k now ttl lkg) ->
          success_of ev st p = Some (d, clock) ->
          mem (step (run s1 evs) ev).1 !! k = Some (mkRecord d now ttl)
          /\ storage (step (run s1 evs) ev).1
             = after_setLKG k (mkRecord d now ttl) (storage (run s1 evs))
          /\ settled (step (run s1 evs) ev).1 !! p = Some (Fulfilled (mkResult d "net" now)))
  /\ (forall s url o now k l,
        reachable s ->
        keyFrom url (opt_version o) = Normal k ->
        fresh_copy (mem s !! k) now (opt_ttlSec o) = None ->
        getLKG k (storage s) = Normal (Some l) ->
        is_fresh now l (opt_ttlSec o) = true ->
        let s1 := (fetchWithCache url o now s).1 in
        let b := next s in
        let ttl := opt_ttlSec o in
        requests s1 = (requests s ++ [(b, url)])%list
        /\ forall evs ev st d clock,
             tasks (run s1 evs) !! b = Some (Background st k ttl) ->
             success_of ev st b = Some (d, clock) ->
             mem (step (run s1 evs) ev).1 !! k = Some (mkRecord d clock ttl)
             /\ storage (step (run s1 evs) ev).1
                = after_setLKG k (mkRecord d clock ttl) (storage (run s1 evs))).
Proof.
  assert (forall ev st p d clock, success_of ev st p = Some (d, clock) ->
                                  failure_of ev st p = None) as Hexcl.
  { intros ev st p d clock Hok.
    destruct ev as [| |tid [] c], st; simpl in Hok |- *; try discriminate;
      destruct (decide (tid = p)); try discriminate; reflexivity. }
  split.
  - intros s url o now k lkg Hr Hk Hl Hm Hd Hfree. cbv zeta.
    pose proof (reachable_inv s Hr) as Hinv.
    rewrite (fetchWithCache_unfold url o now s k lkg Hk Hl).
    unfold fetchWithCache_branches. rewrite Hm, Hd, Hfree. simpl fst.
    split; [reflexivity|].
    intros evs ev st d clock Ht Hok.
    assert (inv (run (set_inflight k (next s)
                        (spawn (Foreground AwaitFetch k now (opt_ttlSec o) lkg) url s)) evs))
      as Hinv2 by (apply inv_run; now apply inv_spawn_foreground).
    pose proof (foreground_step _ ev _ _ _ _ _ _ Hinv2 Ht) as HS.
    rewrite (Hexcl _ _ _ _ _ Hok), Hok in HS. rewrite HS. simpl.
    rewrite !lookup_insert_eq. auto.
  - intros s url o now k l Hr Hk Hm Hl Hfresh. cbv zeta.
    pose proof (reachable_inv s Hr) as Hinv.
    rewrite (fetchWithCache_unfold url o now s k (Some l) Hk Hl).
    unfold fetchWithCache_branches. rewrite Hm. simpl fresh_copy. rewrite Hfresh. simpl fst.
    split; [reflexivity|].
    intros evs ev st d clock Ht Hok.
    set (s1 := set_mem k l (spawn (Background AwaitFetch k (opt_ttlSec o)) url s)) in *.
    assert (inv (run s1 evs)) as Hinv2.
    { apply inv_run. eapply inv_frame;
        [| | |apply (inv_spawn_background s AwaitFetch k (opt_ttlSec o) url Hinv)]; reflexivity. }
    pose proof (background_step (run s1 evs) ev (next s) st k (opt_ttlSec o) Hinv2 Ht) as HS.
    rewrite (Hexcl _ _ _ _ _ Hok), Hok in HS. rewrite HS. simpl.
    rewrite lookup_insert_eq. auto.
Qed.

End Timestamps.

Lemma fetchedAt_of_new_records_witness :
  mem (run (init first_visit)
         [Call page_url ttl300 1000; FetchSettled 0 (Response 200);
          BodySettled 0 (Parsed (JString "new")) 1200]) !! page_key
  = Some (mkRecord (JString "new") 1000 300)
  /\ mem (run (init reloaded_page)
            [Call page_url ttl300 299000; FetchSettled 0 (Response 200);
             BodySettled 0 (Parsed (JString "new")) 299500]) !! page_key
     = Some (mkRecord (JString "new") 299500 300).
Proof.
  destruct (@fetchedAt_of_new_records codeunit_collator) as [Hfg Hbg].
  split.
  - destruct (Hfg (init first_visit) page_url ttl300 1000%Z page_key None) as [_ Hdone].
    + apply reachable_init.
    + vm_compute. reflexivity.
    + vm_compute. reflexivity.
    + vm_compute. reflexivity.
    + vm_compute. reflexivity.
    + vm_compute. reflexivity.
    + destruct (Hdone [FetchSettled 0 (Response 200)]
                  (BodySettled 0 (Parsed (JString "new")) 1200) AwaitJson (JString "new") 1200%Z)
        as [Hmem _].
      * vm_compute. reflexivity.
      * vm_compute. reflexivity.
      * exact Hmem.
  - destruct (Hbg (init reloaded_page) page_url ttl300 299000%Z page_key old_record)
      as [_ Hdone].
    + apply reachable_init.
    + vm_compute. reflexivity.
    + vm_compute. reflexivity.
    + vm_compute. reflexivity.
    + vm_compute. reflexivity.
    + destruct (Hdone [FetchSettled 0 (Response 200)]
                  (BodySettled 0 (Parsed (JString "new")) 299500) AwaitJson
                  (JString "new") 299500%Z) as [Hmem _].
      * vm_compute. reflexivity.
      * vm_compute. reflexivity.
      * exact Hmem.
Defined.

(** ** Nothing below the orchestrator throws *)

Section NeverThrows.
Context `{Collator}.

(** C7.  [keyFrom], [getLKG] and [setLKG] complete normally on every input.
    On a URL that does not parse, [keyFrom] returns the URL followed by
    "|v=" and the version.  [getLKG] returns null when the key is missing,
    when the stored text is not JSON, and when localStorage throws.  When the
    write of [setLKG] throws, [setLKG] completes normally with localStorage
    as it was; the memory layer has been written before, and the promise of
    the foreground attempt is fulfilled with the fetched data all the same;
    the background refresh likewise keeps its write to the memory layer. *)
Theorem normaliser_and_store_never_throw :
  (forall url v, exists k, keyFrom url v = Normal k)
  /\ (forall url v e, new_URL url = Throw e -> keyFrom url v = Normal (url +:+ "|v=" +:+ v))
  /\ (forall k ls, exists r, getLKG k ls = Normal r)
  /\ (forall k ls, getItem k ls = Normal None -> getLKG k ls = Normal None)
  /\ (forall k ls raw e,
        getItem k ls = Normal (Some raw) -> JSON_parse raw = Throw e ->
        getLKG k ls = Normal None)
  /\ (forall k ls e, getItem k ls = Throw e -> getLKG k ls = Normal None)
  /\ (forall k rec ls, exists ls', setLKG k rec ls = Normal ls')
  /\ (forall k rec ls e,
        setItem k (JSON_stringify rec) ls = Throw e -> setLKG k rec ls = Normal ls)
  /\ (forall s p k now ttl lkg d clock e,
        reachable s ->
        tasks s !! p = Some (Foreground AwaitJson k now ttl lkg) ->
        setItem k (JSON_stringify (mkRecord d now ttl)) (storage s) = Throw e ->
        mem (step s (BodySettled p (Parsed d) clock)).1 !! k = Some (mkRecord d now ttl)
        /\ storage (step s (BodySettled p (Parsed d) clock)).1 = storage s
        /\ settled (step s (BodySettled p (Parsed d) clock)).1 !! p
           = Some (Fulfilled (mkResult d "net" now)))
  /\ (forall s p k ttl d clock e,
        reachable s ->
        tasks s !! p = Some (Background AwaitJson k ttl) ->
        setItem k (JSON_stringify (mkRecord d clock ttl)) (storage s) = Throw e ->
        mem (step s (BodySettled p (Parsed d) clock)).1 !! k = Some (mkRecord d clock ttl)
        /\ storage (step s (BodySettled p (Parsed d) clock)).1 = storage s).
Proof.
  assert (forall k rec ls e, setItem k (JSON_stringify rec) ls = Throw e ->
                             after_setLKG k rec ls = ls) as Hkept.
  { intros k rec ls e. unfold setItem, after_setLKG.
    destruct (denied ls); [reflexivity|]. destruct (full ls); [reflexivity|discriminate]. }
  repeat apply conj.
  - intros url v. destruct (keyFrom_total url) as [body Hb]. eauto.
  - intros url v e. apply keyFrom_fallback.
  - apply getLKG_total.
  - intros k ls E. unfold getLKG. rewrite E. reflexivity.
  - intros k ls raw e E Hbad. unfold getLKG. rewrite E. simpl.
    destruct (is_empty_text raw); [reflexivity|]. rewrite Hbad. reflexivity.
  - intros k ls e E. unfold getLKG. rewrite E. reflexivity.
  - apply setLKG_total.
  - apply setLKG_failed.
  - intros s p k now ttl lkg d clock e Hr Ht Hw.
    simpl. unfold on_body_settled. rewrite Ht, foreground_store_eq. simpl.
    rewrite !lookup_insert_eq, (Hkept _ _ _ _ Hw). auto.
  - intros s p k ttl d clock e Hr Ht Hw.
    simpl. unfold on_body_settled. rewrite Ht, background_store_eq. simpl.
    rewrite lookup_insert_eq, (Hkept _ _ _ _ Hw). auto.
Qed.

End NeverThrows.

Lemma normaliser_and_store_never_throw_witness :
  keyFrom "not a url" "1" = Normal "not a url|v=1"
  /\ getLKG page_key first_visit = Normal None
  /\ getLKG page_key (mkStorage {[ page_key := Other_text "{oops" ]} false false) = Normal None
  /\ getLKG page_key (mkStorage ∅ true false) = Normal None
  /\ setLKG page_key old_record (mkStorage ∅ false true) = Normal (mkStorage ∅ false true)
  /\ mem (step (run (init (mkStorage ∅ false true))
                    [Call page_url ttl300 1000; FetchSettled 0 (Response 200)])
               (BodySettled 0 (Parsed (JString "new")) 1200)).1 !! page_key
     = Some (mkRecord (JString "new") 1000 300)
  /\ settled (step (run (init (mkStorage ∅ false true))
                        [Call page_url ttl300 1000; FetchSettled 0 (Response 200)])
                   (BodySettled 0 (Parsed (JString "new")) 1200)).1 !! 0
     = Some (Fulfilled (mkResult (JString "new") "net" 1000)).
Proof.
  destruct (@normaliser_and_store_never_throw codeunit_collator)
    as (_ & Hurl & _ & Hmissing & Hbad & Hdenied & _ & Hquota & Hfg & _).
  split; [|split; [|split; [|split; [|split]]]].
  - apply (Hurl "not a url" "1" (TypeError "Invalid URL")). reflexivity.
  - apply Hmissing. reflexivity.
  - apply (Hbad _ _ (Other_text "{oops") SyntaxError); reflexivity.
  - apply (Hdenied _ _ SecurityError). reflexivity.
  - apply (Hquota _ _ _ QuotaExceededError). reflexivity.
  - destruct (Hfg (run (init (mkStorage ∅ false true))
                       [Call page_url ttl300 1000; FetchSettled 0 (Response 200)])
                  0 page_key 1000%Z 300%Z None (JString "new") 1200%Z QuotaExceededError)
      as (Hmem & _ & Hsettled).
    + eexists _, _. reflexivity.
    + vm_compute. reflexivity.
    + vm_compute. reflexivity.
    + split; [exact Hmem|exact Hsettled].
Defined.

(** * Further properties of the cache layer *)

Section RequestBudget.
Context `{Collator}.

Lemma requests_step s ev :
  requests (step s ev).1 = requests s
  \/ exists url o now, ev = Call url o now
       /\ requests (step s ev).1 = (requests s ++ [(next s, url)])%list.
Proof.
  destruct ev as [url o now|tid r|tid r clock].
  - rewrite step_fst_call.
    destruct (fetchWithCache_cases url o now s) as (k & lkg & _ & _ & ->).
    unfold fetchWithCache_branches.
    destruct (fresh_copy (mem s !! k) now (opt_ttlSec o)); [now left|].
    destruct (fresh_copy lkg now (opt_ttlSec o)); [right; eauto 10|].
    destruct (inflight s !! k); [now left|right; eauto 10].
  - left. apply requests_on_fetch_settled.
  - left. apply requests_on_body_settled.
Qed.

Lemma count_calls_cons ev evs :
  length (filter (fun ev => is_call ev = true) evs)
  <= length (filter (fun ev => is_call ev = true) (ev :: evs)).
Proof. rewrite filter_cons. destruct (decide (is_call ev = true)); simpl; lia. Qed.

Lemma called_urls_cons ev evs url : url ∈ called_urls evs -> url ∈ called_urls (ev :: evs).
Proof.
  unfold called_urls. intros Hin. destruct ev; simpl; [right|..]; exact Hin.
Qed.

(** X1.  Every network request is caused by a call: along any run, from any
    state, the number of requests issued is at most the number of calls of
    [fetchWithCache] in the run, and each URL requested is the URL of one of
    those calls.  Responses and failures never cause a request. *)
Theorem requests_bounded_by_calls (s : State) (evs : list Event) :
  exists new,
    requests (run s evs) = (requests s ++ new)%list
    /\ length new <= length (filter (fun ev => is_call ev = true) evs)
    /\ forall p url, (p, url) ∈ new -> url ∈ called_urls evs.
Proof.
  revert s. induction evs as [|ev evs IH]; intros s.
  - exists []. simpl. rewrite app_nil_r. repeat split; [lia|]. intros p url Hin.
    inversion Hin.
  - simpl run. destruct (IH (step s ev).1) as (new & Hreq & Hlen & Hurls).
    destruct (requests_step s ev) as [Hsame|(url & o & now & -> & Hone)].
    + exists new. rewrite Hreq, Hsame. split; [reflexivity|]. split.
      * pose proof (count_calls_cons ev evs). lia.
      * intros p url Hin. apply called_urls_cons. eapply Hurls; eassumption.
    + exists ((next s, url) :: new). rewrite Hreq, Hone, <- app_assoc. split; [reflexivity|].
      split.
      * rewrite filter_cons_True by reflexivity. simpl. lia.
      * intros p u Hin. apply elem_of_cons in Hin as [[= -> ->]|Hin].
        -- unfold called_urls. simpl. left.
        -- apply called_urls_cons. eapply Hurls; eassumption.
Qed.

End RequestBudget.

Section StorageOutOfReach.
Context `{Collator}.

Lemma getLKG_denied k ls : denied ls = true -> getLKG k ls = Normal None.
Proof. intros Hd. unfold getLKG, getItem. rewrite Hd. reflexivity. Qed.

Lemma after_setLKG_denied k rec ls : denied ls = true -> after_setLKG k rec ls = ls.
Proof. intros Hd. unfold after_setLKG. rewrite Hd. reflexivity. Qed.

Lemma storage_step s ev :
  storage (step s ev).1 = storage s
  \/ exists k rec, storage (step s ev).1 = after_setLKG k rec (storage s).
Proof.
  destruct ev as [url o now|tid r|tid r clock].
  - left. rewrite step_fst_call.
    destruct (fetchWithCache_cases url o now s) as (k & lkg & _ & _ & ->).
    unfold fetchWithCache_branches.
    destruct (fresh_copy (mem s !! k) now (opt_ttlSec o)); [reflexivity|].
    destruct (fresh_copy lkg now (opt_ttlSec o)); [reflexivity|].
    destruct (inflight s !! k); reflexivity.
  - left. simpl. unfold on_fetch_settled, foreground_catch.
    destruct (tasks s !! tid) as [[[] k now ttl lkg|[] k ttl]|]; try reflexivity;
      destruct r as [e|status]; try destruct (ok status); reflexivity.
  - simpl. unfold on_body_settled.
    destruct (tasks s !! tid) as [[[] k now ttl lkg|[] k ttl]|]; try (left; reflexivity);
      destruct r as [d|e]; rewrite ?foreground_store_eq, ?background_store_eq;
      try (left; reflexivity); right; eauto.
Qed.

Lemma next_settle_event s ev : is_call ev = false -> next (step s ev).1 = next s.
Proof.
  destruct ev as [url o now|tid r|tid r clock]; [discriminate| |]; intros _; simpl.
  - unfold on_fetch_settled, foreground_catch.
    destruct (tasks s !! tid) as [[[] k now ttl lkg|[] k ttl]|]; try reflexivity;
      destruct r as [e|status]; try destruct (ok status); reflexivity.
  - unfold on_body_settled.
    destruct (tasks s !! tid) as [[[] k now ttl lkg|[] k ttl]|]; try reflexivity;
      destruct r as [d|e]; rewrite ?foreground_store_eq, ?background_store_eq; reflexivity.
Qed.

Lemma memory_and_network_only_step ls s ev :
  denied ls = true -> inv s ->
  memory_and_network_only ls s -> memory_and_network_only ls (step s ev).1.
Proof.
  intros Hd Hinv (Hst & Htasks & Hres). split; [|split].
  - destruct (storage_step s ev) as [->|(k & rec & ->)]; [exact Hst|].
    rewrite Hst. now apply after_setLKG_denied.
  - intros p st k now ttl lkg Ht.
    destruct (decide (p < next s)) as [Hlt|Hge].
    + apply step_task_origin in Ht as (t & Ht & E); [|assumption..].
      destruct t as [st0 k0 now0 ttl0 lkg0|]; simpl in E; [|discriminate].
      injection E as -> -> -> ->. eapply Htasks; eassumption.
    + destruct ev as [url o clock|tid r|tid r clock].
      * rewrite step_fst_call in Ht.
        destruct (fetchWithCache_cases url o clock s) as (k' & lkg' & _ & Hl & Hcall).
        rewrite Hcall in Ht. rewrite Hst, (getLKG_denied _ _ Hd) in Hl. injection Hl as <-.
        unfold fetchWithCache_branches in Ht.
        assert (tasks s !! p = None) as Hnone.
        { destruct (tasks s !! p) eqn:E; [|reflexivity]. exfalso. apply Hge, Hinv. eauto. }
        destruct (fresh_copy (mem s !! k') clock (opt_ttlSec o)); [simpl in Ht; congruence|].
        simpl fresh_copy in Ht.
        destruct (inflight s !! k'); simpl in Ht; [congruence|].
        destruct (decide (next s = p)) as [<-|Hne].
        -- rewrite lookup_insert_eq in Ht. now injection Ht as _ _ _ _ <-.
        -- rewrite lookup_insert_ne in Ht by exact Hne. congruence.
      * exfalso. apply Hge.
        rewrite <- (next_settle_event s (FetchSettled tid r) eq_refl).
        apply (inv_step s (FetchSettled tid r) Hinv). eauto.
      * exfalso. apply Hge.
        rewrite <- (next_settle_event s (BodySettled tid r clock) eq_refl).
        apply (inv_step s (BodySettled tid r clock) Hinv). eauto.
  - intros p r Hp.
    destruct (tasks s !! p) as [[st k now ttl lkg|st k ttl]|] eqn:Ht.
    + pose proof (Htasks _ _ _ _ _ _ Ht) as ->.
      pose proof (foreground_step s ev p st k now ttl None Hinv Ht) as HS.
      destruct (failure_of ev st p) as [err|].
      { rewrite HS in Hp. simpl in Hp. rewrite lookup_insert_eq in Hp. discriminate. }
      destruct (success_of ev st p) as [[d c]|].
      { rewrite HS in Hp. simpl in Hp. rewrite lookup_insert_eq in Hp.
        now injection Hp as <-. }
      destruct HS as [_ HS]. rewrite HS in Hp. eauto.
    + pose proof (background_step s ev p st k ttl Hinv Ht) as HS.
      destruct (failure_of ev st p) as [err|].
      { rewrite HS in Hp. simpl in Hp. eauto. }
      destruct (success_of ev st p) as [[d c]|].
      { rewrite HS in Hp. simpl in Hp. eauto. }
      destruct HS as [_ HS]. rewrite HS in Hp. eauto.
    + rewrite (settled_without_task s ev p Ht) in Hp. eauto.
Qed.

Lemma memory_and_network_only_run ls evs : forall s,
  denied ls = true -> inv s ->
  memory_and_network_only ls s -> memory_and_network_only ls (run s evs).
Proof.
  induction evs as [|ev evs IH]; intros s Hd Hinv Hs; [exact Hs|].
  simpl. apply IH; [exact Hd|now apply inv_step|now apply memory_and_network_only_step].
Qed.

(** X2.  When the browser refuses access to localStorage the cache degrades
    to memory and network, and never throws for it: in every state reached
    from a page load, localStorage is as it was, a call that returns at once
    is served from memory, every promise that is fulfilled carries a result
    fetched from the network, and no result is tagged "lkg" or "stale". *)
Theorem storage_denied_degrades_to_memory (ls : LocalStorage) (evs : list Event) :
  denied ls = true ->
  storage (run (init ls) evs) = ls
  /\ (forall url o now r,
        (fetchWithCache url o now (run (init ls) evs)).2 = Resolved r -> source r = "mem")
  /\ (forall url o now e, (fetchWithCache url o now (run (init ls) evs)).2 <> Rejects e)
  /\ (forall p r, settled (run (init ls) evs) !! p = Some (Fulfilled r) -> source r = "net").
Proof.
  intros Hd.
  assert (memory_and_network_only ls (run (init ls) evs)) as (Hst & _ & Hres).
  { apply memory_and_network_only_run; [exact Hd|apply inv_init|].
    split; [reflexivity|]. split.
    - intros p st k now ttl lkg E. simpl in E. rewrite lookup_empty in E. discriminate.
    - intros p r E. simpl in E. rewrite lookup_empty in E. discriminate. }
  split; [exact Hst|]. split; [|split; [|exact Hres]].
  - intros url o now r.
    destruct (fetchWithCache_cases url o now (run (init ls) evs)) as (k & lkg & _ & Hl & ->).
    rewrite Hst, (getLKG_denied _ _ Hd) in Hl. injection Hl as <-.
    unfold fetchWithCache_branches.
    destruct (fresh_copy (mem (run (init ls) evs) !! k) now (opt_ttlSec o)).
    + intros [= <-]. reflexivity.
    + simpl fresh_copy. destruct (inflight (run (init ls) evs) !! k); discriminate.
  - intros url o now e. apply fetchWithCache_never_rejects.
Qed.

End StorageOutOfReach.

Lemma storage_denied_degrades_to_memory_witness :
  storage (run (init (mkStorage ∅ true false))
             [Call page_url ttl300 1000; FetchSettled 0 (Response 200);
              BodySettled 0 (Parsed (JString "new")) 1200])
  = mkStorage ∅ true false
  /\ source (mkResult (JString "new") "mem" 1000) = "mem".
Proof.
  destruct (storage_denied_degrades_to_memory (mkStorage ∅ true false)
              [Call page_url ttl300 1000; FetchSettled 0 (Response 200);
               BodySettled 0 (Parsed (JString "new")) 1200])
    as (Hst & Hmem & _).
  - reflexivity.
  - split; [exact Hst|].
    apply (Hmem page_url ttl300 1000%Z). vm_compute. reflexivity.
Defined.

Section NoNegativeCaching.
Context `{Collator}.

(** X3.  A failure is not cached.  At the step where a foreground attempt
    fails, whether the caller is then served stale data or rejected, neither
    layer is written and the key is unregistered; so the next call for the
    key that finds no fresh copy goes to the network again, with a request
    of its own. *)
Theorem failure_is_not_cached (s : State) (p : nat) (st : Stage) (k : string) (now ttl : Z)
    (lkg : option CacheRecord) (ev : Event) (err : Exn) (url : string) (o : Options) (now2 : Z) :
  reachable s ->
  tasks s !! p = Some (Foreground st k now ttl lkg) ->
  failure_of ev st p = Some err ->
  keyFrom url (opt_version o) = Normal k ->
  no_fresh_copy k now2 (opt_ttlSec o) s ->
  mem (step s ev).1 = mem s
  /\ storage (step s ev).1 = storage s
  /\ (fetchWithCache url o now2 (step s ev).1).2 = Awaits (next (step s ev).1)
  /\ requests (fetchWithCache url o now2 (step s ev).1).1
     = (requests (step s ev).1 ++ [(next (step s ev).1, url)])%list.
Proof.
  intros Hr Ht Hf Hk [Hm Hd].
  pose proof (reachable_inv s Hr) as Hinv.
  pose proof (foreground_step s ev p st k now ttl lkg Hinv Ht) as HS.
  rewrite Hf in HS. rewrite HS.
  split; [reflexivity|]. split; [reflexivity|].
  match goal with |- (fetchWithCache _ _ _ ?s3).2 = _ /\ _ => set (s1 := s3) end.
  destruct (getLKG_total k (storage s1)) as [lkg2 Hl2].
  rewrite (fetchWithCache_unfold url o now2 s1 k lkg2 Hk Hl2).
  unfold fetchWithCache_branches.
  assert (fresh_copy (mem s1 !! k) now2 (opt_ttlSec o) = None) as -> by exact Hm.
  assert (fresh_copy lkg2 now2 (opt_ttlSec o) = None) as -> by (apply Hd; exact Hl2).
  assert (inflight s1 !! k = None) as -> by (simpl; apply lookup_delete_eq).
  split; reflexivity.
Qed.

End NoNegativeCaching.

Lemma failure_is_not_cached_witness :
  mem (step (run (init reloaded_page) [Call page_url ttl300 2100000])
            (FetchSettled 0 (Response 503))).1
  = mem (run (init reloaded_page) [Call page_url ttl300 2100000])
  /\ (fetchWithCache page_url ttl300 2100001
        (step (run (init reloaded_page) [Call page_url ttl300 2100000])
              (FetchSettled 0 (Response 503))).1).2
     = Awaits 1.
Proof.
  destruct (failure_is_not_cached (run (init reloaded_page) [Call page_url ttl300 2100000])
              0 AwaitFetch page_key 2100000%Z 300%Z (Some old_record)
              (FetchSettled 0 (Response 503)) (HttpError 503) page_url ttl300 2100001%Z)
    as (Hmem & _ & Hagain & _).
  - eexists _, _. reflexivity.
  - vm_compute. reflexivity.
  - vm_compute. reflexivity.
  - vm_compute. reflexivity.
  - split.
    + vm_compute. reflexivity.
    + intros lkg E. vm_compute in E. injection E as <-. vm_compute. reflexivity.
  - split; [exact Hmem|exact Hagain].
Defined.

Section NoEviction.
Context `{Collator}.

Lemma mem_step s ev :
  mem (step s ev).1 = mem s \/ exists k rec, mem (step s ev).1 = <[k := rec]> (mem s).
Proof.
  destruct ev as [url o now|tid r|tid r clock].
  - rewrite step_fst_call.
    destruct (fetchWithCache_cases url o now s) as (k & lkg & _ & _ & ->).
    unfold fetchWithCache_branches.
    destruct (fresh_copy (mem s !! k) now (opt_ttlSec o)); [now left|].
    destruct (fresh_copy lkg now (opt_ttlSec o)); [right; simpl; eauto|].
    destruct (inflight s !! k); now left.
  - left. simpl. unfold on_fetch_settled, foreground_catch.
    destruct (tasks s !! tid) as [[[] k now ttl lkg|[] k ttl]|]; try reflexivity;
      destruct r as [e|status]; try destruct (ok status); reflexivity.
  - simpl. unfold on_body_settled.
    destruct (tasks s !! tid) as [[[] k now ttl lkg|[] k ttl]|]; try (left; reflexivity);
      destruct r as [d|e]; rewrite ?foreground_store_eq, ?background_store_eq;
      try (left; reflexivity); right; simpl; eauto.
Qed.

Lemma after_setLKG_keeps k rec ls k' :
  is_Some (items ls !! k') -> is_Some (items (after_setLKG k rec ls) !! k').
Proof.
  unfold after_setLKG. destruct (denied ls || full ls); [auto|]. simpl.
  intros Hk'. destruct (decide (k = k')) as [->|Hne].
  - rewrite lookup_insert_eq. eauto.
  - now rewrite lookup_insert_ne.
Qed.

(** X5.  Neither layer ever forgets a key: there is no eviction and no
    deletion.  A key that has a record in memory, or an item in
    localStorage, still has one after any run. *)
Theorem cache_layers_never_forget (s : State) (evs : list Event) (k : string) :
  (is_Some (mem s !! k) -> is_Some (mem (run s evs) !! k))
  /\ (is_Some (items (storage s) !! k) -> is_Some (items (storage (run s evs)) !! k)).
Proof.
  revert s. induction evs as [|ev evs IH]; intros s; [auto|].
  simpl. destruct (IH (step s ev).1) as [IHm IHs]. split; intros Hk.
  - apply IHm. destruct (mem_step s ev) as [->|(k' & rec & ->)]; [exact Hk|].
    destruct (decide (k' = k)) as [->|Hne].
    + rewrite lookup_insert_eq. eauto.
    + now rewrite lookup_insert_ne.
  - apply IHs. destruct (storage_step s ev) as [->|(k' & rec & ->)]; [exact Hk|].
    now apply after_setLKG_keeps.
Qed.

End NoEviction.

Lemma cache_layers_never_forget_witness :
  is_Some (items (storage (run (init reloaded_page)
                             [Call page_url ttl300 2100000; FetchSettled 0 (Response 503)]))
           !! page_key).
Proof.
  apply (cache_layers_never_forget (init reloaded_page)
           [Call page_url ttl300 2100000; FetchSettled 0 (Response 503)] page_key).
  vm_compute. eauto.
Defined.

Section SortedKey.
Context `{Collator}.

Lemma localeCompare_refl a : localeCompare a a = Eq.
Proof.
  pose proof (localeCompare_antisym a a) as E.
  destruct (localeCompare a a); [reflexivity|discriminate|discriminate].
Qed.

Lemma same_name_own (e : string * string) : same_name e.1 e = true.
Proof. unfold same_name. now rewrite localeCompare_refl. Qed.

(** two parameters with the name [n] compare equal *)
Lemma same_name_equal n a b :
  same_name n a = true -> same_name n b = true -> by_name a b = Eq.
Proof.
  unfold same_name, by_name. intros Ha Hb.
  destruct (localeCompare a.1 n) eqn:Ea; try discriminate.
  destruct (localeCompare b.1 n) eqn:Eb; try discriminate.
  assert (Hnb : localeCompare n b.1 = Eq) by (rewrite localeCompare_antisym, Eb; reflexivity).
  assert (Hna : localeCompare n a.1 = Eq) by (rewrite localeCompare_antisym, Ea; reflexivity).
  assert (Hab : localeCompare a.1 b.1 <> Gt).
  { apply (localeCompare_trans a.1 n b.1); congruence. }
  assert (Hba : localeCompare b.1 a.1 <> Gt).
  { apply (localeCompare_trans b.1 n a.1); congruence. }
  rewrite localeCompare_antisym in Hba.
  destruct (localeCompare a.1 b.1); [reflexivity|now elim Hba|now elim Hab].
Qed.

Lemma insert_sorted_perm (x : string * string) l : insert_sorted by_name x l ≡ₚ x :: l.
Proof.
  induction l as [|y l IH]; simpl; [reflexivity|].
  destruct (by_name x y); try reflexivity.
  rewrite IH. apply perm_swap.
Qed.

Lemma array_sort_permutation (l : list (string * string)) : array_sort by_name l ≡ₚ l.
Proof.
  induction l as [|x l IH]; simpl; [reflexivity|].
  rewrite insert_sorted_perm. now rewrite IH.
Qed.

(** the sort is stable: an insertion passes over no parameter of the same name *)
Lemma insert_sorted_stable n x l :
  with_name n (insert_sorted by_name x l) = with_name n (x :: l).
Proof.
  unfold with_name. induction l as [|y l IH]; [reflexivity|].
  cbn [insert_sorted]. destruct (by_name x y) eqn:E; try reflexivity.
  cbn [List.filter] in *. rewrite IH.
  destruct (same_name n x) eqn:Hx; destruct (same_name n y) eqn:Hy; try reflexivity.
  rewrite (same_name_equal n x y Hx Hy) in E. discriminate.
Qed.

Lemma array_sort_stable n l : with_name n (array_sort by_name l) = with_name n l.
Proof.
  induction l as [|x l IH]; [reflexivity|].
  cbn [array_sort]. rewrite insert_sorted_stable.
  unfold with_name in *. cbn [List.filter]. now rewrite IH.
Qed.

Lemma with_name_elem_of n e l : e ∈ with_name n l -> e ∈ l.
Proof.
  unfold with_name. intros He. apply list_elem_of_In in He.
  apply List.filter_In in He as [He _]. now apply list_elem_of_In.
Qed.

(** a sorted list is determined by its parameters of each name *)
Lemma sorted_by_names_unique l1 l2 :
  StronglySorted (fun a b => by_name a b <> Gt) l1 ->
  StronglySorted (fun a b => by_name a b <> Gt) l2 ->
  (forall n, with_name n l1 = with_name n l2) ->
  l1 = l2.
Proof.
  revert l2. induction l1 as [|x l1 IH]; intros l2 Hs1 Hs2 Hn.
  - destruct l2 as [|y l2]; [reflexivity|].
    specialize (Hn y.1). unfold with_name in Hn. cbn [List.filter] in Hn.
    rewrite same_name_own in Hn. discriminate.
  - destruct l2 as [|y l2].
    { specialize (Hn x.1). unfold with_name in Hn. cbn [List.filter] in Hn.
      rewrite same_name_own in Hn. discriminate. }
    apply StronglySorted_inv in Hs1 as [Hs1 Hx].
    apply StronglySorted_inv in Hs2 as [Hs2 Hy].
    rewrite Forall_forall in Hx. rewrite Forall_forall in Hy.
    assert (Hxy : x = y).
    { pose proof (Hn x.1) as Hnx. pose proof (Hn y.1) as Hny.
      unfold with_name in Hnx, Hny. cbn [List.filter] in Hnx, Hny.
      rewrite same_name_own in Hnx. rewrite same_name_own in Hny.
      destruct (same_name x.1 y) eqn:Exy; [now injection Hnx|].
      destruct (same_name y.1 x) eqn:Eyx; [now injection Hny|].
      exfalso.
      assert (Hx2 : x ∈ l2).
      { apply (with_name_elem_of x.1). unfold with_name. rewrite <- Hnx.
        apply list_elem_of_here. }
      assert (Hy1 : y ∈ l1).
      { apply (with_name_elem_of y.1). unfold with_name. rewrite Hny.
        apply list_elem_of_here. }
      pose proof (Hx y Hy1) as Hle1. pose proof (Hy x Hx2) as Hle2.
      simpl in Hle1, Hle2. rewrite by_name_antisym in Hle2.
      unfold same_name in Eyx. fold (by_name x y) in Eyx.
      destruct (by_name x y); [discriminate|now elim Hle2|now elim Hle1]. }
    subst y. f_equal. apply IH; try assumption.
    intros n. specialize (Hn n). unfold with_name in *. cbn [List.filter] in Hn.
    destruct (same_name n x); [now injection Hn|exact Hn].
Qed.

(** X6.  The key depends on the order of the query parameters only through
    the order of those that share a name.  The sort by name that [keyFrom]
    applies returns the same parameters, none lost or added, in
    non-decreasing order of their names, those of one name in the order
    they had.  So two URLs that parse, agree outside the query, and whose
    parameters of each name are the same and in the same order, get the
    same key, however the names are interleaved. *)
Theorem keyFrom_sorts_parameters :
  (forall l,
     array_sort by_name l ≡ₚ l
     /\ StronglySorted (fun a b => localeCompare a.1 b.1 <> Gt) (array_sort by_name l)
     /\ forall n, with_name n (array_sort by_name l) = with_name n l)
  /\ (forall url1 url2 u1 u2 v,
        new_URL url1 = Normal u1 ->
        new_URL url2 = Normal u2 ->
        prefix u1 = prefix u2 ->
        fragment u1 = fragment u2 ->
        (forall n, with_name n (URLSearchParams_entries (search u1))
                   = with_name n (URLSearchParams_entries (search u2))) ->
        keyFrom url1 v = keyFrom url2 v).
Proof.
  split.
  - intros l. split; [apply array_sort_permutation|].
    split; [apply array_sort_sorted|]. intros n. apply array_sort_stable.
  - intros url1 url2 u1 u2 v P1 P2 Hp Hf Hn.
    rewrite (keyFrom_parsed url1 v u1 P1), (keyFrom_parsed url2 v u2 P2).
    assert (array_sort by_name (URLSearchParams_entries (search u1))
            = array_sort by_name (URLSearchParams_entries (search u2))) as ->.
    { apply sorted_by_names_unique; try apply array_sort_sorted.
      intros n. now rewrite !array_sort_stable. }
    unfold set_search. rewrite Hp, Hf. reflexivity.
Qed.

End SortedKey.

Lemma keyFrom_sorts_parameters_witness :
  keyFrom "https://x/y?a=1&b=2&a=2#top" "1" = keyFrom "https://x/y?b=2&a=1&a=2#top" "1".
Proof.
  destruct (@keyFrom_sorts_parameters codeunit_collator) as [_ Hsame].
  apply (Hsame "https://x/y?a=1&b=2&a=2#top" "https://x/y?b=2&a=1&a=2#top"
               (mkURL "https://x/y" (Some "a=1&b=2&a=2") (Some "top"))
               (mkURL "https://x/y" (Some "b=2&a=1&a=2") (Some "top")) "1").
  - reflexivity.
  - reflexivity.
  - reflexivity.
  - reflexivity.
  - intros n.
    change (URLSearchParams_entries (search (mkURL "https://x/y" (Some "a=1&b=2&a=2") (Some "top"))))
      with [("a", "1"); ("b", "2"); ("a", "2")].
    change (URLSearchParams_entries (search (mkURL "https://x/y" (Some "b=2&a=1&a=2") (Some "top"))))
      with [("b", "2"); ("a", "1"); ("a", "2")].
    unfold with_name. cbn [List.filter].
    destruct (same_name n ("a", "1")) eqn:Ea.
    + assert (same_name n ("a", "2") = true) as -> by exact Ea.
      assert (same_name n ("b", "2") = false) as ->; [|reflexivity].
      destruct (same_name n ("b", "2")) eqn:Eb; [|reflexivity].
      pose proof (same_name_equal n ("a", "1") ("b", "2") Ea Eb) as E.
      vm_compute in E. discriminate.
    + assert (same_name n ("a", "2") = false) as -> by exact Ea.
      reflexivity.
Defined.

(** * Project names *)

Example slugify_example :
  slugifyProjectName (Some "  Aave V3 -- (Core)! ") = "aave-v3-core".
Proof. vm_compute. reflexivity. Qed.

Section Slug.
Context `{CaseMapping}.

Lemma replace_runs_chars b s : all_chars slug_char (replace_runs b s) = true.
Proof.
  revert b. induction s as [|c s IH]; intros b; simpl; [reflexivity|].
  destruct (is_lower_alnum c) eqn:Hc.
  - simpl. unfold slug_char. rewrite Hc. simpl. apply IH.
  - destruct b; [apply IH|]. simpl. apply IH.
Qed.

Lemma lower_alnum_not_hyphen c : is_lower_alnum c = true -> is_hyphen c = false.
Proof. destruct c as [[] [] [] [] [] [] [] []]; vm_compute; congruence. Qed.

Lemma replace_runs_apart b s : hyphens_apart b (replace_runs b s) = true.
Proof.
  revert b. induction s as [|c s IH]; intros b; simpl; [reflexivity|].
  destruct (is_lower_alnum c) eqn:Hc.
  - simpl. rewrite (lower_alnum_not_hyphen c Hc). apply IH.
  - destruct b; [apply IH|]. simpl. apply IH.
Qed.

Lemma strip_leading_chars s :
  all_chars slug_char s = true -> all_chars slug_char (strip_leading_hyphen s) = true.
Proof.
  destruct s as [|c s]; simpl; [auto|]. intros E. destruct (is_hyphen c); [|exact E].
  now apply andb_true_iff in E as [_ E].
Qed.

Lemma strip_leading_apart s :
  hyphens_apart false s = true -> hyphens_apart true (strip_leading_hyphen s) = true.
Proof.
  destruct s as [|c s]; simpl; [auto|]. destruct (is_hyphen c) eqn:Hc; [auto|].
  simpl. now rewrite Hc.
Qed.

Lemma strip_trailing_chars s :
  all_chars slug_char s = true -> all_chars slug_char (strip_trailing_hyphen s) = true.
Proof.
  induction s as [|c s IH]; [auto|]. intros E. apply andb_true_iff in E as [Hc Hs].
  destruct s as [|d s].
  - simpl. destruct (is_hyphen c); [reflexivity|]. simpl. now rewrite Hc.
  - change (strip_trailing_hyphen (String c (String d s)))
      with (String c (strip_trailing_hyphen (String d s))).
    simpl all_chars. rewrite Hc. simpl. now apply IH.
Qed.

Lemma strip_trailing_apart s : forall b,
  hyphens_apart b s = true -> hyphens_apart b (strip_trailing_hyphen s) = true.
Proof.
  induction s as [|c s IH]; intros b; [auto|]. destruct s as [|d s].
  - simpl. destruct (is_hyphen c) eqn:Hc; [reflexivity|]. simpl. now rewrite Hc.
  - change (strip_trailing_hyphen (String c (String d s)))
      with (String c (strip_trailing_hyphen (String d s))).
    change (hyphens_apart b (String c (String d s)))
      with (if is_hyphen c then negb b && hyphens_apart true (String d s)
            else hyphens_apart false (String d s)).
    change (hyphens_apart b (String c (strip_trailing_hyphen (String d s))))
      with (if is_hyphen c then negb b && hyphens_apart true (strip_trailing_hyphen (String d s))
            else hyphens_apart false (strip_trailing_hyphen (String d s))).
    destruct (is_hyphen c).
    + intros E. apply andb_true_iff in E as [-> E]. simpl. now apply IH.
    + apply IH.
Qed.

Lemma strip_trailing_end s : forall b,
  hyphens_apart b s = true -> ends_with_hyphen (strip_trailing_hyphen s) = false.
Proof.
  induction s as [|c s IH]; intros b; [auto|]. destruct s as [|d s].
  - simpl. destruct (is_hyphen c) eqn:Hc; [reflexivity|]. simpl. now rewrite Hc.
  - change (strip_trailing_hyphen (String c (String d s)))
      with (String c (strip_trailing_hyphen (String d s))).
    intros E.
    assert (exists b', hyphens_apart b' (String d s) = true
                       /\ (is_hyphen c = true -> b' = true)) as (b' & E' & Hb').
    { simpl in E. destruct (is_hyphen c).
      - apply andb_true_iff in E as [_ E]. exists true. auto.
      - exists false. split; [exact E|discriminate]. }
    pose proof (IH b' E') as Hend.
    destruct (strip_trailing_hyphen (String d s)) as [|e t] eqn:Est.
    + (* the rest was a single hyphen: [c] is not one *)
      simpl. destruct (is_hyphen c) eqn:Hc; [|reflexivity].
      rewrite (Hb' eq_refl) in E'.
      destruct s as [|f s]; simpl in Est.
      * destruct (is_hyphen d) eqn:Hd; [|discriminate]. simpl in E'. rewrite Hd in E'.
        discriminate.
      * discriminate.
    + exact Hend.
Qed.

Lemma slugify_clean name : clean_slug (slugifyProjectName name) = true.
Proof.
  unfold clean_slug, slugifyProjectName.
  set (r := replace_runs false (toLowerCase (default "" name))).
  rewrite strip_trailing_chars by (apply strip_leading_chars, replace_runs_chars).
  rewrite strip_trailing_apart by (apply strip_leading_apart, replace_runs_apart).
  rewrite (strip_trailing_end _ true) by (apply strip_leading_apart, replace_runs_apart).
  reflexivity.
Qed.

Lemma replace_runs_clean s : forall b,
  all_chars slug_char s = true -> hyphens_apart b s = true -> replace_runs b s = s.
Proof.
  induction s as [|c s IH]; intros b Hc Ha; [reflexivity|].
  simpl in Hc, Ha |- *. apply andb_true_iff in Hc as [Hc Hs].
  destruct (is_lower_alnum c) eqn:Hl.
  - rewrite (lower_alnum_not_hyphen c Hl) in Ha. now rewrite IH.
  - unfold slug_char in Hc. rewrite Hl in Hc. simpl in Hc. rewrite Hc in Ha.
    apply andb_true_iff in Ha as [Hb Ha]. destruct b; [discriminate|].
    rewrite (IH true Hs Ha). f_equal. unfold is_hyphen in Hc.
    now apply Ascii.eqb_eq in Hc.
Qed.

Lemma strip_trailing_clean s : ends_with_hyphen s = false -> strip_trailing_hyphen s = s.
Proof.
  induction s as [|c s IH]; [reflexivity|]. destruct s as [|d s].
  - simpl. now intros ->.
  - change (ends_with_hyphen (String c (String d s))) with (ends_with_hyphen (String d s)).
    change (strip_trailing_hyphen (String c (String d s)))
      with (String c (strip_trailing_hyphen (String d s))).
    intros E. now rewrite IH.
Qed.

(** X7.  A slug is made of lower-case ASCII letters, digits and hyphens
    only, whatever the name: it neither begins nor ends with a hyphen and
    holds no two hyphens in a row.  A missing or empty name gives the empty
    slug, and a slug is its own slug. *)
Theorem slug_is_clean :
  (forall name,
     all_chars slug_char (slugifyProjectName name) = true
     /\ hyphens_apart true (slugifyProjectName name) = true
     /\ ends_with_hyphen (slugifyProjectName name) = false)
  /\ slugifyProjectName None = ""
  /\ slugifyProjectName (Some "") = ""
  /\ (forall name,
        slugifyProjectName (Some (slugifyProjectName name)) = slugifyProjectName name).
Proof.
  assert (forall name,
     all_chars slug_char (slugifyProjectName name) = true
     /\ hyphens_apart true (slugifyProjectName name) = true
     /\ ends_with_hyphen (slugifyProjectName name) = false) as Hclean.
  { intros name. pose proof (slugify_clean name) as E. unfold clean_slug in E.
    apply andb_true_iff in E as [E He]. apply andb_true_iff in E as [Hc Ha].
    apply negb_true_iff in He. auto. }
  assert (slugifyProjectName (Some "") = "") as Hempty.
  { unfold slugifyProjectName. simpl default. now rewrite (toLowerCase_slug "" eq_refl). }
  split; [exact Hclean|]. split; [exact Hempty|]. split; [exact Hempty|].
  intros name. destruct (Hclean name) as (Hc & Ha & He).
  set (s := slugifyProjectName name) in *.
  unfold slugifyProjectName at 1. simpl default. rewrite (toLowerCase_slug s Hc).
  assert (hyphens_apart false s = true) as Ha'.
  { destruct s as [|c s']; [reflexivity|]. simpl in Ha |- *.
    destruct (is_hyphen c); [discriminate|exact Ha]. }
  rewrite (replace_runs_clean s false Hc Ha').
  assert (strip_leading_hyphen s = s) as ->.
  { destruct s as [|c s']; [reflexivity|]. simpl in Ha |- *.
    destruct (is_hyphen c); [discriminate|reflexivity]. }
  now apply strip_trailing_clean.
Qed.

End Slug.

Section Augment.
Context `{CaseMapping}.

Lemma augment_loop_spec topProjects : forall existing ecosystemData,
  (forall x, x ∈ existing <-> x ∈ map (fun p => toLowerCase (partner_name p)) ecosystemData) ->
  (exists added,
     augment_loop existing ecosystemData topProjects = (ecosystemData ++ added)%list
     /\ Forall (fun p => exists project,
                  project ∈ topProjects /\ p = yield_partner project
                  /\ nonempty (toLowerCase project) = true) added)
  /\ (NoDup (map (fun p => toLowerCase (partner_name p)) ecosystemData) ->
      NoDup (map (fun p => toLowerCase (partner_name p))
               (augment_loop existing ecosystemData topProjects)))
  /\ (forall project,
        project ∈ topProjects -> nonempty (toLowerCase project) = true ->
        toLowerCase project
        ∈ map (fun p => toLowerCase (partner_name p))
            (augment_loop existing ecosystemData topProjects)).
Proof.
  induction topProjects as [|project rest IH]; intros existing data Hex.
  - simpl. split; [|split].
    + exists []. rewrite app_nil_r. auto.
    + auto.
    + intros project Hin. inversion Hin.
  - simpl.
    assert (forall out : list Partner,
              (forall x, x ∈ map (fun p => toLowerCase (partner_name p)) data ->
                         x ∈ map (fun p => toLowerCase (partner_name p)) out) ->
              (forall q, q ∈ rest -> nonempty (toLowerCase q) = true ->
                         toLowerCase q ∈ map (fun p => toLowerCase (partner_name p)) out) ->
              toLowerCase project ∈ map (fun p => toLowerCase (partner_name p)) data ->
              forall q, q ∈ project :: rest -> nonempty (toLowerCase q) = true ->
                        toLowerCase q ∈ map (fun p => toLowerCase (partner_name p)) out)
      as Hcomplete.
    { intros out Hmono Hrest Hhere q Hq Hne. apply elem_of_cons in Hq as [->|Hq]; auto. }
    destruct (nonempty (toLowerCase project)) eqn:Hne; simpl.
    + destruct (decide (toLowerCase project ∈ existing)) as [Hin|Hnin].
      * rewrite bool_decide_eq_true_2 by exact Hin.
        destruct (IH existing data Hex) as ((added & Hout & Hadded) & Hnodup & Hall).
        split; [|split].
        -- exists added. split; [exact Hout|].
           eapply Forall_impl; [exact Hadded|].
           intros p (q & Hq & -> & Hq'). exists q. split; [now right|auto].
        -- exact Hnodup.
        -- intros q Hq Hq'. apply elem_of_cons in Hq as [->|Hq]; [|now apply Hall].
           rewrite Hout, map_app. apply elem_of_app. left. now apply Hex.
      * rewrite bool_decide_eq_false_2 by exact Hnin.
        assert (forall x, x ∈ (existing ++ [toLowerCase project])%list <->
                  x ∈ map (fun p => toLowerCase (partner_name p))
                        (data ++ [yield_partner project])%list) as Hex'.
        { intros x. rewrite map_app, !elem_of_app. simpl. now rewrite Hex. }
        destruct (IH _ _ Hex') as ((added & Hout & Hadded) & Hnodup & Hall).
        split; [|split].
        -- exists (yield_partner project :: added).
           rewrite Hout, <- app_assoc. split; [reflexivity|].
           apply Forall_cons. split.
           ++ exists project. split; [left|auto].
           ++ eapply Forall_impl; [exact Hadded|].
              intros p (q & Hq & -> & Hq'). exists q. split; [now right|auto].
        -- intros Hnd. apply Hnodup. rewrite map_app. apply NoDup_app.
           split; [exact Hnd|]. split.
           ++ intros x Hx Hx'. simpl in Hx'. apply list_elem_of_singleton in Hx'. subst x.
              apply Hnin, Hex, Hx.
           ++ simpl. apply NoDup_singleton.
        -- intros q Hq Hq'. apply elem_of_cons in Hq as [->|Hq]; [|now apply Hall].
           rewrite Hout, <- app_assoc, !map_app, !elem_of_app. simpl.
           right. left. left.
    + destruct (IH existing data Hex) as ((added & Hout & Hadded) & Hnodup & Hall).
      split; [|split].
      * exists added. split; [exact Hout|].
        eapply Forall_impl; [exact Hadded|].
        intros p (q & Hq & -> & Hq'). exists q. split; [now right|auto].
      * exact Hnodup.
      * intros q Hq Hq'. apply elem_of_cons in Hq as [->|Hq]; [congruence|now apply Hall].
Qed.

(** X8.  Adding the top yield projects keeps the partner list free of
    repeated names, letter case set aside: the partners already listed stay
    in front, unchanged; every entry added is the entry of a project of the
    input with a name that does not lower-case to the empty text; names
    that were distinct stay distinct; and every such project of the input
    is in the list afterwards. *)
Theorem augment_keeps_names_distinct (ecosystemData : list Partner) (topProjects : list string) :
  (exists added,
     augmentEcosystemWithTopYieldProjects ecosystemData topProjects
     = (ecosystemData ++ added)%list
     /\ Forall (fun p => exists project,
                  project ∈ topProjects /\ p = yield_partner project
                  /\ nonempty (toLowerCase project) = true) added)
  /\ (NoDup (map (fun p => toLowerCase (partner_name p)) ecosystemData) ->
      NoDup (map (fun p => toLowerCase (partner_name p))
               (augmentEcosystemWithTopYieldProjects ecosystemData topProjects)))
  /\ (forall project,
        project ∈ topProjects -> nonempty (toLowerCase project) = true ->
        toLowerCase project
        ∈ map (fun p => toLowerCase (partner_name p))
            (augmentEcosystemWithTopYieldProjects ecosystemData topProjects)).
Proof. apply augment_loop_spec. reflexivity. Qed.

End Augment.

Lemma augment_keeps_names_distinct_witness :
  NoDup (map (fun p => toLowerCase (partner_name p))
           (augmentEcosystemWithTopYieldProjects
              [mkPartner "Ethena" "logos/ethena.svg" "https://ethena.fi/" ["yield"] ""]
              ["ETHENA"; "Aave V3"; ""; "aave v3"]))
  /\ toLowerCase "Aave V3"
     ∈ map (fun p => toLowerCase (partner_name p))
         (augmentEcosystemWithTopYieldProjects
            [mkPartner "Ethena" "logos/ethena.svg" "https://ethena.fi/" ["yield"] ""]
            ["ETHENA"; "Aave V3"; ""; "aave v3"]).
Proof.
  destruct (augment_keeps_names_distinct
              [mkPartner "Ethena" "logos/ethena.svg" "https://ethena.fi/" ["yield"] ""]
              ["ETHENA"; "Aave V3"; ""; "aave v3"]) as (_ & Hnodup & Hall).
  split.
  - apply Hnodup. simpl. apply NoDup_singleton.
  - apply Hall.
    + right. left.
    + vm_compute. reflexivity.
Defined.

(** * Debounce *)

Section DebounceProperties.
Context {A : Type} (wait : Z).

Lemma clearTimeout_own (d : Debounced A) :
  debounce_inv d -> clearTimeout (timeout d) (timers d) = ∅.
Proof.
  intros [Hown _]. apply map_eq. intros id. rewrite lookup_empty.
  destruct (clearTimeout (timeout d) (timers d) !! id) as [e|] eqn:E; [|reflexivity].
  exfalso. unfold clearTimeout in E. destruct (timeout d) as [i|] eqn:Ht.
  - apply lookup_delete_Some in E as [Hne E]. apply Hown in E. congruence.
  - apply Hown in E. congruence.
Qed.

Lemma executedFunction_timers now args (d : Debounced A) :
  debounce_inv d ->
  timers (executedFunction wait now args d)
  = {[ next_timer d := ((now + Z.max 0 wait)%Z, args) ]}.
Proof. intros Hinv. unfold executedFunction. simpl. now rewrite clearTimeout_own. Qed.

Lemma later_timers id now (d : Debounced A) :
  debounce_inv d ->
  later id now d = d
  \/ exists deadline args,
       timers d !! id = Some (deadline, args) /\ (deadline <= now)%Z
       /\ later id now d
          = mkDebounced (timeout d) ∅ (next_timer d) (invocations d ++ [(now, args)]).
Proof.
  intros Hinv. unfold later. destruct (timers d !! id) as [[deadline args]|] eqn:E; [|now left].
  destruct (Z.leb_spec deadline now) as [Hle|Hgt]; [|now left].
  right. exists deadline, args. split; [reflexivity|]. split; [exact Hle|]. f_equal.
  destruct Hinv as [Hown _]. rewrite (Hown _ _ E). simpl.
  apply map_eq. intros j. rewrite lookup_empty.
  destruct (delete id (delete id (timers d)) !! j) as [e|] eqn:Ej; [|reflexivity].
  apply lookup_delete_Some in Ej as [Hne Ej]. apply lookup_delete_Some in Ej as [_ Ej].
  apply Hown in Ej. rewrite (Hown _ _ E) in Ej. congruence.
Qed.

Lemma debounce_inv_step (d : Debounced A) ev :
  debounce_inv d -> debounce_inv (debounce_step wait d ev).
Proof.
  intros Hinv. destruct ev as [now args|id now]; simpl.
  - split.
    + intros id e. rewrite (executedFunction_timers now args d Hinv).
      intros E. apply lookup_singleton_Some in E as [<- _]. reflexivity.
    + intros id. rewrite (executedFunction_timers now args d Hinv).
      intros [e E]. apply lookup_singleton_Some in E as [<- _]. simpl. lia.
  - destruct (later_timers id now d Hinv) as [->|(dl & args & _ & _ & ->)]; [exact Hinv|].
    split; simpl.
    + intros j e E. rewrite lookup_empty in E. discriminate.
    + intros j [e E]. rewrite lookup_empty in E. discriminate.
Qed.

Lemma debounce_run_snoc (evs : list (DebounceEvent A)) ev :
  debounce_run wait (evs ++ [ev]) = debounce_step wait (debounce_run wait evs) ev.
Proof. unfold debounce_run. now rewrite fold_left_app. Qed.

Lemma debounce_inv_run (evs : list (DebounceEvent A)) : debounce_inv (debounce_run wait evs).
Proof.
  induction evs as [|ev evs IH] using rev_ind.
  - split; simpl.
    + intros j e E. rewrite lookup_empty in E. discriminate.
    + intros j [e E]. rewrite lookup_empty in E. discriminate.
  - rewrite debounce_run_snoc. now apply debounce_inv_step.
Qed.

Lemma invokes_snoc (evs : list (DebounceEvent A)) ev :
  invokes (evs ++ [ev])
  = (invokes evs ++ match ev with Invoke now args => [(now, args)] | Fire _ _ => [] end)%list.
Proof. unfold invokes. rewrite omap_app. destruct ev; reflexivity. Qed.

(** the pending timer carries the last call *)
Lemma pending_is_last_invoke (evs : list (DebounceEvent A)) id deadline args :
  timers (debounce_run wait evs) !! id = Some (deadline, args) ->
  exists t0, last (invokes evs) = Some (t0, args) /\ deadline = (t0 + Z.max 0 wait)%Z.
Proof.
  revert id deadline args. induction evs as [|ev evs IH] using rev_ind; intros id dl args.
  - simpl. rewrite lookup_empty. discriminate.
  - rewrite debounce_run_snoc, invokes_snoc.
    pose proof (debounce_inv_run evs) as Hinv.
    destruct ev as [now a|j now]; simpl debounce_step.
    + rewrite (executedFunction_timers now a _ Hinv). intros E.
      apply lookup_singleton_Some in E as [_ [= <- <-]].
      exists now. rewrite last_snoc. auto.
    + rewrite app_nil_r.
      destruct (later_timers j now _ Hinv) as [->|(dl' & a' & _ & _ & ->)]; [apply IH|].
      simpl. rewrite lookup_empty. discriminate.
Qed.

Lemma debounce_budget (evs : list (DebounceEvent A)) :
  length (invocations (debounce_run wait evs)) + size (timers (debounce_run wait evs))
  <= length (invokes evs).
Proof.
  induction evs as [|ev evs IH] using rev_ind.
  - simpl. rewrite map_size_empty. lia.
  - rewrite debounce_run_snoc, invokes_snoc, length_app.
    pose proof (debounce_inv_run evs) as Hinv.
    destruct ev as [now a|j now]; simpl debounce_step.
    + rewrite (executedFunction_timers now a _ Hinv), map_size_singleton. simpl. lia.
    + destruct (later_timers j now _ Hinv) as [->|(dl' & a' & Hj & _ & ->)]; [simpl; lia|].
      simpl. rewrite map_size_empty, length_app. simpl.
      assert (size (timers (debounce_run wait evs)) <> 0).
      { intros E. apply map_size_empty_iff in E. rewrite E, lookup_empty in Hj. discriminate. }
      lia.
Qed.

(** X9.  The debounced function runs only after a quiet period.  In every
    history of calls and timer firings: at most one timer is pending, and
    right after a call it is the timer of that call, every earlier one being
    cancelled; when a firing makes [func] run, it runs once, with the
    arguments of the latest call of the closure, no earlier than [wait]
    after that call, and no timer is left; and [func] has run at most as
    often as the closure was called. *)
Theorem debounce_waits_for_quiet (evs : list (DebounceEvent A)) :
  size (timers (debounce_run wait evs)) <= 1
  /\ (forall now args,
        timers (debounce_run wait (evs ++ [Invoke now args]))
        = {[ next_timer (debounce_run wait evs) := ((now + Z.max 0 wait)%Z, args) ]}
        /\ invocations (debounce_run wait (evs ++ [Invoke now args]))
           = invocations (debounce_run wait evs))
  /\ (forall id now,
        debounce_run wait (evs ++ [Fire id now]) = debounce_run wait evs
        \/ exists t0 args,
             last (invokes evs) = Some (t0, args)
             /\ (t0 + Z.max 0 wait <= now)%Z
             /\ invocations (debounce_run wait (evs ++ [Fire id now]))
                = (invocations (debounce_run wait evs) ++ [(now, args)])%list
             /\ timers (debounce_run wait (evs ++ [Fire id now])) = ∅)
  /\ length (invocations (debounce_run wait evs)) <= length (invokes evs).
Proof.
  pose proof (debounce_inv_run evs) as Hinv.
  split; [|split; [|split]].
  - apply map_size_le_1. intros i j x y Hi Hj.
    destruct Hinv as [Hown _]. apply Hown in Hi. apply Hown in Hj. congruence.
  - intros now args. rewrite debounce_run_snoc. simpl debounce_step.
    split; [now apply executedFunction_timers|reflexivity].
  - intros id now. rewrite debounce_run_snoc. simpl debounce_step.
    destruct (later_timers id now _ Hinv) as [->|(dl & args & Hid & Hle & ->)]; [now left|].
    right. destruct (pending_is_last_invoke evs id dl args Hid) as (t0 & Hlast & ->).
    exists t0, args. auto.
  - pose proof (debounce_budget evs). lia.
Qed.

End DebounceProperties.

(** * The list of stablecoins *)

Section Pagination.
Context {R : Type}.

Lemma slice_from (c : nat) (rows : list R) :
  slice c (c + PAGE_SIZE) rows = take PAGE_SIZE (drop c rows).
Proof. unfold slice. f_equal. lia. Qed.

Lemma rebuild_next_page (rows : list R) (st : ListState R) (c : nat) :
  c < length rows ->
  listEl st = map RowOf (take c rows) ->
  listCursor st = c ->
  rebuildStablecoinList false rows st
  = mkListState (map RowOf (take (c + PAGE_SIZE) rows))
      (Nat.min (c + PAGE_SIZE) (length rows))
      (if length rows <=? c + PAGE_SIZE
       then mkLoadButton true "All loaded"
       else mkLoadButton false "Load more").
Proof.
  intros Hc Hel Hcur. unfold rebuildStablecoinList. cbv zeta.
  rewrite Hcur, Hel, slice_from.
  assert (Hlen : length (take PAGE_SIZE (drop c rows)) = Nat.min PAGE_SIZE (length rows - c)).
  { now rewrite length_take, length_drop. }
  rewrite Hlen.
  destruct (Nat.eqb_spec (Nat.min PAGE_SIZE (length rows - c)) 0) as [E|_].
  { unfold PAGE_SIZE in E. lia. }
  rewrite <- map_app, take_take_drop.
  replace (c + Nat.min PAGE_SIZE (length rows - c))
    with (Nat.min (c + PAGE_SIZE) (length rows)) by lia.
  f_equal.
  destruct (Nat.leb_spec (length rows) (Nat.min (c + PAGE_SIZE) (length rows)));
    destruct (Nat.leb_spec (length rows) (c + PAGE_SIZE)); try reflexivity; lia.
Qed.

(** X10.  Paging shows a growing prefix of the rows.  After a rebuild with
    reset and any number of clicks on the button, over the same rows: with
    no row at all the list is the single line that says so and the button is
    disabled; otherwise the list holds exactly the first [(k+1) * PAGE_SIZE]
    rows, in order and each once, never the no-data line, the cursor is
    their number, and the button is disabled exactly when every row is
    shown. *)
Theorem paging_shows_a_prefix (rows : list R) (st0 : ListState R) (k : nat) :
  let st := Nat.iter k (click_loadMore rows) (rebuildStablecoinList true rows st0) in
  listEl st = match rows with
              | [] => [NoDataRow]
              | _ => map RowOf (take (S k * PAGE_SIZE) rows)
              end
  /\ listCursor st = Nat.min (S k * PAGE_SIZE) (length rows)
  /\ disabled (loadBtn st) = (length rows <=? S k * PAGE_SIZE).
Proof.
  cbv zeta. induction k as [|k IH].
  - simpl Nat.iter. destruct rows as [|r rows].
    + repeat split.
    + pose proof (rebuild_next_page (r :: rows)
                    (mkListState [] 0 (mkLoadButton false "")) 0) as Hp.
      assert (Hsame : rebuildStablecoinList true (r :: rows) st0
                      = rebuildStablecoinList false (r :: rows)
                          (mkListState [] 0 (mkLoadButton false ""))) by reflexivity.
      rewrite Hsame, Hp; [|simpl; lia|reflexivity|reflexivity].
      replace (1 * PAGE_SIZE) with (0 + PAGE_SIZE) by reflexivity.
      cbn [listEl listCursor loadBtn]. split; [reflexivity|]. split; [reflexivity|].
      now destruct (length (r :: rows) <=? 0 + PAGE_SIZE).
  - change (Nat.iter (S k) ?f ?x) with (f (Nat.iter k f x)).
    set (st := Nat.iter k (click_loadMore rows) (rebuildStablecoinList true rows st0)) in *.
    destruct IH as (Hel & Hcur & Hdis).
    unfold click_loadMore. rewrite Hdis.
    destruct (Nat.leb_spec (length rows) (S k * PAGE_SIZE)) as [Hall|Hmore].
    + rewrite Hel, Hcur, Hdis. destruct rows as [|r rows].
      * repeat split.
      * split; [|split].
        -- now rewrite !take_ge by (unfold PAGE_SIZE in *; lia).
        -- unfold PAGE_SIZE in *. lia.
        -- destruct (Nat.leb_spec (length (r :: rows)) (S k * PAGE_SIZE));
             destruct (Nat.leb_spec (length (r :: rows)) (S (S k) * PAGE_SIZE));
             try reflexivity; unfold PAGE_SIZE in *; lia.
    + destruct rows as [|r rows]; [simpl in Hmore; lia|].
      rewrite (rebuild_next_page (r :: rows) st (S k * PAGE_SIZE)); try assumption.
      * replace (S k * PAGE_SIZE + PAGE_SIZE) with (S (S k) * PAGE_SIZE) by lia.
        cbn [listEl listCursor loadBtn]. split; [reflexivity|]. split; [reflexivity|].
        now destruct (length (r :: rows) <=? S (S k) * PAGE_SIZE).
      * rewrite Hcur. lia.
Qed.

End Pagination.

(** * Historical series *)

Section SortLaws.
Context {A : Type} (cmp : A -> A -> comparison).

Lemma insert_sorted_Permutation x l : insert_sorted cmp x l ≡ₚ x :: l.
Proof.
  induction l as [|y l IH]; simpl; [reflexivity|].
  destruct (cmp x y); try reflexivity.
  rewrite IH. apply perm_swap.
Qed.

Lemma array_sort_Permutation l : array_sort cmp l ≡ₚ l.
Proof.
  induction l as [|x l IH]; simpl; [reflexivity|].
  rewrite insert_sorted_Permutation. now rewrite IH.
Qed.

Hypothesis cmp_antisym : forall a b, cmp b a = CompOpp (cmp a b).
Hypothesis cmp_trans : forall a b c, cmp a b <> Gt -> cmp b c <> Gt -> cmp a c <> Gt.

Lemma insert_sorted_StronglySorted x l :
  StronglySorted (fun a b => cmp a b <> Gt) l ->
  StronglySorted (fun a b => cmp a b <> Gt) (insert_sorted cmp x l).
Proof.
  induction l as [|y l IH]; simpl; intros Hs.
  - repeat constructor.
  - apply StronglySorted_inv in Hs as [Hs Hy].
    destruct (cmp x y) eqn:E.
    + constructor; [now constructor|]. constructor; [congruence|].
      eapply Forall_impl; [exact Hy|]. intros b Hb. simpl in Hb.
      apply (cmp_trans x y b); congruence.
    + constructor; [now constructor|]. constructor; [congruence|].
      eapply Forall_impl; [exact Hy|]. intros b Hb. simpl in Hb.
      apply (cmp_trans x y b); congruence.
    + constructor; [now apply IH|].
      rewrite insert_sorted_Permutation. constructor; [|exact Hy].
      rewrite cmp_antisym, E. discriminate.
Qed.

Lemma array_sort_StronglySorted l :
  StronglySorted (fun a b => cmp a b <> Gt) (array_sort cmp l).
Proof.
  induction l as [|x l IH]; simpl; [constructor|].
  now apply insert_sorted_StronglySorted.
Qed.

End SortLaws.

Lemma Z_sort_increasing (l : list Z) :
  NoDup l -> StronglySorted Z.lt (array_sort Z.compare l).
Proof.
  intros Hnd.
  assert (Hs : StronglySorted (fun a b => (a ?= b)%Z <> Gt) (array_sort Z.compare l)).
  { apply array_sort_StronglySorted.
    - intros a b. apply Z.compare_antisym.
    - intros a b c Hab Hbc.
      change (a <= b)%Z in Hab. change (b <= c)%Z in Hbc. change (a <= c)%Z. lia. }
  assert (Hnd' : NoDup (array_sort Z.compare l)) by now rewrite array_sort_Permutation.
  induction Hs as [|a l' Hs IH Ha]; [constructor|].
  apply NoDup_cons in Hnd' as [Hna Hnd']. constructor; [now apply IH|].
  apply Forall_forall. intros b Hb.
  assert ((a ?= b)%Z <> Gt) as Hle by (rewrite Forall_forall in Ha; now apply Ha).
  change (a <= b)%Z in Hle.
  assert (a <> b) by (intros ->; now apply Hna). lia.
Qed.

Lemma lookup_map {A B : Type} (f : A -> B) (l : list A) (i : nat) :
  map f l !! i = f <$> (l !! i).
Proof. revert i. induction l as [|x l IH]; intros [|i]; simpl; auto. Qed.

Lemma Set_add_elem_of x y s : y ∈ Set_add x s <-> y = x \/ y ∈ s.
Proof.
  unfold Set_add. case_bool_decide as Hx.
  - split; [auto|]. intros [->|Hy]; assumption.
  - rewrite elem_of_app, list_elem_of_singleton. tauto.
Qed.

Lemma Set_add_NoDup x s : NoDup s -> NoDup (Set_add x s).
Proof.
  intros Hs. unfold Set_add. case_bool_decide as Hx; [assumption|].
  apply NoDup_app. split; [assumption|]. split; [|apply NoDup_singleton].
  intros y Hy Hy'. apply list_elem_of_singleton in Hy'. now subst.
Qed.

Section HistoricalProperties.
Context {V : Type} `{JsonNumber V}.

Lemma add_series_elem_of (series : list (Z * V)) s y :
  y ∈ fold_left (fun s p => Set_add p.1 s) series s
  <-> y ∈ s \/ exists p, p ∈ series /\ p.1 = y.
Proof.
  revert s. induction series as [|p series IH]; intros s; simpl.
  - split; [auto|]. intros [Hy|(p & Hp & _)]; [assumption|]. now apply elem_of_nil in Hp.
  - rewrite IH, Set_add_elem_of. split.
    + intros [[->|Hy]|(q & Hq & Hy)]; [right; exists p|auto|right; exists q].
      * split; [apply list_elem_of_here|reflexivity].
      * split; [now apply list_elem_of_further|assumption].
    + intros [Hy|(q & Hq & Hy)]; [auto|].
      apply elem_of_cons in Hq as [->|Hq]; [auto|]. right. now exists q.
Qed.

Lemma add_series_NoDup (series : list (Z * V)) s :
  NoDup s -> NoDup (fold_left (fun s p => Set_add p.1 s) series s).
Proof.
  revert s. induction series as [|p series IH]; intros s Hs; simpl; [assumption|].
  apply IH. now apply Set_add_NoDup.
Qed.

Lemma allDatesSet_elem_of (chainSeries : list (string * list (Z * V))) s y :
  y ∈ fold_left (fun s e => fold_left (fun s p => Set_add p.1 s) e.2 s) chainSeries s
  <-> y ∈ s \/ exists e p, e ∈ chainSeries /\ p ∈ e.2 /\ p.1 = y.
Proof.
  revert s. induction chainSeries as [|e l IH]; intros s; simpl.
  - split; [auto|]. intros [Hy|(e & p & He & _)]; [assumption|]. now apply elem_of_nil in He.
  - rewrite IH, add_series_elem_of. split.
    + intros [[Hy|(p & Hp & Hy)]|(e' & p & He & Hp & Hy)].
      * now left.
      * right. exists e, p. split; [apply list_elem_of_here|]. now split.
      * right. exists e', p. split; [now apply list_elem_of_further|]. now split.
    + intros [Hy|(e' & p & He & Hp & Hy)]; [auto|].
      apply elem_of_cons in He as [->|He].
      * left. right. now exists p.
      * right. now exists e', p.
Qed.

Lemma allDatesSet_NoDup (chainSeries : list (string * list (Z * V))) s :
  NoDup s ->
  NoDup (fold_left (fun s e => fold_left (fun s p => Set_add p.1 s) e.2 s) chainSeries s).
Proof.
  revert s. induction chainSeries as [|e l IH]; intros s Hs; simpl; [assumption|].
  apply IH. now apply add_series_NoDup.
Qed.

Lemma chain_series_Permutation tokens : chain_series tokens ≡ₚ series_points (V:=V) tokens.
Proof. apply array_sort_Permutation. Qed.

Lemma chain_series_sorted tokens :
  StronglySorted (fun a b : Z * V => (a.1 <= b.1)%Z) (chain_series tokens).
Proof.
  apply (array_sort_StronglySorted by_time).
  - intros a b. apply Z.compare_antisym.
  - intros a b c Hab Hbc. unfold by_time in *.
    change (a.1 <= b.1)%Z in Hab. change (b.1 <= c.1)%Z in Hbc. change (a.1 <= c.1)%Z. lia.
Qed.

Lemma unify_dates dates (src : list (Z * V)) lastv : map fst (unify dates src lastv) = dates.
Proof.
  revert src lastv. induction dates as [|t dates IH]; intros src lastv; simpl; [reflexivity|].
  now rewrite IH.
Qed.

(** the inner loop takes the points that are not after [t], and only them *)
Lemma advance_spec (src : list (Z * V)) t lastv :
  exists mid,
    src = (mid ++ (advance src t lastv).1)%list
    /\ Forall (fun p => (p.1 <= t)%Z) mid
    /\ match (advance src t lastv).1 with
       | [] => True
       | p :: _ => (t < p.1)%Z
       end
    /\ (advance src t lastv).2 = from_option snd lastv (last mid).
Proof.
  revert lastv. induction src as [|p rest IH]; intros lastv; simpl.
  - exists []. repeat split. constructor.
  - destruct (Z.leb_spec p.1 t) as [Hle|Hgt].
    + destruct (IH p.2) as (mid & Hsrc & Hmid & Hhd & Hlast).
      exists (p :: mid). split; [simpl; now rewrite <- Hsrc|].
      split; [now constructor|]. split; [exact Hhd|].
      rewrite Hlast, last_cons. now destruct (last mid).
    + exists []. simpl. repeat split; [constructor|exact Hgt].
Qed.

Lemma filter_keeps_all {B : Type} (P : B -> Prop) `{forall x, Decision (P x)} (l : list B) :
  Forall P l -> filter P l = l.
Proof.
  induction 1 as [|x l Hx _ IH]; [reflexivity|].
  rewrite filter_cons_True by assumption. now rewrite IH.
Qed.

Lemma filter_drops_all {B : Type} (P : B -> Prop) `{forall x, Decision (P x)} (l : list B) :
  Forall (fun x => ~ P x) l -> filter P l = [].
Proof.
  induction 1 as [|x l Hx _ IH]; [reflexivity|].
  now rewrite filter_cons_False by assumption.
Qed.

Lemma unify_spec dates (pre suf : list (Z * V)) lastv :
  StronglySorted (fun a b : Z * V => (a.1 <= b.1)%Z) (pre ++ suf) ->
  StronglySorted Z.lt dates ->
  Forall (fun p => Forall (fun t => (p.1 <= t)%Z) dates) pre ->
  lastv = from_option snd nzero (last pre) ->
  unify dates suf lastv = map (fun t => (t, value_at (pre ++ suf) t)) dates.
Proof.
  revert pre suf lastv.
  induction dates as [|t dates IH]; intros pre suf lastv Hsorted Hdates Hpre Hlast;
    [reflexivity|].
  simpl. apply StronglySorted_inv in Hdates as [Hdates Ht].
  destruct (advance_spec suf t lastv) as (mid & Hsuf & Hmid & Hhd & Hadv).
  set (r := advance suf t lastv) in *.
  assert (Hrest : Forall (fun p : Z * V => ~ (p.1 <= t)%Z) r.1).
  { rewrite Hsuf, app_assoc in Hsorted.
    destruct r.1 as [|q rest]; [constructor|].
    assert (Hq : StronglySorted (fun a b : Z * V => (a.1 <= b.1)%Z) (q :: rest)).
    { clear -Hsorted. induction (pre ++ mid)%list as [|x l IHl]; [exact Hsorted|].
      apply IHl. simpl in Hsorted. now apply StronglySorted_inv in Hsorted as [? _]. }
    apply StronglySorted_inv in Hq as [_ Hq]. constructor; [lia|].
    eapply Forall_impl; [exact Hq|]. intros b Hb. simpl in Hb. lia. }
  assert (Hval : value_at (pre ++ suf) t = r.2).
  { unfold value_at. rewrite Hsuf at 1. rewrite !filter_app.
    rewrite (filter_drops_all _ r.1) by exact Hrest.
    rewrite (filter_keeps_all _ mid) by exact Hmid.
    rewrite (filter_keeps_all _ pre).
    2:{ eapply Forall_impl; [exact Hpre|]. intros p Hp. simpl in Hp.
        now apply Forall_cons in Hp as [? _]. }
    rewrite app_nil_r, last_app, Hadv, Hlast. now destruct (last mid). }
  rewrite Hval. f_equal.
  replace (pre ++ suf)%list with ((pre ++ mid) ++ r.1)%list
    by now rewrite <- app_assoc, <- Hsuf.
  apply IH.
  - now rewrite <- app_assoc, <- Hsuf.
  - exact Hdates.
  - apply Forall_app. split.
    + eapply Forall_impl; [exact Hpre|]. intros p Hp. simpl in Hp.
      now apply Forall_cons in Hp as [_ ?].
    + eapply Forall_impl; [exact Hmid|]. intros p Hp. simpl in Hp.
      eapply Forall_impl; [exact Ht|]. intros t' Ht'. simpl in Ht'. lia.
  - rewrite last_app, Hadv, Hlast. now destruct (last mid).
Qed.

(** the value at [t] comes from a point at the greatest time not after [t] *)
Lemma value_at_spec (src : list (Z * V)) t :
  StronglySorted (fun a b : Z * V => (a.1 <= b.1)%Z) src ->
  (value_at src t = nzero /\ forall p, p ∈ src -> (t < p.1)%Z)
  \/ exists p, p ∈ src /\ p.2 = value_at src t /\ (p.1 <= t)%Z
               /\ forall q, q ∈ src -> (q.1 <= t)%Z -> (q.1 <= p.1)%Z.
Proof.
  intros Hsorted. unfold value_at.
  destruct (last (filter (fun p : Z * V => (p.1 <= t)%Z) src)) as [p|] eqn:E.
  - right. exists p.
    assert (Hp : p ∈ filter (fun p : Z * V => (p.1 <= t)%Z) src).
    { apply last_Some in E as [l' ->]. apply elem_of_app. right. apply list_elem_of_here. }
    apply list_elem_of_filter in Hp as [Hpt Hp].
    split; [exact Hp|]. split; [reflexivity|]. split; [exact Hpt|].
    intros q Hq Hqt.
    apply last_filter_Some in E as (l1 & l2 & -> & Hl2).
    apply elem_of_app in Hq as [Hq|Hq].
    + clear -Hsorted Hq. induction l1 as [|x l1 IH]; [now apply elem_of_nil in Hq|].
      simpl in Hsorted. apply StronglySorted_inv in Hsorted as [Hs Hx].
      apply elem_of_cons in Hq as [->|Hq]; [|now apply IH].
      rewrite Forall_forall in Hx. apply Hx. apply elem_of_app. right. apply list_elem_of_here.
    + apply elem_of_cons in Hq as [->|Hq]; [lia|].
      rewrite Forall_forall in Hl2. now apply Hl2 in Hq.
  - left. split; [reflexivity|]. intros p Hp.
    destruct (Z.lt_ge_cases t p.1) as [Hlt|Hge]; [exact Hlt|].
    exfalso. assert (Hin : p ∈ filter (fun p : Z * V => (p.1 <= t)%Z) src).
    { apply list_elem_of_filter. split; assumption. }
    destruct (filter _ src) as [|x l]; [now apply elem_of_nil in Hin|].
    rewrite last_cons in E. now destruct (last l).
Qed.

(** X11.  The time index aligns every chain on one axis and fills forward.
    The dates are strictly increasing and are exactly the times of the
    valid points of all chains; the chains keep their order; every chain's
    unified series has one point per date, in that order; and its value at
    a date is zero when the chain has no valid point at or before it, and
    otherwise the value of a valid point at the latest time that is not
    after the date. *)
Theorem time_index_aligned_and_filled (chainBalances : ChainBalances V) :
  let r := histBuildTimeIndex chainBalances in
  StronglySorted Z.lt (allDates r)
  /\ (forall t, t ∈ allDates r
        <-> exists chain tokens p,
              (chain, tokens) ∈ chainBalances /\ p ∈ series_points tokens /\ p.1 = t)
  /\ chains r = map fst chainBalances
  /\ map fst (chainToUnified r) = map fst chainBalances
  /\ (forall chain series, (chain, series) ∈ chainToUnified r -> map fst series = allDates r)
  /\ (forall i chain tokens,
        chainBalances !! i = Some (chain, tokens) ->
        exists series,
          chainToUnified r !! i = Some (chain, series)
          /\ forall t v, (t, v) ∈ series ->
               (v = nzero /\ forall p, p ∈ series_points tokens -> (t < p.1)%Z)
               \/ exists p, p ∈ series_points tokens /\ p.2 = v /\ (p.1 <= t)%Z
                    /\ forall q, q ∈ series_points tokens -> (q.1 <= t)%Z -> (q.1 <= p.1)%Z).
Proof.
  cbv zeta. unfold histBuildTimeIndex. cbn [allDates chains chainToUnified].
  set (chainSeries := map (fun e => (e.1, chain_series e.2)) chainBalances).
  set (allDatesSet := fold_left _ chainSeries []).
  assert (Hnd : NoDup allDatesSet) by (apply allDatesSet_NoDup; constructor).
  assert (Hinc : StronglySorted Z.lt (array_sort Z.compare allDatesSet))
    by now apply Z_sort_increasing.
  split; [exact Hinc|]. split; [|split; [|split; [|split]]].
  - intros t. rewrite array_sort_Permutation. unfold allDatesSet.
    rewrite allDatesSet_elem_of. split.
    + intros [Ht|(e & p & He & Hp & Ht)]; [now apply elem_of_nil in Ht|].
      apply list_elem_of_fmap in He as ([chain tokens] & -> & He). simpl in Hp.
      exists chain, tokens, p. split; [exact He|]. split; [|exact Ht].
      now rewrite <- chain_series_Permutation.
    + intros (chain & tokens & p & He & Hp & Ht). right.
      exists (chain, chain_series tokens), p. split; [|split; [|exact Ht]].
      * apply list_elem_of_fmap. now exists (chain, tokens).
      * simpl. now rewrite chain_series_Permutation.
  - unfold chainSeries. rewrite !map_map. reflexivity.
  - unfold chainSeries. rewrite !map_map. reflexivity.
  - intros chain series Hin.
    apply list_elem_of_fmap in Hin as (e & [= -> ->] & _). apply unify_dates.
  - intros i chain tokens Hi.
    exists (unify (array_sort Z.compare allDatesSet) (chain_series tokens) nzero). split.
    + unfold chainSeries. rewrite map_map.
      unfold ChainBalances in *. rewrite lookup_map, Hi. reflexivity.
    + intros t v Hin.
      rewrite (unify_spec _ [] (chain_series tokens) nzero) in Hin;
        [|apply chain_series_sorted|exact Hinc|constructor|reflexivity].
      apply list_elem_of_fmap in Hin as (t' & [= -> ->] & _). simpl.
      destruct (value_at_spec (chain_series tokens) t' (chain_series_sorted tokens))
        as [[Hz Hall]|(p & Hp & Hv & Hpt & Hmax)].
      * left. split; [exact Hz|]. intros p Hp. apply Hall.
        now rewrite chain_series_Permutation.
      * right. exists p. rewrite chain_series_Permutation in Hp.
        split; [exact Hp|]. split; [exact Hv|]. split; [exact Hpt|].
        intros q Hq. apply Hmax. now rewrite chain_series_Permutation.
Qed.

End HistoricalProperties.

Lemma StronglySorted_app_cross {A : Type} (R : A -> A -> Prop) (l1 l2 : list A) :
  StronglySorted R (l1 ++ l2) -> forall a b, a ∈ l1 -> b ∈ l2 -> R a b.
Proof.
  induction l1 as [|x l1 IH]; intros Hs a b Ha Hb; [now apply elem_of_nil in Ha|].
  simpl in Hs. apply StronglySorted_inv in Hs as [Hs Hx].
  apply elem_of_cons in Ha as [->|Ha]; [|now apply IH].
  rewrite Forall_forall in Hx. apply Hx. apply elem_of_app. now right.
Qed.

Lemma distinct_keys_one_value {K B : Type} (l : list (K * B)) (k : K) (x y : B) :
  NoDup (map fst l) -> (k, x) ∈ l -> (k, y) ∈ l -> x = y.
Proof.
  induction l as [|[k' z] l IH]; intros Hnd Hx Hy; [now apply elem_of_nil in Hx|].
  simpl in Hnd. apply NoDup_cons in Hnd as [Hk Hnd].
  assert (Hfst : forall b, (k', b) ∈ l -> False).
  { intros b Hb. apply Hk. apply (list_elem_of_fmap_2 fst) in Hb. exact Hb. }
  apply elem_of_cons in Hx as [Ex|Hx]; apply elem_of_cons in Hy as [Ey|Hy].
  - congruence.
  - injection Ex as -> ->. exfalso. eapply Hfst; eassumption.
  - injection Ey as -> ->. exfalso. eapply Hfst; eassumption.
  - now apply IH.
Qed.

Section TopChainsProperties.
Context {V : Type} `{JsonNumber V}.

Lemma slice_from_start {B : Type} (n : nat) (l : list B) : slice 0 n l = take n l.
Proof. unfold slice. now rewrite Nat.sub_0_r. Qed.

Lemma entries_sorted (l : list (string * V)) :
  StronglySorted (fun a b => nminus b.2 a.2 <> Gt) (array_sort by_latest_desc l).
Proof.
  apply (array_sort_StronglySorted by_latest_desc).
  - intros a b. unfold by_latest_desc. apply nminus_antisym.
  - intros a b c Hab Hbc. unfold by_latest_desc in *.
    now apply (nminus_trans c.2 b.2 a.2).
Qed.

(** X12.  The top chains and the others split the chains by their latest
    value.  For chains with distinct names: [top] and [others] together
    hold every chain exactly once; [top] holds [topN] of them, or all when
    there are fewer; and no chain of [others] has a latest value greater
    than that of a chain of [top]. *)
Theorem top_chains_split_by_latest (chainToUnified : list (string * list (Z * V)))
    (allDates : list Z) (topN : nat) :
  NoDup (map fst chainToUnified) ->
  let r := histComputeTopChains chainToUnified allDates topN in
  (top r ++ others r)%list ≡ₚ map fst chainToUnified
  /\ length (top r) = Nat.min topN (length chainToUnified)
  /\ forall c c' s s',
       c ∈ top r -> c' ∈ others r ->
       (c, s) ∈ chainToUnified -> (c', s') ∈ chainToUnified ->
       nminus (latest allDates s') (latest allDates s) <> Gt.
Proof.
  intros Hnd. cbv zeta. unfold histComputeTopChains. cbn [top others].
  set (g := fun e : string * list (Z * V) => (e.1, latest allDates e.2)).
  set (entries := array_sort by_latest_desc (map g chainToUnified)).
  assert (Hperm : entries ≡ₚ map g chainToUnified) by apply array_sort_Permutation.
  rewrite slice_from_start.
  split; [|split].
  - rewrite <- map_app, take_drop.
    change (map fst entries) with (fst <$> entries).
    rewrite Hperm. change (fst <$> map g chainToUnified) with (map fst (map g chainToUnified)).
    now rewrite map_map.
  - rewrite length_map, length_take.
    change (length entries) with (length (A:=string * V) entries).
    rewrite (Permutation_length Hperm), length_map. reflexivity.
  - intros c c' s s' Hc Hc' Hs Hs'.
    apply list_elem_of_fmap in Hc as (a & -> & Ha).
    apply list_elem_of_fmap in Hc' as (b & -> & Hb).
    pose proof (entries_sorted (map g chainToUnified)) as Hsorted.
    fold entries in Hsorted. rewrite <- (take_drop topN entries) in Hsorted.
    pose proof (StronglySorted_app_cross _ _ _ Hsorted a b Ha Hb) as Hab. simpl in Hab.
    assert (Hval : forall x k series, x ∈ entries -> x.1 = k -> (k, series) ∈ chainToUnified ->
                   x.2 = latest allDates series).
    { intros x k series Hx Hk Hin. rewrite Hperm in Hx.
      apply list_elem_of_fmap in Hx as ([k0 s0] & -> & Hin0). simpl in *. subst k0.
      now rewrite (distinct_keys_one_value _ _ _ _ Hnd Hin0 Hin). }
    assert (Ha' : a ∈ entries).
    { rewrite <- (take_drop topN entries). apply elem_of_app. now left. }
    assert (Hb' : b ∈ entries).
    { rewrite <- (take_drop topN entries). apply elem_of_app. now right. }
    rewrite <- (Hval a a.1 s Ha' eq_refl Hs), <- (Hval b b.1 s' Hb' eq_refl Hs').
    exact Hab.
Qed.

End TopChainsProperties.


Lemma top_chains_split_by_latest_witness :
  nminus (latest [1%Z] [(1%Z, 5%Z)]) (latest [1%Z] [(1%Z, 9%Z)]) <> Gt.
Proof.
  assert (Hnd : NoDup (map fst [("a", [(1%Z, 5%Z)]); ("b", [(1%Z, 9%Z)]); ("c", [(1%Z, 7%Z)])])).
  { apply (bool_decide_unpack _). vm_compute. reflexivity. }
  destruct (top_chains_split_by_latest
              [("a", [(1%Z, 5%Z)]); ("b", [(1%Z, 9%Z)]); ("c", [(1%Z, 7%Z)])] [1%Z] 2 Hnd)
    as (_ & _ & Hord).
  apply (Hord "b" "a").
  - vm_compute. constructor.
  - vm_compute. constructor.
  - right. left.
  - left.
Defined.


(** * The stacked chart *)

Lemma base_NoDup : NoDup base.
Proof. apply (bool_decide_unpack _). vm_compute. reflexivity. Qed.

Lemma histPrepareColors_lookup (n i : nat) :
  i < n -> n <= length base -> histPrepareColors n !! i = base !! i.
Proof.
  intros Hi Hn. unfold histPrepareColors. rewrite lookup_map, lookup_seq_lt by assumption.
  change (length base) with 14 in *. cbn [fmap option_fmap option_map].
  rewrite Nat.add_0_l, Nat.mod_small by lia.
  destruct (base !! i) as [c|] eqn:E.
  - f_equal. now apply nth_lookup_Some.
  - apply lookup_ge_None in E. change (length base) with 14 in E. lia.
Qed.

Lemma length_histPrepareColors (n : nat) : length (histPrepareColors n) = n.
Proof. unfold histPrepareColors. now rewrite length_map, length_seq. Qed.

Lemma object_get_Some {B : Type} (k : string) (o : list (string * B)) :
  k ∈ map fst o -> exists b, object_get k o = Some b /\ (k, b) ∈ o.
Proof.
  induction o as [|[k' b'] o IH]; simpl; intros Hk; [now apply elem_of_nil in Hk|].
  destruct (String.eqb_spec k' k) as [->|Hne].
  - exists b'. split; [reflexivity|apply list_elem_of_here].
  - apply elem_of_cons in Hk as [->|Hk]; [congruence|].
    destruct (IH Hk) as (b & Hb & Hin). exists b. split; [exact Hb|].
    now apply list_elem_of_further.
Qed.

Section StackedChartProperties.
Context {V : Type} `{JsonNumber V} (nplus : V -> V -> V).

Lemma time_index_series_dates (chainBalances : ChainBalances V) chain series :
  (chain, series) ∈ chainToUnified (histBuildTimeIndex chainBalances) ->
  map fst series = allDates (histBuildTimeIndex chainBalances).
Proof.
  unfold histBuildTimeIndex. cbn [allDates chainToUnified]. intros Hin.
  apply list_elem_of_fmap in Hin as (e & [= -> ->] & _). apply unify_dates.
Qed.

Lemma top_chains_are_chains (chainToUnified : list (string * list (Z * V))) allDates topN c :
  c ∈ top (histComputeTopChains chainToUnified allDates topN) -> c ∈ map fst chainToUnified.
Proof.
  unfold histComputeTopChains. cbn [top]. rewrite slice_from_start. intros Hc.
  apply list_elem_of_fmap in Hc as (a & -> & Ha).
  assert (Ha' : a ∈ array_sort by_latest_desc
                      (map (fun e => (e.1, latest allDates e.2)) chainToUnified)).
  { rewrite <- (take_drop topN (array_sort _ _)). apply elem_of_app. now left. }
  rewrite array_sort_Permutation in Ha'.
  apply list_elem_of_fmap in Ha' as (e & -> & He). simpl.
  now apply (list_elem_of_fmap_2 fst) in He.
Qed.

Lemma length_top_chains (chainToUnified : list (string * list (Z * V))) allDates topN :
  length (top (histComputeTopChains chainToUnified allDates topN)) <= topN.
Proof.
  unfold histComputeTopChains. cbn [top]. rewrite slice_from_start, length_map, length_take. lia.
Qed.

Lemma imap_dates {B : Type} (h : nat -> Z -> B) (l : list Z) :
  map fst (imap (fun i t => (t, h i t)) l) = l.
Proof.
  revert h. induction l as [|t l IH]; intros h; simpl; [reflexivity|].
  f_equal. apply (IH (fun i => h (S i))).
Qed.

(** the datasets, one by one *)
Lemma histBuildDatasets_lookup (chainToUnified : list (string * list (Z * V)))
    (allDates : list Z) (topChains : TopChains) (i : nat) (d : Chart.Dataset V) :
  histBuildDatasets nplus chainToUnified allDates topChains !! i = Some d ->
  let colors :=
    histPrepareColors (length (top topChains)
                       + (if length (others topChains) =? 0 then 0 else 1)) in
  i < length colors
  /\ Chart.borderColor d = colors !! i
  /\ Chart.backgroundColor d = with_alpha (colors !! i)
  /\ ((exists chain, top topChains !! i = Some chain
                     /\ Chart.label d = chain
                     /\ map fst (Chart.data d)
                        = map fst (default [] (object_get chain chainToUnified)))
      \/ (i = length (top topChains) /\ length (others topChains) <> 0
          /\ Chart.label d = "Other" /\ map fst (Chart.data d) = allDates)).
Proof.
  cbv zeta. rewrite length_histPrepareColors. unfold histBuildDatasets.
  set (colors := histPrepareColors _).
  set (f := fun colorIdx chain => Chart.mkDataset chain _ _ _).
  intros Hd.
  assert (Htop : forall chain, top topChains !! i = Some chain ->
            imap f (top topChains) !! i = Some d ->
            i < length (top topChains)
            /\ Chart.borderColor d = colors !! i
            /\ Chart.backgroundColor d = with_alpha (colors !! i)
            /\ Chart.label d = chain
            /\ map fst (Chart.data d)
               = map fst (default [] (object_get chain chainToUnified))).
  { intros chain Hc Hi. rewrite list_lookup_imap, Hc in Hi. injection Hi as <-.
    split; [now apply lookup_lt_Some in Hc|]. unfold f. cbn.
    repeat split. now rewrite map_map. }
  destruct (Nat.eqb_spec (length (others topChains)) 0) as [E|E].
  - destruct (top topChains !! i) as [chain|] eqn:Hc.
    + destruct (Htop chain eq_refl Hd) as (Hlt & Hb & Hbg & Hl & Hx).
      split; [lia|]. split; [exact Hb|]. split; [exact Hbg|]. left. now exists chain.
    + rewrite list_lookup_imap, Hc in Hd. discriminate.
  - destruct (decide (i < length (top topChains))) as [Hlt|Hge].
    + rewrite lookup_app_l in Hd by now rewrite length_imap.
      destruct (top topChains !! i) as [chain|] eqn:Hc.
      * destruct (Htop chain eq_refl Hd) as (_ & Hb & Hbg & Hl & Hx).
        split; [lia|]. split; [exact Hb|]. split; [exact Hbg|]. left. now exists chain.
      * rewrite list_lookup_imap, Hc in Hd. discriminate.
    + rewrite lookup_app_r in Hd by (rewrite length_imap; lia).
      rewrite length_imap, list_lookup_singleton in Hd.
      destruct (i - length (top topChains)) as [|j] eqn:Ej; [|discriminate].
      assert (i = length (top topChains)) as -> by lia.
      injection Hd as <-. cbn.
      split; [lia|]. split; [reflexivity|]. split; [reflexivity|]. right.
      split; [reflexivity|]. split; [exact E|]. split; [reflexivity|].
      apply imap_dates.
Qed.

Lemma length_histBuildDatasets (chainToUnified : list (string * list (Z * V)))
    (allDates : list Z) (topChains : TopChains) :
  length (histBuildDatasets nplus chainToUnified allDates topChains)
  = length (top topChains) + (if length (others topChains) =? 0 then 0 else 1).
Proof.
  unfold histBuildDatasets.
  destruct (length (others topChains) =? 0).
  - rewrite length_imap. lia.
  - rewrite length_app, length_imap. simpl. lia.
Qed.

(** what [histBuildDatasets] makes of a time index and its eight top chains *)
Lemma built_datasets_aligned_and_coloured (chainBalances : ChainBalances V) :
  let r := histBuildTimeIndex chainBalances in
  let topChains := histComputeTopChains (chainToUnified r) (allDates r) 8 in
  let datasets := histBuildDatasets nplus (chainToUnified r) (allDates r) topChains in
  map Chart.label datasets
  = (top topChains ++ if length (others topChains) =? 0 then [] else ["Other"])%list
  /\ length datasets <= 9
  /\ (forall d, d ∈ datasets -> map fst (Chart.data d) = allDates r)
  /\ (forall i d, datasets !! i = Some d ->
        exists c, base !! i = Some c
                  /\ Chart.borderColor d = Some c
                  /\ Chart.backgroundColor d = c +:+ "33")
  /\ NoDup (map Chart.borderColor datasets).
Proof.
  cbv zeta.
  set (r := histBuildTimeIndex chainBalances).
  set (topChains := histComputeTopChains (chainToUnified r) (allDates r) 8).
  set (datasets := histBuildDatasets nplus (chainToUnified r) (allDates r) topChains).
  pose proof (length_top_chains (chainToUnified r) (allDates r) 8) as Htop8.
  fold topChains in Htop8.
  pose proof (length_histBuildDatasets (chainToUnified r) (allDates r) topChains) as Hlen.
  fold datasets in Hlen.
  assert (Hn : length datasets <= 9).
  { rewrite Hlen. destruct (length (others topChains) =? 0); lia. }
  assert (Hcol : forall i d, datasets !! i = Some d ->
            Chart.borderColor d = base !! i /\ Chart.backgroundColor d = with_alpha (base !! i)).
  { intros i d Hd.
    destruct (histBuildDatasets_lookup _ _ _ _ _ Hd) as (Hi & Hb & Hbg & _).
    rewrite length_histPrepareColors in Hi.
    rewrite histPrepareColors_lookup in Hb, Hbg; try assumption.
    - now split.
    - rewrite <- Hlen. change (length base) with 14. lia.
    - rewrite <- Hlen. change (length base) with 14. lia. }
  split; [|split; [exact Hn|split; [|split]]].
  - apply list_eq. intros i. rewrite lookup_map.
    destruct (datasets !! i) as [d|] eqn:Hd.
    + destruct (histBuildDatasets_lookup _ _ _ _ _ Hd)
        as (_ & _ & _ & [(chain & Hc & Hl & _)|(-> & Hne & Hl & _)]).
      * rewrite lookup_app_l by (eapply lookup_lt_Some; exact Hc).
        rewrite Hc. simpl. now rewrite Hl.
      * rewrite lookup_app_r by lia. rewrite Nat.sub_diag.
        apply Nat.eqb_neq in Hne. rewrite Hne. simpl. now rewrite Hl.
    + cbn [fmap option_fmap option_map]. symmetry.
      apply lookup_ge_None. apply lookup_ge_None in Hd.
      rewrite length_app. rewrite Hlen in Hd.
      destruct (length (others topChains) =? 0); cbn [length]; lia.
  - intros d Hin. apply list_elem_of_lookup in Hin as [i Hd].
    destruct (histBuildDatasets_lookup _ _ _ _ _ Hd)
      as (_ & _ & _ & [(chain & Hc & _ & Hx)|(_ & _ & _ & Hx)]); [|exact Hx].
    rewrite Hx.
    assert (Hchain : chain ∈ map fst (chainToUnified r)).
    { apply (top_chains_are_chains _ (allDates r) 8). fold topChains.
      eapply list_elem_of_lookup_2. exact Hc. }
    destruct (object_get_Some _ _ Hchain) as (series & -> & Hseries). simpl.
    now apply time_index_series_dates in Hseries.
  - intros i d Hd. destruct (Hcol i d Hd) as [Hb Hbg].
    destruct (base !! i) as [c|] eqn:E.
    + exists c. auto.
    + exfalso. apply lookup_ge_None in E. apply lookup_lt_Some in Hd.
      change (length base) with 14 in E. lia.
  - assert (Hmap : map Chart.borderColor datasets = Some <$> take (length datasets) base).
    { apply list_eq. intros i. rewrite lookup_map, list_lookup_fmap.
      destruct (datasets !! i) as [d|] eqn:Hd.
      - destruct (Hcol i d Hd) as [Hb _]. simpl. rewrite Hb.
        rewrite lookup_take_lt by now apply lookup_lt_Some in Hd.
        destruct (base !! i) as [c|] eqn:E; [reflexivity|].
        exfalso. apply lookup_ge_None in E. apply lookup_lt_Some in Hd.
        change (length base) with 14 in E. lia.
      - apply lookup_ge_None in Hd. now rewrite lookup_take_ge. }
    rewrite Hmap. apply NoDup_fmap_2; [apply _|].
    eapply sublist_NoDup; [apply base_NoDup|apply sublist_take].
Qed.

(** X13.  The datasets of the stacked chart are aligned and told apart.
    When the time index of the chain balances has no date, and so when the
    document has no chain balances, [histSelectAsset] leaves the chart
    without a dataset.  Otherwise there is one dataset for each top chain,
    in their order and under their names, and one named Other behind them
    when other chains exist.  In both cases there are nine datasets at
    most; every dataset has exactly one point for each date of the time
    index, in the order of the dates, and so at least one point; the colour
    of the dataset at position [i] is the [i]-th base colour and its
    background the same with the alpha suffix, so no colour is undefined and
    no two datasets share one. *)
Theorem stacked_datasets_aligned_and_coloured (chainBalances : option (ChainBalances V)) :
  let r := histBuildTimeIndex (default [] chainBalances) in
  let topChains := histComputeTopChains (chainToUnified r) (allDates r) 8 in
  let datasets := stackedDatasets nplus chainBalances in
  (allDates r = [] -> datasets = [])
  /\ (chainBalances = None -> datasets = [])
  /\ (allDates r <> [] ->
      map Chart.label datasets
      = (top topChains ++ if length (others topChains) =? 0 then [] else ["Other"])%list)
  /\ length datasets <= 9
  /\ (forall d, d ∈ datasets ->
        map fst (Chart.data d) = allDates r /\ Chart.data d <> [])
  /\ (forall i d, datasets !! i = Some d ->
        exists c, base !! i = Some c
                  /\ Chart.borderColor d = Some c
                  /\ Chart.backgroundColor d = c +:+ "33")
  /\ NoDup (map Chart.borderColor datasets).
Proof.
  cbv zeta. unfold stackedDatasets.
  destruct (built_datasets_aligned_and_coloured (default [] chainBalances))
    as (Hlabels & Hlen & Hdates & Hcol & Hnd).
  set (r := histBuildTimeIndex (default [] chainBalances)) in *.
  destruct (allDates r) as [|t dates] eqn:E.
  - cbn [length Nat.eqb].
    split; [reflexivity|]. split; [reflexivity|]. split; [congruence|].
    split; [simpl; lia|]. split; [|split].
    + intros d Hd. now apply elem_of_nil in Hd.
    + intros i d Hd. rewrite lookup_nil in Hd. discriminate.
    + constructor.
  - cbn [length Nat.eqb].
    split; [discriminate|]. split.
    { intros ->. exfalso. subst r. vm_compute in E. discriminate. }
    split; [intros _; exact Hlabels|]. split; [exact Hlen|]. split; [|split].
    + intros d Hd. pose proof (Hdates d Hd) as Hx. split; [exact Hx|].
      intros Hempty. rewrite Hempty in Hx. discriminate.
    + exact Hcol.
    + exact Hnd.
Qed.

End StackedChartProperties.

Lemma stacked_datasets_aligned_and_coloured_witness :
  map Chart.label
    (stackedDatasets Z.add
       (Some [("Ethereum", Some [Some (mkTokenPoint (Some 1%Z) (Some (mkCirculating (Some 5%Z))))]);
              ("Tron", Some [Some (mkTokenPoint (Some 2%Z) (Some (mkCirculating (Some 9%Z))))])]))
  = ["Tron"; "Ethereum"]
  /\ stackedDatasets Z.add (Some [("Ethereum", Some []); ("Tron", None)]) = [].
Proof.
  split.
  - destruct (stacked_datasets_aligned_and_coloured Z.add
                (Some [("Ethereum",
                        Some [Some (mkTokenPoint (Some 1%Z) (Some (mkCirculating (Some 5%Z))))]);
                       ("Tron",
                        Some [Some (mkTokenPoint (Some 2%Z) (Some (mkCirculating (Some 9%Z))))])]))
      as (_ & _ & Hlabels & _).
    rewrite Hlabels.
    + vm_compute. reflexivity.
    + vm_compute. discriminate.
  - destruct (stacked_datasets_aligned_and_coloured Z.add
                (Some [("Ethereum", Some []); ("Tron", None)])) as (Hnone & _).
    apply Hnone. vm_compute. reflexivity.
Defined.
